(** * OmniStream telemetry agent: the bounded queue, the consumer and the
      producer loop, embedded from the C++ sources.

    - [Queue]  : src/thread_safe_queue.hpp  (ThreadSafeQueue<T>)
    - [Rt]     : the view one thread has of the shared queue while the other
                 threads take their turns on it
    - [Net]    : src/network_client.hpp     (NetworkClient)
    - [Sensor] : src/sensor_generator.hpp   (SensorGenerator)
    - [Main]   : src/main.cpp               (physics_thread, network_thread)
    - [Demo]   : a small instance on which the model runs
    - [QueueFacts], [RtFacts], [NetFacts], [MainFacts] : what is proved

    How the program is read.  Every method of the queue runs under its mutex,
    so a call on the queue is one atomic step, taken when its wait predicate
    holds; a call whose predicate does not hold waits and is evaluated again
    later, on the queue as it is then.  A thread is run against a schedule
    that says when it has its turn and what the other threads do to the queue
    in between.  Which waiting thread a notification wakes, and when, is not
    modelled: the notifications are recorded, and every order of turns is a
    possible schedule.  The gRPC library is an interface the program is
    parametric in.  A packet is the object a unique_ptr owns (generate never
    returns a null pointer); its contents are not looked at. *)

From Stdlib Require Import String DecimalString.
From Stdlib Require Import List ZArith NArith Bool Lia.
Import ListNotations.

Set Implicit Arguments.

(* ===================================================================== *)
(** ** thread_safe_queue.hpp *)
(* ===================================================================== *)

Module Queue.

(** The two condition variables of the class, and the notifications a call
    issues after it has released the mutex. *)
Inductive cond : Type := not_empty_ | not_full_.

Inductive signal : Type :=
| notify_one (c : cond)
| notify_all (c : cond).

Section ThreadSafeQueue.

Variable T : Type.

(** Data members.  [queue_] is the std::queue, front first; [capacity_] is a
    size_t, never used in arithmetic, only compared; the mutex and the
    condition variables carry no data. *)
Record ThreadSafeQueue : Type := mkQueue {
  queue_ : list T;
  capacity_ : N;
  shutdown_ : bool
}.

(** explicit ThreadSafeQueue(size_t capacity = 1000) *)
Definition new_queue (capacity : N) : ThreadSafeQueue :=
  mkQueue [] capacity false.

Definition default_capacity : N := 1000.

(** std::queue::size and std::queue::empty *)
Definition q_size (q : ThreadSafeQueue) : N := N.of_nat (length (queue_ q)).

Definition q_empty (q : ThreadSafeQueue) : bool :=
  match queue_ q with [] => true | _ :: _ => false end.

(** What a call does once it holds the mutex.  Every method body runs under
    the mutex, so a call is one atomic transition of the queue, taken at a
    moment when its wait predicate holds:
    - [Waits c]: the predicate of [c.wait(lock, pred)] is false, the caller
      stays parked on [c] and the queue is untouched; the call is evaluated
      again, on the queue as it is then, each time the thread wakes;
    - [Returns r q' sigs]: the call returns [r], leaves the queue as [q'] and
      then issues the notifications [sigs];
    - [Undefined]: front() on an empty std::queue. *)
Inductive outcome (A : Type) : Type :=
| Waits (c : cond)
| Returns (r : A) (q' : ThreadSafeQueue) (sigs : list signal)
| Undefined.

Arguments Waits {A} c.
Arguments Returns {A} r q' sigs.
Arguments Undefined {A}.

(** bool push(T item), lines 17-29 *)
Definition push (q : ThreadSafeQueue) (item : T) : outcome bool :=
  if (q_size q <? capacity_ q)%N || shutdown_ q then
    if shutdown_ q then Returns false q []
    else Returns true
           (mkQueue (queue_ q ++ [item]) (capacity_ q) (shutdown_ q))
           [notify_one not_empty_]
  else Waits not_full_.

(** std::optional<T> pop(), lines 31-43 *)
Definition pop (q : ThreadSafeQueue) : outcome (option T) :=
  if negb (q_empty q) || shutdown_ q then
    if shutdown_ q && q_empty q then Returns None q []
    else match queue_ q with
         | item :: rest =>
             Returns (Some item)
               (mkQueue rest (capacity_ q) (shutdown_ q))
               [notify_one not_full_]
         | [] => Undefined
         end
  else Waits not_empty_.

(** void shutdown(), lines 45-52: the assignment under the lock_guard, and
    the two notify_all calls that follow it. *)
Definition shutdown (q : ThreadSafeQueue) : ThreadSafeQueue :=
  mkQueue (queue_ q) (capacity_ q) true.

Definition shutdown_signals : list signal :=
  [notify_all not_empty_; notify_all not_full_].

(** size_t size() const, lines 54-57 *)
Definition size (q : ThreadSafeQueue) : N := q_size q.

(** The public interface as one type of calls, and of results. *)
Inductive op : Type :=
| Push (item : T)
| Pop
| Shutdown
| Size.

Inductive ret : Type :=
| RPush (ok : bool)
| RPop (item : option T)
| RShutdown
| RSize (n : N).

Definition lift {A : Type} (f : A -> ret) (o : outcome A) : outcome ret :=
  match o with
  | Waits c => Waits c
  | Returns r q' sigs => Returns (f r) q' sigs
  | Undefined => Undefined
  end.

Definition exec (q : ThreadSafeQueue) (o : op) : outcome ret :=
  match o with
  | Push item => lift RPush (push q item)
  | Pop => lift RPop (pop q)
  | Shutdown => Returns RShutdown (shutdown q) shutdown_signals
  | Size => Returns (RSize (size q)) q []
  end.

(** A history: calls in the order in which they complete (each one holds the
    mutex from the moment its predicate is found true until it is done, so
    the completed calls of all threads are totally ordered).  [run] replays
    one; it is [None] when the list is not a possible order of completion,
    that is when a call in it would still be waiting at its turn. *)
Fixpoint run (q : ThreadSafeQueue) (h : list op)
  : option (list ret * ThreadSafeQueue) :=
  match h with
  | [] => Some ([], q)
  | o :: h' =>
      match exec q o with
      | Returns r q' _ =>
          match run q' h' with
          | Some (rs, q'') => Some (r :: rs, q'')
          | None => None
          end
      | Waits _ => None
      | Undefined => None
      end
  end.

(** The items handed to push, and those pop returned, in history order. *)
Fixpoint pushed (h : list op) : list T :=
  match h with
  | [] => []
  | Push item :: h' => item :: pushed h'
  | _ :: h' => pushed h'
  end.

Fixpoint popped (rs : list ret) : list T :=
  match rs with
  | [] => []
  | RPop (Some item) :: rs' => item :: popped rs'
  | _ :: rs' => popped rs'
  end.

(** The items of the pushes that returned true. *)
Fixpoint accepted (h : list op) (rs : list ret) : list T :=
  match h, rs with
  | Push item :: h', RPush true :: rs' => item :: accepted h' rs'
  | _ :: h', _ :: rs' => accepted h' rs'
  | _, _ => []
  end.

Definition is_shutdown (o : op) : bool :=
  match o with Shutdown => true | _ => false end.

Definition is_pop (o : op) : bool :=
  match o with Pop => true | _ => false end.

Definition is_push (o : op) : bool :=
  match o with Push _ => true | _ => false end.

(** Results that report the closed queue: push returning false, pop
    returning nullopt. *)
Definition refused (r : ret) : bool :=
  match r with
  | RPush false => true
  | RPop None => true
  | _ => false
  end.

Definition count_if {A : Type} (f : A -> bool) (l : list A) : nat :=
  length (filter f l).

(** 0 <= length <= capacity *)
Definition bounded (q : ThreadSafeQueue) : Prop :=
  (q_size q <= capacity_ q)%N.

End ThreadSafeQueue.

Arguments Waits {T A} c.
Arguments Returns {T A} r q' sigs.
Arguments Undefined {T A}.
Arguments new_queue {T} capacity.
Arguments Push {T} item.
Arguments Pop {T}.
Arguments Shutdown {T}.
Arguments Size {T}.
Arguments RPush {T} ok.
Arguments RPop {T} item.
Arguments RShutdown {T}.
Arguments RSize {T} n.

End Queue.

(* ===================================================================== *)
(** ** One thread's run against the shared queue *)
(* ===================================================================== *)

Module Rt.

Import Queue.

(** grpc::Status, as far as the program looks at it. *)
Record Status : Type := mkStatus {
  error_code : Z;
  error_message : string
}.

Section World.

Variable Packet : Type.

(** Whose turn it is to act on the shared state.  [Me]: the thread that is
    being run takes the mutex (or loads the atomic flag).  [Env o]: another
    thread completes the call [o] on the queue, if [o] can complete there;
    otherwise that thread stays parked and nothing changes.  [Sig]: on_signal
    runs and clears [running]. *)
Inductive turn : Type :=
| Me
| Env (o : op Packet)
| Sig.

(** What the thread under observation did, in program order. *)
Inductive event : Type :=
| EPush (p : Packet) (ok : bool)
| EPop (r : option Packet)
| ESize (n : N)
| EPrint (line : string)
| EWrite (p : Packet) (ok : bool)
| EWritesDone
| EFinish (s : Status)
| ESleep (ns : Z).

(** [queue]: the ThreadSafeQueue both threads hold a reference to;
    [running]: the global std::atomic<bool> of main.cpp;
    [sched]: the turns still to come; [clock]: the values the next calls of
    steady_clock::now() return (nanoseconds); [trace]: the events so far. *)
Record World : Type := mkWorld {
  queue : ThreadSafeQueue Packet;
  running : bool;
  sched : list turn;
  clock : list Z;
  trace : list event
}.

(** A computation either completes, or is still under way when the turns (or
    the clock readings) given to the run are used up, or has run into
    undefined behaviour. *)
Inductive result (A : Type) : Type :=
| Done (a : A) (w : World)
| Pending (w : World)
| Fault (w : World).

Arguments Done {A} a w.
Arguments Pending {A} w.
Arguments Fault {A} w.

Definition M (A : Type) : Type := World -> result A.

Definition ret {A : Type} (a : A) : M A := fun w => Done a w.

Definition bind {A B : Type} (m : M A) (k : A -> M B) : M B :=
  fun w =>
    match m w with
    | Done a w' => k a w'
    | Pending w' => Pending w'
    | Fault w' => Fault w'
    end.

Definition final {A : Type} (r : result A) : World :=
  match r with
  | Done _ w => w
  | Pending w => w
  | Fault w => w
  end.

Definition emit (e : event) : M unit :=
  fun w => Done tt (mkWorld (queue w) (running w) (sched w) (clock w)
                            (trace w ++ [e])).

(** std::cout << ... << std::endl, one line *)
Definition print (line : string) : M unit := emit (EPrint line).

(** Another thread's call: it takes effect only if it can complete. *)
Definition env_apply (q : ThreadSafeQueue Packet) (o : op Packet)
  : ThreadSafeQueue Packet :=
  match exec q o with
  | Returns _ q' _ => q'
  | Waits _ => q
  | Undefined => q
  end.

(** What the other threads' turns in [s] make of the queue. *)
Fixpoint env_run (s : list turn) (q : ThreadSafeQueue Packet)
  : ThreadSafeQueue Packet :=
  match s with
  | [] => q
  | Env o :: s' => env_run s' (env_apply q o)
  | _ :: s' => env_run s' q
  end.

(** A blocking call of this thread on the queue.  The turns before the call
    completes go by: the others act, and at each turn of its own the call is
    evaluated on the queue as it is then. *)
Fixpoint call_at {A : Type} (f : ThreadSafeQueue Packet -> outcome Packet A)
  (ev : A -> event) (s : list turn) (w : World) : result A :=
  match s with
  | [] => Pending (mkWorld (queue w) (running w) [] (clock w) (trace w))
  | Env o :: s' =>
      call_at f ev s'
        (mkWorld (env_apply (queue w) o) (running w) s' (clock w) (trace w))
  | Sig :: s' =>
      call_at f ev s' (mkWorld (queue w) false s' (clock w) (trace w))
  | Me :: s' =>
      match f (queue w) with
      | Returns r q' _ =>
          Done r (mkWorld q' (running w) s' (clock w) (trace w ++ [ev r]))
      | Waits _ =>
          call_at f ev s' (mkWorld (queue w) (running w) s' (clock w) (trace w))
      | Undefined =>
          Fault (mkWorld (queue w) (running w) s' (clock w) (trace w))
      end
  end.

Definition call {A : Type} (f : ThreadSafeQueue Packet -> outcome Packet A)
  (ev : A -> event) : M A :=
  fun w => call_at f ev (sched w) w.

Definition q_push (p : Packet) : M bool :=
  call (fun q => push q p) (EPush p).

Definition q_pop : M (option Packet) :=
  call (@pop Packet) EPop.

Definition q_size_call : M N :=
  call (fun q => Returns (size q) q []) ESize.

(** Loading [running]: the flag is seen as it is at this thread's next turn. *)
Fixpoint load_at (s : list turn) (w : World) : result bool :=
  match s with
  | [] => Pending (mkWorld (queue w) (running w) [] (clock w) (trace w))
  | Env o :: s' =>
      load_at s'
        (mkWorld (env_apply (queue w) o) (running w) s' (clock w) (trace w))
  | Sig :: s' => load_at s' (mkWorld (queue w) false s' (clock w) (trace w))
  | Me :: s' =>
      Done (running w) (mkWorld (queue w) (running w) s' (clock w) (trace w))
  end.

Definition load_running : M bool := fun w => load_at (sched w) w.

(** std::chrono::steady_clock::now() *)
Definition now : M Z :=
  fun w =>
    match clock w with
    | [] => Pending w
    | t :: rest =>
        Done t (mkWorld (queue w) (running w) (sched w) rest (trace w))
    end.

(** std::this_thread::sleep_for(d): the request is recorded as it is made. *)
Definition sleep_for (ns : Z) : M unit := emit (ESleep ns).

(** Undefined behaviour (a null pointer dereferenced). *)
Definition fault {A : Type} : M A := fun w => Fault w.

(** Readings of a trace. *)
Definition is_item_popped (e : event) : bool :=
  match e with EPop (Some _) => true | _ => false end.

Definition is_transport (e : event) : bool :=
  match e with
  | EWrite _ _ => true
  | EWritesDone => true
  | EFinish _ => true
  | _ => false
  end.

Definition is_push_event (e : event) : bool :=
  match e with EPush _ _ => true | _ => false end.

Definition is_ok_write (e : event) : bool :=
  match e with EWrite _ true => true | _ => false end.

Definition is_failed_write (e : event) : bool :=
  match e with EWrite _ false => true | _ => false end.

Definition count (f : event -> bool) (tr : list event) : nat :=
  length (filter f tr).

(** The packets handed to Write, and the durations handed to sleep_for. *)
Fixpoint written (tr : list event) : list Packet :=
  match tr with
  | [] => []
  | EWrite p _ :: tr' => p :: written tr'
  | _ :: tr' => written tr'
  end.

Fixpoint sleeps (tr : list event) : list Z :=
  match tr with
  | [] => []
  | ESleep ns :: tr' => ns :: sleeps tr'
  | _ :: tr' => sleeps tr'
  end.

(** Steps that neither read the clock nor sleep. *)
Definition quiet (w w' : World) : Prop :=
  clock w' = clock w /\ sleeps (trace w') = sleeps (trace w).

(** The events added between two worlds of one run. *)
Definition events_since (w0 w1 : World) : list event :=
  skipn (length (trace w0)) (trace w1).

End World.

Arguments q_pop {Packet} _.
Arguments q_size_call {Packet} _.
Arguments load_running {Packet} _.
Arguments now {Packet} _.
Arguments fault {Packet A} _.
Arguments Me {Packet}.
Arguments Sig {Packet}.
Arguments EPrint {Packet} line.
Arguments EWritesDone {Packet}.
Arguments EFinish {Packet} s.
Arguments ESleep {Packet} ns.
Arguments ESize {Packet} n.
Arguments Done {Packet A} a w.
Arguments Pending {Packet A} w.
Arguments Fault {Packet A} w.

Declare Scope rt_scope.
Delimit Scope rt_scope with rt.

Notation "x <- m ;; k" := (bind m (fun x => k))
  (at level 61, m at next level, right associativity) : rt_scope.
Notation "m ;;; k" := (bind m (fun _ => k))
  (at level 61, right associativity) : rt_scope.

(** Unsigned 64-bit arithmetic (uint64_t counters) and decimal output. *)
Definition u64 (z : Z) : Z := z mod 2 ^ 64.

Definition dec (z : Z) : string := NilZero.string_of_int (Z.to_int z).

End Rt.

(* ===================================================================== *)
(** ** network_client.hpp *)
(* ===================================================================== *)

Module Net.

Import Queue Rt.
Local Open Scope rt_scope.
Local Open Scope string_scope.

Section NetworkClient.

Variable Packet : Type.

(** The gRPC library and the generated TelemetryStream stub, which are not
    part of the repository: the channel, the stub and the client writer of
    the streaming call, each call returning its result and the object as it
    is afterwards. *)
Class Grpc : Type := {
  Channel : Type;
  Stub : Type;
  Writer : Type;
  CreateChannel : string -> Channel;
  NewStub : Channel -> Stub;
  StreamTelemetry : Stub -> Writer;
  Write : Writer -> Packet -> bool * Writer;
  WritesDone : Writer -> bool * Writer;
  Finish : Writer -> Status * Writer
}.

Context {G : Grpc}.

(** Data members.  [sent_] is a uint64_t. *)
Record NetworkClient : Type := mkClient {
  address_ : string;
  channel_ : option Channel;
  stub_ : option Stub;
  connected_ : bool;
  sent_ : Z
}.

(** explicit NetworkClient(const std::string &address) *)
Definition new_client (address : string) : NetworkClient :=
  mkClient address None None false 0.

(** bool connect(), lines 21-28 *)
Definition connect (c : NetworkClient) : M Packet (bool * NetworkClient) :=
  let channel := CreateChannel (address_ c) in
  let stub := NewStub channel in
  let c' := mkClient (address_ c) (Some channel) (Some stub) true (sent_ c) in
  print ("[Network] Connected to " ++ address_ c) ;;;
  ret (true, c').

(** void log_progress(size_t queue_size), lines 64-70 *)
Definition log_progress (c : NetworkClient) (queue_size : N)
  : M Packet NetworkClient :=
  let c' := mkClient (address_ c) (channel_ c) (stub_ c) (connected_ c)
                     (u64 (sent_ c + 1)) in
  if (sent_ c' mod 60 =? 0)%Z then
    print ("[Network] Sent " ++ dec (sent_ c') ++ " | Queue: "
                  ++ dec (Z.of_N queue_size)) ;;;
    ret c'
  else ret c'.

(** The loop of simulate, lines 54-56.  [fuel] bounds the number of passes;
    [simulate] gives it more passes than there are turns left, and each pass
    uses up at least one. *)
Fixpoint simulate_loop (fuel : nat) (c : NetworkClient)
  : M Packet NetworkClient :=
  match fuel with
  | O => fun w => Pending w
  | S fuel' =>
      packet <- q_pop ;;
      match packet with
      | None => ret c
      | Some _ =>
          n <- q_size_call ;;
          c' <- log_progress c n ;;
          simulate_loop fuel' c'
      end
  end.

(** void simulate(queue), lines 51-59 *)
Definition simulate (c : NetworkClient) : M Packet NetworkClient :=
  print "[Network] Running in simulation mode" ;;;
  c' <- (fun w => simulate_loop (S (length (sched w))) c w) ;;
  print ("[Network] Simulation done. Packets: " ++ dec (sent_ c')) ;;;
  ret c'.

(** The call of Write on the stream, with the packet popped, line 40. *)
Definition write (wr : Writer) (p : Packet) : M Packet (bool * Writer) :=
  let r := Write wr p in
  emit (EWrite p (fst r)) ;;; ret r.

(** The loop of stream, lines 39-43. *)
Fixpoint stream_loop (fuel : nat) (wr : Writer) (c : NetworkClient)
  : M Packet (Writer * NetworkClient) :=
  match fuel with
  | O => fun w => Pending w
  | S fuel' =>
      packet <- q_pop ;;
      match packet with
      | None => ret (wr, c)
      | Some p =>
          r <- write wr p ;;
          if negb (fst r) then ret (snd r, c)
          else
            n <- q_size_call ;;
            c' <- log_progress c n ;;
            stream_loop fuel' (snd r) c'
      end
  end.

(** void stream(queue), lines 30-49 *)
Definition stream (c : NetworkClient) : M Packet NetworkClient :=
  if negb (connected_ c) then simulate c
  else
    match stub_ c with
    | None => fault
    | Some stub =>
        let wr := StreamTelemetry stub in
        r <- (fun w => stream_loop (S (length (sched w))) wr c w) ;;
        let done := WritesDone (fst r) in
        emit (EWritesDone (Packet := Packet)) ;;;
        let fin := Finish (snd done) in
        emit (EFinish (Packet := Packet) (fst fin)) ;;;
        print ("[Network] Stream closed: " ++ error_message (fst fin)) ;;;
        ret (snd r)
    end.

(** The writer after the packets [ps] have been handed to Write in turn. *)
Definition writer_after (wr : Writer) (ps : list Packet) : Writer :=
  fold_left (fun wr' p => snd (Write wr' p)) ps wr.

(** uint64_t sent() const *)
Definition sent (c : NetworkClient) : Z := sent_ c.

End NetworkClient.

Arguments Channel {Packet Grpc}.
Arguments Stub {Packet Grpc}.
Arguments Writer {Packet Grpc}.
Arguments NetworkClient Packet {G}.
Arguments mkClient {Packet G} address_ channel_ stub_ connected_ sent_.

End Net.

(* ===================================================================== *)
(** ** sensor_generator.hpp, as far as the pipeline depends on it *)
(* ===================================================================== *)

Module Sensor.

Import Rt.

Section SensorGenerator.

Variable Packet : Type.

(** The packet made at a tick.  Its fields (wall-clock timestamp, lidar scan,
    imu reading, battery level) are floating-point and clock values that no
    other part of the program reads. *)
Variable make_packet : string -> Z -> Packet.

(** [tick_] is a uint64_t. *)
Record SensorGenerator : Type := mkSensor {
  vehicle_id_ : string;
  tick_ : Z
}.

Definition new_sensor (vehicle_id : string) : SensorGenerator :=
  mkSensor vehicle_id 0.

(** std::unique_ptr<TelemetryPacket> generate(), lines 23-37 *)
Definition generate (s : SensorGenerator) : Packet * SensorGenerator :=
  (make_packet (vehicle_id_ s) (tick_ s),
   mkSensor (vehicle_id_ s) (u64 (tick_ s + 1))).

(** uint64_t tick() const *)
Definition tick (s : SensorGenerator) : Z := tick_ s.

End SensorGenerator.

End Sensor.

(* ===================================================================== *)
(** ** main.cpp *)
(* ===================================================================== *)

Module Main.

Import Queue Rt Net Sensor.
Local Open Scope rt_scope.
Local Open Scope string_scope.

Section Threads.

Variable Packet : Type.
Variable make_packet : string -> Z -> Packet.
Context {G : Grpc Packet}.

(** const auto frame = std::chrono::microseconds(16667); *)
Definition frame : Z := 16667.

(** [frame] in the unit of steady_clock's durations, nanoseconds: the common
    type in which [frame - elapsed] is computed. *)
Definition frame_ns : Z := frame * 1000.

(** auto elapsed = steady_clock::now() - start;  then the argument of
    sleep_for, [frame - elapsed], lines 37-38. *)
Definition elapsed (start finish : Z) : Z := finish - start.

Definition sleep_request (start finish : Z) : Z :=
  frame_ns - elapsed start finish.

(** The arguments of sleep_for that go with a sequence of clock readings,
    read two by two: the start of a pass, and its end. *)
Fixpoint requests (readings : list Z) : list Z :=
  match readings with
  | start :: finish :: rest => sleep_request start finish :: requests rest
  | _ => []
  end.

(** The loop of physics_thread, lines 26-39. *)
Fixpoint physics_loop (fuel : nat) (sensor : SensorGenerator)
  : M Packet SensorGenerator :=
  match fuel with
  | O => fun w => Pending w
  | S fuel' =>
      r <- load_running ;;
      if negb r then ret sensor
      else
        start <- now ;;
        let g := generate make_packet sensor in
        ok <- q_push (fst g) ;;
        if negb ok then ret (snd g)
        else
          (if (tick (snd g) mod 60 =? 0)%Z then
             n <- q_size_call ;;
             print ("[Physics] Tick " ++ dec (tick (snd g)) ++ " | Queue: "
                    ++ dec (Z.of_N n))
           else ret tt) ;;;
          finish <- now ;;
          sleep_for (sleep_request start finish) ;;;
          physics_loop fuel' (snd g)
  end.

(** void physics_thread(queue, vehicle_id), lines 21-42 *)
Definition physics_thread (vehicle_id : string) : M Packet SensorGenerator :=
  let sensor := new_sensor vehicle_id in
  s <- (fun w => physics_loop (S (length (sched w))) sensor w) ;;
  print ("[Physics] Stopped at tick " ++ dec (tick s)) ;;;
  ret s.

(** void network_thread(queue, server, simulate), lines 44-57, with the
    callee of line 50 as a parameter.  C++ binds it to
    NetworkClient::connect: that instance is [network_thread] below. *)
Definition network_thread_via
  (connect_op : NetworkClient Packet -> M Packet (bool * NetworkClient Packet))
  (server : string) (simulate_flag : bool) : M Packet (NetworkClient Packet) :=
  let client := new_client server in
  c <- (if simulate_flag then simulate client
        else
          r <- connect_op client ;;
          if fst r then stream (snd r)
          else simulate (snd r)) ;;
  print ("[Network] Sent " ++ dec (sent c) ++ " packets") ;;;
  ret c.

Definition network_thread
  : string -> bool -> M Packet (NetworkClient Packet) :=
  network_thread_via (@connect Packet G).

End Threads.

End Main.

(* ===================================================================== *)
(** ** A small instance to run the model on *)
(* ===================================================================== *)

Module Demo.

Import Queue Rt Net Sensor Main.
Local Open Scope string_scope.

(** A link that carries a given number of writes and then fails: the writer
    is the number of writes it still carries. *)
Definition link (budget : nat) : Grpc string :=
  {| Channel := string;
     Stub := string;
     Writer := nat;
     CreateChannel := fun address => address;
     NewStub := fun channel => channel;
     StreamTelemetry := fun _ => budget;
     Write := fun wr _ =>
                match wr with O => (false, O) | S n => (true, n) end;
     WritesDone := fun wr => (true, wr);
     Finish := fun wr =>
                 (match wr with
                  | O => mkStatus 14 "unavailable"
                  | S _ => mkStatus 0 "OK"
                  end, wr) |}.


(** Three packets queued on an open queue. *)
Definition flowing : World string :=
  mkWorld (mkQueue ["a"; "b"; "c"] 10 false) true (repeat Me 8) [] [].

(** A client as connect leaves it. *)
Definition connected (budget : nat)
  : NetworkClient string (G := link budget) :=
  mkClient (G := link budget) "localhost:50051" (Some "localhost:50051")
           (Some "localhost:50051") true 0.

(** A pass of the producer that takes 20 ms, then the signal. *)
Definition overrun : World string :=
  mkWorld (new_queue 1000) true [Me; Me; Sig; Me] [0; 20000000]%Z [].

Definition label (vehicle_id : string) (tick : Z) : string :=
  vehicle_id ++ "#" ++ dec tick.



Definition broken_world : World string :=
  Eval vm_compute in final (stream (connected 1) flowing).

Definition broken_client : NetworkClient string (G := link 1) :=
  mkClient (G := link 1) "localhost:50051" (Some "localhost:50051")
           (Some "localhost:50051") true 1.

End Demo.

(* ===================================================================== *)
(** ** Readings of a run: what was popped, pushed, written, offered *)
(* ===================================================================== *)

Module Obs.

Import Queue Rt.

Section Readers.

Variable Packet : Type.

(** The packets pop returned to the thread, in order. *)
Fixpoint popped_items (tr : list (event Packet)) : list Packet :=
  match tr with
  | [] => []
  | EPop (Some p) :: tr' => p :: popped_items tr'
  | _ :: tr' => popped_items tr'
  end.

(** The packets the thread handed to push, and those of them that push
    accepted. *)
Fixpoint push_calls (tr : list (event Packet)) : list Packet :=
  match tr with
  | [] => []
  | EPush p _ :: tr' => p :: push_calls tr'
  | _ :: tr' => push_calls tr'
  end.

Fixpoint pushed_ok (tr : list (event Packet)) : list Packet :=
  match tr with
  | [] => []
  | EPush p true :: tr' => p :: pushed_ok tr'
  | _ :: tr' => pushed_ok tr'
  end.

(** The packets whose Write succeeded. *)
Fixpoint written_ok (tr : list (event Packet)) : list Packet :=
  match tr with
  | [] => []
  | EWrite p true :: tr' => p :: written_ok tr'
  | _ :: tr' => written_ok tr'
  end.

Definition is_print (e : event Packet) : bool :=
  match e with EPrint _ => true | _ => false end.

Definition is_pop_event (e : event Packet) : bool :=
  match e with EPop _ => true | _ => false end.

Definition is_refused_push (e : event Packet) : bool :=
  match e with EPush _ false => true | _ => false end.

(** Turns of other threads that pop, and that push; the packets the other
    threads offer to push in a stretch of turns. *)
Definition is_env_pop (t : turn Packet) : bool :=
  match t with Env Pop => true | _ => false end.

Definition is_env_push (t : turn Packet) : bool :=
  match t with Env (Push _) => true | _ => false end.

Definition is_me (t : turn Packet) : bool :=
  match t with Me => true | _ => false end.

Fixpoint offered (s : list (turn Packet)) : list Packet :=
  match s with
  | [] => []
  | Env (Push p) :: s' => p :: offered s'
  | _ :: s' => offered s'
  end.

(** [subseq a b]: [a] is [b] with some elements left out. *)
Inductive subseq (A : Type) : list A -> list A -> Prop :=
| subseq_nil : subseq [] []
| subseq_skip : forall x a b, subseq a b -> subseq a (x :: b)
| subseq_take : forall x a b, subseq a b -> subseq (x :: a) (x :: b).

(** Between two worlds of one run, for a thread that never pushes, while no
    other thread pops: the packets the thread has popped, followed by the
    packets queued at the end, are the packets queued at the start followed
    by packets [acc] that the other threads offered in the turns used up, in
    the order in which they offered them. *)
Definition fed (w w' : World Packet) : Prop :=
  exists used acc evs,
    sched w = used ++ sched w' /\
    trace w' = trace w ++ evs /\
    subseq acc (offered used) /\
    queue_ (queue w) ++ acc = popped_items evs ++ queue_ (queue w') /\
    push_calls evs = [].

Definition single_consumer (s : list (turn Packet)) : Prop :=
  forallb (fun t => negb (is_env_pop t)) s = true.

Definition single_producer (s : list (turn Packet)) : Prop :=
  forallb (fun t => negb (is_env_push t)) s = true.

(** The turns of the thread under observation in a schedule. *)
Definition own_turns (s : list (turn Packet)) : nat :=
  length (filter is_me s).

(** The packets generate makes at [n] ticks in a row from tick [t], for
    the vehicle [id]: the tick is a uint64_t. *)
Definition stamped (make_packet : string -> Z -> Packet) (id : string)
  (t : Z) (n : nat) : list Packet :=
  map (fun k => make_packet id (u64 (t + Z.of_nat k))) (seq 0 n).

(** The queue is closed by the end of the turns [pre]: it is closed
    already, or one of these turns is a shutdown by another thread. *)
Definition closes (pre : list (turn Packet)) (q : ThreadSafeQueue Packet)
  : Prop :=
  shutdown_ q = true \/ In (Env (@Shutdown Packet)) pre.

(** [ready d w]: the schedule of [w] is made of turns by the end of which
    the queue is closed, followed by turns of which [d] are the thread's
    own, besides two for each packet that is queued or that another thread
    pushes before the queue is closed. *)
Definition ready (d : nat) (w : World Packet) : Prop :=
  exists pre post,
    sched w = pre ++ post /\ closes pre (queue w) /\
    (2 * (length (queue_ (queue w)) + length (offered pre)) + d
     <= own_turns post)%nat.

(** Where a call of the thread ends, in a schedule [pre ++ post] with the
    queue closed by the end of [pre]: within [pre], or at the thread's first
    turn of [post], on the closed queue. *)
Definition lands (pre post : list (turn Packet)) (w' : World Packet) : Prop :=
  (exists pre', sched w' = pre' ++ post /\ closes pre' (queue w') /\
                (own_turns pre' < own_turns pre)%nat) \/
  (shutdown_ (queue w') = true /\ own_turns post = S (own_turns (sched w'))).

(** Events that are no call on the queue but size, no Write and no sleep. *)
Definition idle (l : list (event Packet)) : Prop :=
  push_calls l = [] /\ pushed_ok l = [] /\ popped_items l = [] /\
  written l = [] /\ sleeps l = [].

(** What the producer's accepted pushes have become, between two worlds of
    one run: the packets queued at first followed by those pushed since are
    the packets the other threads have taken, at most one for each pop of
    theirs, followed by those queued now. *)
Definition drawn (w w' : World Packet) : Prop :=
  exists used taken evs,
    sched w = used ++ sched w' /\ trace w' = trace w ++ evs /\
    queue_ (queue w) ++ pushed_ok evs = taken ++ queue_ (queue w') /\
    (length taken <= length (filter is_env_pop used))%nat.

(** What no run undoes: the capacity is what it was, a queue within its
    capacity stays within it, a closed queue stays closed, and the flag
    running, once false, stays false. *)
Definition settled (q q' : ThreadSafeQueue Packet) : Prop :=
  capacity_ q' = capacity_ q /\
  (bounded q -> bounded q') /\
  (shutdown_ q = true -> shutdown_ q' = true).

Definition within (w w' : World Packet) : Prop :=
  settled (queue w) (queue w') /\
  (running w = false -> running w' = false).

(** Events that are neither a pop nor a Write. *)
Definition neutral (l : list (event Packet)) : Prop :=
  written l = [] /\ written_ok l = [] /\ popped_items l = [] /\
  forallb (fun e => negb (is_failed_write e)) l = true.

End Readers.

End Obs.

(* ===================================================================== *)
(** ** main.cpp: the command line *)
(* ===================================================================== *)

Module Cli.

Local Open Scope string_scope.

(** The three locals of main that the arguments set, lines 65-67. *)
Record Options : Type := mkOptions {
  vehicle : string;
  server : string;
  simulate : bool
}.

Definition defaults : Options := mkOptions "AV-001" "localhost:50051" true.

(** How the loop over the arguments ends: with the return of the --help
    branch, or by running off the arguments. *)
Inductive parsed : Type :=
| Usage
| Start (o : Options).

(** The loop of lines 69-82, from the value [i] of its variable; argc is the
    length of [argv].  A pass that takes a value advances [i] twice (the
    ++i of the assignment, then the ++i of the loop).  [fuel] bounds the
    number of passes. *)
Fixpoint parse_loop (fuel : nat) (argv : list string) (i : nat) (o : Options)
  : parsed :=
  match fuel with
  | O => Start o
  | S fuel' =>
      if (i <? length argv)%nat then
        let arg := nth i argv "" in
        if (arg =? "--vehicle") && (i + 1 <? length argv)%nat then
          parse_loop fuel' argv (i + 1 + 1)%nat
            (mkOptions (nth (i + 1)%nat argv "") (server o) (simulate o))
        else if (arg =? "--server") && (i + 1 <? length argv)%nat then
          parse_loop fuel' argv (i + 1 + 1)%nat
            (mkOptions (vehicle o) (nth (i + 1)%nat argv "") (simulate o))
        else if arg =? "--real" then
          parse_loop fuel' argv (i + 1)%nat
            (mkOptions (vehicle o) (server o) false)
        else if arg =? "--help" then Usage
        else parse_loop fuel' argv (i + 1)%nat o
      else Start o
  end.

(** The loop as main runs it: from i = 1, with the defaults. *)
Definition parse_args (argv : list string) : parsed :=
  parse_loop (length argv) argv 1 defaults.

(** What main prints before it starts a thread, line by line, and whether it
    goes on; lines 60-63, 78-80 and 84-86. *)
Definition banner : list string :=
  ["========================================";
   "  OmniStream Telemetry Agent v1.0";
   "  60Hz | C++17 | gRPC";
   "========================================"].

Definition usage : string :=
  "Usage: omnistream [--vehicle ID] [--server ADDR] [--real]".

Definition prologue (argv : list string) : list string * parsed :=
  match parse_args argv with
  | Usage => ((banner ++ [usage])%list, Usage)
  | Start o =>
      ((banner ++
        [("Vehicle: " ++ vehicle o)%string;
         ("Server:  " ++ server o)%string;
         ("Mode:    " ++ (if simulate o then "SIMULATE" else "LIVE"))%string;
         ""])%list,
       Start o)
  end.

(** A reading of the same loop as a recursion on the arguments still to be
    looked at (argv without argv[0]); [parse_args] is proved equal to it. *)
Fixpoint scan (o : Options) (args : list string) : parsed :=
  match args with
  | [] => Start o
  | arg :: rest =>
      if arg =? "--vehicle" then
        match rest with
        | v :: rest' => scan (mkOptions v (server o) (simulate o)) rest'
        | [] => Start o
        end
      else if arg =? "--server" then
        match rest with
        | v :: rest' => scan (mkOptions (vehicle o) v (simulate o)) rest'
        | [] => Start o
        end
      else if arg =? "--real" then
        scan (mkOptions (vehicle o) (server o) false) rest
      else if arg =? "--help" then Usage
      else scan o rest
  end.

(** Words that are none of the four options. *)
Definition is_option (arg : string) : bool :=
  (arg =? "--vehicle") || (arg =? "--server") || (arg =? "--real")
  || (arg =? "--help").

End Cli.

(* ===================================================================== *)
(** ** sensor_generator.hpp, with the buffer and the packet it fills *)
(* ===================================================================== *)

Module Gen.

Import Rt.

Section Generator.

(** float.  The arithmetic on it is left to four parameters, each the value
    of an expression of the source as a function of the integers it reads:
    - [lidar_point tick i n]: [dist] of lines 46-47, from tick_, i and
      lidar_points_;
    - [imu_reading tick]: the three accelerations of lines 55-59;
    - [drain b]: std::max(0.0f, b - 0.0001f), line 32;
    - [full]: 100.0f, and [zero], the value of an unset float field. *)
Variable F : Type.
Variable lidar_point : Z -> N -> N -> F.
Variable imu_reading : Z -> F * F * F.
Variable drain : F -> F.
Variable full : F.
Variable zero : F.

(** TelemetryPacket, as far as generate writes it. *)
Record TelemetryPacket : Type := mkPacket {
  vehicle_id : string;
  timestamp : Z;
  lidar_scan : list F;
  imu : option (F * F * F);
  battery_level : F
}.

(** std::make_unique<TelemetryPacket>() *)
Definition empty_packet : TelemetryPacket :=
  mkPacket EmptyString 0 [] None zero.

Record SensorGenerator : Type := mkGenerator {
  vehicle_id_ : string;
  lidar_points_ : N;
  tick_ : Z;
  battery_ : F;
  lidar_buffer_ : list F
}.

(** SensorGenerator(vehicle_id, lidar_points = 1024) *)
Definition new_generator (id : string) (lidar_points : N) : SensorGenerator :=
  mkGenerator id lidar_points 0 full [].

Definition default_lidar_points : N := 1024.

(** The loop of fill_lidar, lines 45-49, from the value [i] of its variable
    and the buffer so far. *)
Fixpoint lidar_loop (fuel : nat) (s : SensorGenerator) (i : N)
  (buffer : list F) : list F :=
  match fuel with
  | O => buffer
  | S fuel' =>
      if (i <? lidar_points_ s)%N then
        lidar_loop fuel' s (i + 1)%N
          (buffer ++ [lidar_point (tick_ s) i (lidar_points_ s)])
      else buffer
  end.

(** void fill_lidar(TelemetryPacket *pkt), lines 42-52 *)
Definition fill_lidar (s : SensorGenerator) (pkt : TelemetryPacket)
  : SensorGenerator * TelemetryPacket :=
  let buffer := lidar_loop (N.to_nat (lidar_points_ s)) s 0%N [] in
  (mkGenerator (vehicle_id_ s) (lidar_points_ s) (tick_ s) (battery_ s) buffer,
   mkPacket (vehicle_id pkt) (timestamp pkt) (lidar_scan pkt ++ buffer)
            (imu pkt) (battery_level pkt)).

(** void fill_imu(TelemetryPacket *pkt), lines 54-60 *)
Definition fill_imu (s : SensorGenerator) (pkt : TelemetryPacket)
  : TelemetryPacket :=
  mkPacket (vehicle_id pkt) (timestamp pkt) (lidar_scan pkt)
           (Some (imu_reading (tick_ s))) (battery_level pkt).

(** generate(), lines 23-37; [now] is what now_micros() returns, the
    reading of the system clock in microseconds. *)
Definition generate (s : SensorGenerator) (now : Z)
  : TelemetryPacket * SensorGenerator :=
  let p0 := empty_packet in
  let p1 := mkPacket (vehicle_id_ s) (timestamp p0) (lidar_scan p0) (imu p0)
                     (battery_level p0) in
  let p2 := mkPacket (vehicle_id p1) now (lidar_scan p1) (imu p1)
                     (battery_level p1) in
  let sp := fill_lidar s p2 in
  let p4 := fill_imu (fst sp) (snd sp) in
  let battery := drain (battery_ (fst sp)) in
  let p5 := mkPacket (vehicle_id p4) (timestamp p4) (lidar_scan p4) (imu p4)
                     battery in
  (p5,
   mkGenerator (vehicle_id_ (fst sp)) (lidar_points_ (fst sp))
               (u64 (tick_ (fst sp) + 1)) battery (lidar_buffer_ (fst sp))).

(** uint64_t tick() const *)
Definition tick (s : SensorGenerator) : Z := tick_ s.

(** [generate] called once for each clock reading in [nows]. *)
Fixpoint generate_all (s : SensorGenerator) (nows : list Z)
  : list TelemetryPacket * SensorGenerator :=
  match nows with
  | [] => ([], s)
  | now :: rest =>
      let ps := generate s now in
      let r := generate_all (snd ps) rest in
      (fst ps :: fst r, snd r)
  end.

End Generator.

End Gen.

(* ===================================================================== *)
(** * Runs of the consumer used as instances *)
(* ===================================================================== *)

Module Scenes.

Import Queue Rt Net Main.
Local Open Scope string_scope.

(** Two packets queued on an open queue of capacity 3; while the consumer
    runs, another thread pushes two more and then closes the queue. *)
Definition busy : World string :=
  mkWorld (mkQueue ["a"; "b"] 3 false) true
    [Me; Env (Push "c"); Me; Me; Env (Push "d"); Me; Me; Me; Me; Me; Me;
     Env (@Shutdown string); Me; Me]
    [] [].

Definition busy_end : World string :=
  Eval vm_compute in
    final (network_thread (G := Demo.link 0) "localhost:50051" true busy).

Definition busy_client : NetworkClient string (G := Demo.link 0) :=
  mkClient (G := Demo.link 0) "localhost:50051" None None false 4.

(** Sixty-one packets queued on a closed queue. *)
Definition long : World string :=
  mkWorld (mkQueue (repeat "p" 61) 100 true) true (repeat Me 130) [] [].

Definition long_end : World string :=
  Eval vm_compute in
    final (network_thread (G := Demo.link 0) "localhost:50051" true long).

Definition long_client : NetworkClient string (G := Demo.link 0) :=
  mkClient (G := Demo.link 0) "localhost:50051" None None false 61.

(** Live mode on [Demo.flowing] over a link that carries one write. *)
Definition live_end : World string :=
  Eval vm_compute in
    final (network_thread (G := Demo.link 1) "localhost:50051" false
             Demo.flowing).

(** The producer on an open queue that another thread closes during its
    second pass. *)
Definition closing : World string :=
  mkWorld (new_queue 1000) true
    [Me; Me; Me; Env (@Shutdown string); Me; Me]
    [0; 1000; 20000000; 20001000]%Z [].

Definition closing_end : World string :=
  Eval vm_compute in final (physics_thread Demo.label "AV-001" closing).

Definition closing_sensor : Sensor.SensorGenerator :=
  Sensor.mkSensor "AV-001" 2.

(** The producer on a queue that holds one packet, while another thread
    pops twice; then the signal. *)
Definition shared : World string :=
  mkWorld (mkQueue ["x"] 1000 false) true
    [Me; Me; Env (@Pop string); Me; Me; Env (@Pop string); Sig; Me]
    [0; 10; 20; 30]%Z [].

(** The consumer on a queue that holds one packet and that another thread
    closes after the consumer's first turn. *)
Definition late_close : World string :=
  mkWorld (mkQueue ["a"] 10 false) true
    [Me; Env (@Shutdown string); Me; Me; Me] [] [].

(** The producer on an open queue that another thread closes after the
    producer's first pass. *)
Definition shut_mid : World string :=
  mkWorld (new_queue 1000) true
    [Me; Me; Env (@Shutdown string); Me; Me; Me]
    [0; 10; 20]%Z [].

End Scenes.

(* ===================================================================== *)
(** ** Properties of the queue *)
(* ===================================================================== *)

Unset Implicit Arguments.

Module QueueFacts.

Import Queue.

Section Facts.

Variable T : Type.

Implicit Types (q : ThreadSafeQueue T) (h : list (op T)) (rs : list (ret T)).

Lemma q_empty_nil q : q_empty q = true <-> queue_ q = [].
Proof.
  unfold q_empty. destruct (queue_ q); split; intro H; try reflexivity;
    discriminate H.
Qed.

(** The two ways in which push returns. *)
Lemma push_returns q item b q' sigs :
  push q item = Returns b q' sigs ->
  (shutdown_ q = true /\ b = false /\ q' = q /\ sigs = []) \/
  (shutdown_ q = false /\ (q_size q < capacity_ q)%N /\ b = true /\
   q' = mkQueue (queue_ q ++ [item]) (capacity_ q) false /\
   sigs = [notify_one not_empty_]).
Proof.
  unfold push. destruct (shutdown_ q) eqn:Hs.
  - rewrite orb_true_r. intro H. inversion H. left. auto.
  - rewrite orb_false_r. destruct (q_size q <? capacity_ q)%N eqn:Hc.
    + intro H. inversion H. right. apply N.ltb_lt in Hc. auto.
    + discriminate.
Qed.

(** The two ways in which pop returns. *)
Lemma pop_returns q r q' sigs :
  pop q = Returns r q' sigs ->
  (shutdown_ q = true /\ queue_ q = [] /\ r = None /\ q' = q /\ sigs = []) \/
  (exists item rest, queue_ q = item :: rest /\ r = Some item /\
     q' = mkQueue rest (capacity_ q) (shutdown_ q) /\
     sigs = [notify_one not_full_]).
Proof.
  unfold pop, q_empty. destruct (queue_ q) as [|x rest] eqn:Hq;
    destruct (shutdown_ q) eqn:Hs; simpl; intro H; inversion H.
  - left. auto.
  - right. exists x, rest. auto.
  - right. exists x, rest. auto.
Qed.

(** front() is never reached on an empty queue. *)
Lemma pop_defined q : pop q <> Undefined.
Proof.
  unfold pop, q_empty. destruct (queue_ q); destruct (shutdown_ q); simpl;
    discriminate.
Qed.

Lemma pop_front q item rest :
  queue_ q = item :: rest ->
  pop q = Returns (Some item) (mkQueue rest (capacity_ q) (shutdown_ q))
            [notify_one not_full_].
Proof.
  intro Hq. unfold pop, q_empty. rewrite Hq. simpl.
  destruct (shutdown_ q); reflexivity.
Qed.

Lemma pop_closed_empty q :
  shutdown_ q = true -> queue_ q = [] -> pop q = Returns None q [].
Proof.
  intros Hs Hq. unfold pop, q_empty. rewrite Hq, Hs. reflexivity.
Qed.

Lemma push_closed q item :
  shutdown_ q = true -> push q item = Returns false q [].
Proof.
  intro Hs. unfold push. rewrite Hs, orb_true_r. reflexivity.
Qed.

(** One step of a history. *)
Lemma run_cons q o h rs q' :
  run q (o :: h) = Some (rs, q') ->
  exists r q1 sigs rs1,
    exec q o = Returns r q1 sigs /\ run q1 h = Some (rs1, q') /\ rs = r :: rs1.
Proof.
  simpl. destruct (exec q o) as [c|r q1 sigs|]; try discriminate.
  destruct (run q1 h) as [[rs1 q2]|] eqn:Hr; try discriminate.
  intro H. inversion H; subst. exists r, q1, sigs, rs1. auto.
Qed.

Lemma run_app q h1 h2 rs1 q1 rs2 q2 :
  run q h1 = Some (rs1, q1) -> run q1 h2 = Some (rs2, q2) ->
  run q (h1 ++ h2) = Some (rs1 ++ rs2, q2).
Proof.
  revert q rs1. induction h1 as [|o h1 IH]; intros q rs1 H1 H2.
  - simpl in H1. inversion H1; subst. exact H2.
  - apply run_cons in H1. destruct H1 as (r & q' & sigs & rs' & He & Hr & ->).
    simpl. rewrite He. rewrite (IH _ _ Hr H2). reflexivity.
Qed.

(** Popping as many times as there are items returns them front first, on an
    open queue as on a closed one. *)
Lemma pop_all q :
  run q (repeat Pop (length (queue_ q))) =
  Some (map (fun x => RPop (Some x)) (queue_ q),
        mkQueue [] (capacity_ q) (shutdown_ q)).
Proof.
  remember (queue_ q) as l eqn:Hl. revert q Hl.
  induction l as [|x l IH]; intros q Hl.
  - simpl. destruct q as [l' c s]. simpl in Hl. subst l'. reflexivity.
  - simpl. rewrite (pop_front q x l (eq_sym Hl)). simpl.
    rewrite (IH (mkQueue l (capacity_ q) (shutdown_ q)) eq_refl). reflexivity.
Qed.

Lemma accepted_cons o h r rs :
  accepted (o :: h) (r :: rs) = accepted [o] [r] ++ accepted h rs.
Proof.
  destruct o as [item| | |]; destruct r as [[|]|x| |n]; reflexivity.
Qed.

Lemma popped_cons (r : ret T) rs : popped (r :: rs) = popped [r] ++ popped rs.
Proof.
  destruct r as [b|[x|]| |n]; reflexivity.
Qed.

(** What one call does to the contents, the capacity and the flag. *)
Lemma exec_effect q o r q' sigs :
  exec q o = Returns r q' sigs ->
  capacity_ q' = capacity_ q /\
  (shutdown_ q = true -> shutdown_ q' = true /\ accepted [o] [r] = []) /\
  (is_shutdown o = false -> shutdown_ q' = shutdown_ q) /\
  (shutdown_ q' = false -> refused r = false /\ accepted [o] [r] = pushed [o]) /\
  queue_ q ++ accepted [o] [r] = popped [r] ++ queue_ q'.
Proof.
  destruct o as [item| | |]; simpl.
  - destruct (push q item) as [c|b q1 sigs1|] eqn:Hp; simpl; try discriminate.
    intro H. inversion H; subst.
    apply push_returns in Hp.
    destruct Hp as [(Hs & -> & -> & _)|(Hs & _ & -> & -> & _)]; simpl;
      rewrite ?app_nil_r, ?Hs; repeat split; auto; discriminate.
  - destruct (pop q) as [c|b q1 sigs1|] eqn:Hp; simpl; try discriminate.
    intro H. inversion H; subst.
    apply pop_returns in Hp.
    destruct Hp as [(Hs & Hq & -> & -> & _)|(x & rest & Hq & -> & -> & _)];
      simpl; rewrite ?Hq, ?app_nil_r, ?Hs; repeat split; auto; discriminate.
  - intro H. inversion H; subst. simpl. rewrite app_nil_r.
    repeat split; auto; discriminate.
  - intro H. inversion H; subst. simpl. rewrite app_nil_r.
    repeat split; auto.
Qed.

(** Nothing is made up and nothing is lost along a history: what was in the
    queue and what was accepted since is what was popped and what is left, in
    the same order. *)
Lemma run_conserves h : forall q rs q',
  run q h = Some (rs, q') ->
  capacity_ q' = capacity_ q /\
  queue_ q ++ accepted h rs = popped rs ++ queue_ q'.
Proof.
  induction h as [|o h IH]; intros q rs q' Hr.
  - simpl in Hr. inversion Hr; subst. simpl. rewrite app_nil_r. auto.
  - apply run_cons in Hr. destruct Hr as (r & q1 & sigs & rs1 & He & Hr & ->).
    apply exec_effect in He. destruct He as (Hc & _ & _ & _ & Hq).
    destruct (IH _ _ _ Hr) as (Hc' & Hq').
    split; [congruence|].
    rewrite accepted_cons, popped_cons, app_assoc, Hq, <- !app_assoc, Hq'.
    reflexivity.
Qed.

(** Once closed, closed for the rest of the history, and no push is accepted. *)
Lemma run_closed h : forall q rs q',
  run q h = Some (rs, q') -> shutdown_ q = true ->
  shutdown_ q' = true /\ accepted h rs = [].
Proof.
  induction h as [|o h IH]; intros q rs q' Hr Hs.
  - simpl in Hr. inversion Hr; subst. auto.
  - apply run_cons in Hr. destruct Hr as (r & q1 & sigs & rs1 & He & Hr & ->).
    apply exec_effect in He. destruct He as (_ & Hcl & _).
    destruct (Hcl Hs) as (Hs1 & Ha). destruct (IH _ _ _ Hr Hs1) as (Hs' & Ha').
    split; [exact Hs'|]. rewrite accepted_cons, Ha, Ha'. reflexivity.
Qed.

(** While nobody calls shutdown the queue stays open, every push is accepted
    and every pop gets an item. *)
Lemma run_open h : forall q rs q',
  run q h = Some (rs, q') -> shutdown_ q = false ->
  forallb (fun o => negb (is_shutdown o)) h = true ->
  shutdown_ q' = false /\
  forallb (fun r => negb (refused r)) rs = true /\
  accepted h rs = pushed h.
Proof.
  induction h as [|o h IH]; intros q rs q' Hr Hs Hn.
  - simpl in Hr. inversion Hr; subst. auto.
  - apply run_cons in Hr. destruct Hr as (r & q1 & sigs & rs1 & He & Hr & ->).
    simpl in Hn. apply andb_true_iff in Hn. destruct Hn as (Ho & Hn).
    apply negb_true_iff in Ho.
    apply exec_effect in He. destruct He as (_ & _ & Hk & Hop & _).
    specialize (Hk Ho). rewrite Hs in Hk.
    destruct (Hop Hk) as (Hr1 & Ha).
    destruct (IH _ _ _ Hr Hk Hn) as (Hs' & Hf & Ha').
    split; [exact Hs'|]. split.
    + simpl. rewrite Hr1, Hf. reflexivity.
    + rewrite accepted_cons, Ha, Ha'. destruct o; reflexivity.
Qed.

(** A history in which shutdown is called ends closed. *)
Lemma run_after_shutdown h : forall q rs q',
  run q h = Some (rs, q') -> In Shutdown h -> shutdown_ q' = true.
Proof.
  induction h as [|o h IH]; intros q rs q' Hr Hin.
  - destruct Hin.
  - apply run_cons in Hr. destruct Hr as (r & q1 & sigs & rs1 & He & Hr & ->).
    destruct Hin as [->|Hin].
    + simpl in He. inversion He; subst.
      apply (run_closed _ _ _ _ Hr). reflexivity.
    + apply (IH _ _ _ Hr Hin).
Qed.

Lemma bounded_exec q o r q' sigs :
  bounded q -> exec q o = Returns r q' sigs -> bounded q'.
Proof.
  unfold bounded, q_size. intros Hb He. destruct o as [item| | |]; simpl in He.
  - destruct (push q item) as [c|b q1 sigs1|] eqn:Hp; simpl in He;
      try discriminate.
    inversion He; subst. apply push_returns in Hp.
    destruct Hp as [(_ & _ & -> & _)|(_ & Hlt & _ & -> & _)]; simpl.
    + exact Hb.
    + unfold q_size in Hlt. rewrite length_app. simpl. lia.
  - destruct (pop q) as [c|b q1 sigs1|] eqn:Hp; simpl in He; try discriminate.
    inversion He; subst. apply pop_returns in Hp.
    destruct Hp as [(_ & _ & _ & -> & _)|(x & rest & Hq & _ & -> & _)]; simpl.
    + exact Hb.
    + rewrite Hq in Hb. simpl in Hb. lia.
  - inversion He; subst. exact Hb.
  - inversion He; subst. exact Hb.
Qed.

Lemma bounded_run h : forall q rs q',
  bounded q -> run q h = Some (rs, q') -> bounded q'.
Proof.
  induction h as [|o h IH]; intros q rs q' Hb Hr.
  - simpl in Hr. inversion Hr; subst. exact Hb.
  - apply run_cons in Hr. destruct Hr as (r & q1 & sigs & rs1 & He & Hr & ->).
    apply (IH _ _ _ (bounded_exec _ _ _ _ _ Hb He) Hr).
Qed.

(** A full open queue makes push wait; a full closed one makes it return
    false.  Either way nothing is appended. *)
Lemma push_full q item :
  (capacity_ q <= q_size q)%N ->
  push q item = if shutdown_ q then Returns false q [] else Waits not_full_.
Proof.
  intro Hf. unfold push. apply N.ltb_ge in Hf. rewrite Hf. simpl.
  destruct (shutdown_ q); reflexivity.
Qed.

(* --------------------------------------------------------------------- *)

(** C1 (FIFO order).  Take any history of calls on a freshly made queue in
    which nobody calls shutdown.  Every push in it was accepted and every pop
    in it got an item; the items popped so far, followed by the items still
    queued, are the items pushed, in push order; and popping once more for
    each item still queued returns these, front first, and empties the queue.
    So the N pops that follow N pushes return the N items in the order in
    which they were pushed, each once. *)
Theorem fifo_order (capacity : N) h rs q :
  run (new_queue capacity) h = Some (rs, q) ->
  forallb (fun o => negb (is_shutdown o)) h = true ->
  forallb (fun r => negb (refused r)) rs = true /\
  pushed h = popped rs ++ queue_ q /\
  run q (repeat Pop (length (queue_ q))) =
    Some (map (fun x => RPop (Some x)) (queue_ q), new_queue capacity).
Proof.
  intros Hr Hn.
  destruct (run_open _ _ _ _ Hr eq_refl Hn) as (Hs & Hf & Ha).
  destruct (run_conserves _ _ _ _ Hr) as (Hc & Hq).
  split; [exact Hf|]. split.
  - rewrite <- Ha. exact Hq.
  - rewrite pop_all, Hc, Hs. reflexivity.
Qed.

(** The plain case: N items pushed on a fresh queue that has room for them,
    then N pops. *)
Corollary fifo_push_then_pop (capacity : N) (items : list T) :
  (N.of_nat (length items) <= capacity)%N ->
  run (new_queue capacity)
      (map Push items ++ repeat Pop (length items)) =
  Some (map (fun _ => RPush true) items ++
        map (fun x => RPop (Some x)) items, new_queue capacity).
Proof.
  intro Hle.
  assert (Hpush : forall l (pre : list T),
             (N.of_nat (length (pre ++ l)) <= capacity)%N ->
             run (mkQueue pre capacity false) (map Push l) =
             Some (map (fun _ => RPush true) l,
                   mkQueue (pre ++ l) capacity false)).
  { induction l as [|x l IH]; intros pre Hl.
    - simpl. rewrite app_nil_r. reflexivity.
    - simpl. unfold push, q_size. simpl.
      rewrite length_app in Hl. simpl in Hl.
      replace (N.of_nat (length pre) <? capacity)%N with true
        by (symmetry; apply N.ltb_lt; lia).
      simpl. rewrite IH by (rewrite <- app_assoc; simpl;
                            rewrite length_app; simpl; lia).
      rewrite <- app_assoc. reflexivity. }
  apply run_app with (q1 := mkQueue items capacity false).
  - apply (Hpush items []). exact Hle.
  - apply (pop_all (mkQueue items capacity false)).
Qed.

(** C2 (drain before end of stream).  When shutdown is called on a queue that
    holds K items, the next K pops return these items front first and the
    pop after them returns nullopt; whatever else is called on the queue
    after the shutdown, the items popped and the items left are the K items
    in their order; and a pop that returns nullopt found the queue empty
    and closed, and left it as it was. *)
Theorem drain_before_end_of_stream q :
  run (shutdown q) (repeat Pop (length (queue_ q)) ++ [Pop]) =
    Some (map (fun x => RPop (Some x)) (queue_ q) ++ [RPop None],
          mkQueue [] (capacity_ q) true) /\
  (forall h rs q', run (shutdown q) h = Some (rs, q') ->
                   queue_ q = popped rs ++ queue_ q') /\
  (forall q0 q1 sigs, pop q0 = Returns None q1 sigs ->
                      queue_ q0 = [] /\ shutdown_ q0 = true /\ q1 = q0).
Proof.
  split; [|split].
  - apply run_app with (q1 := mkQueue [] (capacity_ q) true).
    + apply (pop_all (shutdown q)).
    + reflexivity.
  - intros h rs q' Hr.
    destruct (run_conserves _ _ _ _ Hr) as (_ & Hq).
    destruct (run_closed _ _ _ _ Hr eq_refl) as (_ & Ha).
    rewrite Ha, app_nil_r in Hq. exact Hq.
  - intros q0 q1 sigs Hp. apply pop_returns in Hp.
    destruct Hp as [(Hs & Hq & _ & Hq1 & _)|(x & rest & _ & Hx & _)].
    + auto.
    + discriminate Hx.
Qed.

(** C3 (push on a closed queue).  On a queue that has been shut down push
    returns false and leaves the queue as it is.  This includes the push
    that found the queue full and is waiting: shutdown notifies every thread
    parked where that push is parked, and when the push is evaluated again,
    after any calls of the other threads among which a shutdown, it returns
    false and leaves the queue as those calls left it. *)
Theorem push_refused_after_shutdown q item :
  (shutdown_ q = true -> push q item = Returns false q []) /\
  (forall c, push q item = Waits c ->
     In (notify_all c) shutdown_signals /\
     push (shutdown q) item = Returns false (shutdown q) [] /\
     forall h rs q', run q h = Some (rs, q') -> In Shutdown h ->
                     push q' item = Returns false q' []).
Proof.
  split.
  - apply push_closed.
  - intros c Hw. assert (Hc : c = not_full_).
    { unfold push in Hw.
      destruct ((q_size q <? capacity_ q)%N || shutdown_ q).
      - destruct (shutdown_ q); discriminate Hw.
      - inversion Hw. reflexivity. }
    subst c. split; [right; left; reflexivity|]. split.
    + apply push_closed. reflexivity.
    + intros h rs q' Hr Hin. apply push_closed.
      apply (run_after_shutdown _ _ _ _ Hr Hin).
Qed.

(** C4 (capacity bound).  A fresh queue is within its capacity; a call that
    returns on a queue within its capacity leaves it within the same
    capacity; push on a queue that holds as many items as its capacity
    appends nothing (it waits while the queue is open, and returns false
    without a change once it is closed); so after any history of calls on a
    fresh queue the length is at most the capacity it was made with. *)
Theorem capacity_bound (capacity : N) :
  bounded (new_queue (T := T) capacity) /\
  (forall q o r q' sigs,
     bounded q -> exec q o = Returns r q' sigs ->
     bounded q' /\ capacity_ q' = capacity_ q) /\
  (forall q item,
     q_size q = capacity_ q ->
     push q item = if shutdown_ q then Returns false q [] else Waits not_full_) /\
  (forall h rs q,
     run (new_queue capacity) h = Some (rs, q) ->
     (0 <= q_size q <= capacity)%N /\ capacity_ q = capacity).
Proof.
  assert (Hnew : bounded (new_queue (T := T) capacity)).
  { unfold bounded, q_size. simpl. lia. }
  split; [exact Hnew|]. split; [|split].
  - intros q o r q' sigs Hb He. split.
    + apply (bounded_exec _ _ _ _ _ Hb He).
    + apply exec_effect in He. tauto.
  - intros q item Hf. apply push_full. rewrite Hf. apply N.le_refl.
  - intros h rs q Hr.
    pose proof (bounded_run _ _ _ _ Hnew Hr) as Hb.
    destruct (run_conserves _ _ _ _ Hr) as (Hc & _). simpl in Hc.
    unfold bounded in Hb. rewrite Hc in Hb. split; [lia|exact Hc].
Qed.

(** C5 (shutdown is idempotent and one-shot).  A second shutdown leaves the
    queue as the first left it; and a closed queue stays closed whatever is
    called on it next: one call, or any history of calls. *)
Theorem shutdown_idempotent_one_shot q :
  shutdown (shutdown q) = shutdown q /\
  run q [Shutdown; Shutdown] =
    Some ([RShutdown; RShutdown], shutdown q) /\
  run q [Shutdown] = Some ([RShutdown], shutdown q) /\
  (forall q0 o r q' sigs,
     shutdown_ q0 = true -> exec q0 o = Returns r q' sigs ->
     shutdown_ q' = true) /\
  (forall h rs q', run (shutdown q) h = Some (rs, q') -> shutdown_ q' = true).
Proof.
  split; [reflexivity|]. split; [reflexivity|]. split; [reflexivity|]. split.
  - intros q0 o r q' sigs Hs He. apply exec_effect in He.
    destruct He as (_ & Hcl & _). apply (Hcl Hs).
  - intros h rs q' Hr. apply (run_closed _ _ _ _ Hr). reflexivity.
Qed.

(** C10 (frame of shutdown).  shutdown leaves the stored items, their order
    and the capacity as they were, for a queue in any state; all it does is
    set the flag.  What size reports, and the item a pop returns next, are
    therefore the same before and after. *)
Theorem shutdown_frame q :
  queue_ (shutdown q) = queue_ q /\
  capacity_ (shutdown q) = capacity_ q /\
  shutdown_ (shutdown q) = true /\
  size (shutdown q) = size q /\
  (forall r q' sigs, exec q Shutdown = Returns r q' sigs ->
     queue_ q' = queue_ q /\ capacity_ q' = capacity_ q) /\
  (forall item rest, queue_ q = item :: rest ->
     exists q1 q2 sigs,
       pop q = Returns (Some item) q1 sigs /\
       pop (shutdown q) = Returns (Some item) q2 sigs /\
       queue_ q1 = rest /\ queue_ q2 = rest).
Proof.
  repeat split.
  - simpl in H. inversion H; subst. reflexivity.
  - simpl in H. inversion H; subst. reflexivity.
  - intros item rest Hq.
    exists (mkQueue rest (capacity_ q) (shutdown_ q)),
           (mkQueue rest (capacity_ q) true), [notify_one not_full_].
    split; [apply (pop_front q _ _ Hq)|].
    split; [apply (pop_front (shutdown q) _ _ Hq)|]. auto.
Qed.

End Facts.

(** The happy path of the specification: capacity 4; A, B, C, D pushed; a pop
    returns A; E pushed; the four pops that follow return B, C, D, E. *)
Lemma fifo_order_happy_path :
  run (new_queue 4)
      [Push "A"; Push "B"; Push "C"; Push "D"; Pop; Push "E"]%string =
    Some ([RPush true; RPush true; RPush true; RPush true;
           RPop (Some "A"); RPush true]%string,
          mkQueue ["B"; "C"; "D"; "E"]%string 4 false) /\
  ["A"; "B"; "C"; "D"; "E"]%string =
    ["A"]%string ++ ["B"; "C"; "D"; "E"]%string /\
  run (mkQueue ["B"; "C"; "D"; "E"]%string 4 false) [Pop; Pop; Pop; Pop] =
    Some ([RPop (Some "B"); RPop (Some "C"); RPop (Some "D");
           RPop (Some "E")]%string, new_queue 4).
Proof.
  split; [reflexivity|].
  apply (fifo_order string 4
           [Push "A"; Push "B"; Push "C"; Push "D"; Pop; Push "E"]%string
           [RPush true; RPush true; RPush true; RPush true;
            RPop (Some "A"); RPush true]%string
           (mkQueue ["B"; "C"; "D"; "E"]%string 4 false));
    reflexivity.
Defined.

End QueueFacts.

(* ===================================================================== *)
(** ** Properties of a thread's calls on the shared queue *)
(* ===================================================================== *)

Module RtFacts.

Import Queue Rt.

Section Facts.

Variable Packet : Type.

Implicit Types (w : World Packet) (s : list (turn Packet)).

(** What a blocking call leaves behind.  If it completes, the call was found
    able to return at one of the thread's own turns, on the queue as it was
    then; it adds its one event and uses up at least one turn.  If it does not
    complete, no turn is left and the thread has done nothing. *)
Lemma call_at_spec (A : Type)
  (f : ThreadSafeQueue Packet -> outcome Packet A) (ev : A -> event Packet) :
  forall s w,
    match call_at f ev s w with
    | Done r w' =>
        trace w' = trace w ++ [ev r] /\ clock w' = clock w /\
        length (sched w') < length s /\
        exists q1 sigs, f q1 = Returns r (queue w') sigs
    | Pending w' =>
        trace w' = trace w /\ clock w' = clock w /\ sched w' = []
    | Fault w' =>
        trace w' = trace w /\ exists q1, f q1 = Undefined
    end.
Proof.
  induction s as [|t s IH]; intro w; simpl.
  - auto.
  - destruct t as [|o|].
    + destruct (f (queue w)) as [c|r q' sigs|] eqn:Hf.
      * specialize (IH (mkWorld (queue w) (running w) s (clock w) (trace w))).
        destruct (call_at f ev s _) as [r w'|w'|w']; simpl in IH.
        -- destruct IH as (Ht & Hc & Hl & Hq). repeat split; auto.
        -- exact IH.
        -- exact IH.
      * simpl. repeat split; auto. exists (queue w), sigs. exact Hf.
      * simpl. split; auto. exists (queue w). exact Hf.
    + specialize (IH (mkWorld (env_apply (queue w) o) (running w) s (clock w)
                              (trace w))).
      destruct (call_at f ev s _) as [r w'|w'|w']; simpl in IH.
      * destruct IH as (Ht & Hc & Hl & Hq). repeat split; auto.
      * exact IH.
      * exact IH.
    + specialize (IH (mkWorld (queue w) false s (clock w) (trace w))).
      destruct (call_at f ev s _) as [r w'|w'|w']; simpl in IH.
      * destruct IH as (Ht & Hc & Hl & Hq). repeat split; auto.
      * exact IH.
      * exact IH.
Qed.

Lemma q_pop_spec w :
  match q_pop w with
  | Done r w' =>
      trace w' = trace w ++ [EPop r] /\ clock w' = clock w /\
      length (sched w') < length (sched w)
  | Pending w' => trace w' = trace w /\ clock w' = clock w /\ sched w' = []
  | Fault _ => False
  end.
Proof.
  unfold q_pop, call.
  pose proof (call_at_spec _ (@pop Packet) (@EPop Packet) (sched w) w) as H.
  destruct (call_at _ _ _ _) as [r w'|w'|w'].
  - tauto.
  - exact H.
  - destruct H as (_ & q1 & Hq). exact (QueueFacts.pop_defined _ _ Hq).
Qed.

Lemma q_size_spec w :
  match q_size_call w with
  | Done n w' =>
      trace w' = trace w ++ [ESize n] /\ clock w' = clock w /\
      length (sched w') < length (sched w)
  | Pending w' => trace w' = trace w /\ clock w' = clock w /\ sched w' = []
  | Fault _ => False
  end.
Proof.
  unfold q_size_call, call.
  pose proof (call_at_spec _ (fun q => Returns (size q) q []) (@ESize Packet)
                (sched w) w) as H.
  destruct (call_at _ _ _ _) as [r w'|w'|w'].
  - tauto.
  - exact H.
  - destruct H as (_ & q1 & Hq). discriminate Hq.
Qed.

Lemma q_push_spec (p : Packet) w :
  match q_push p w with
  | Done ok w' =>
      trace w' = trace w ++ [EPush p ok] /\ clock w' = clock w /\
      length (sched w') < length (sched w) /\
      (shutdown_ (queue w') = true -> ok = false)
  | Pending w' => trace w' = trace w /\ clock w' = clock w /\ sched w' = []
  | Fault _ => False
  end.
Proof.
  unfold q_push, call.
  pose proof (call_at_spec _ (fun q => push q p) (EPush p) (sched w) w) as H.
  destruct (call_at _ _ _ _) as [r w'|w'|w'].
  - destruct H as (Ht & Hc & Hl & q1 & sigs & Hp). repeat split; auto.
    intro Hs. apply QueueFacts.push_returns in Hp.
    destruct Hp as [(_ & Hr & _)|(_ & _ & _ & Hq & _)]; [exact Hr|].
    rewrite Hq in Hs. discriminate Hs.
  - exact H.
  - destruct H as (_ & q1 & Hq). unfold push in Hq.
    destruct ((q_size q1 <? capacity_ q1)%N || shutdown_ q1);
      [destruct (shutdown_ q1)|]; discriminate Hq.
Qed.

Lemma load_at_spec : forall s w,
  match load_at s w with
  | Done _ w' =>
      trace w' = trace w /\ clock w' = clock w /\ length (sched w') < length s
  | Pending w' => trace w' = trace w /\ clock w' = clock w /\ sched w' = []
  | Fault _ => False
  end.
Proof.
  induction s as [|t s IH]; intro w; simpl.
  - auto.
  - destruct t as [|o|].
    + simpl. auto.
    + specialize (IH (mkWorld (env_apply (queue w) o) (running w) s (clock w)
                              (trace w))).
      destruct (load_at s _) as [r w'|w'|w']; simpl in IH; try tauto.
      destruct IH as (Ht & Hc & Hl). auto.
    + specialize (IH (mkWorld (queue w) false s (clock w) (trace w))).
      destruct (load_at s _) as [r w'|w'|w']; simpl in IH; try tauto.
      destruct IH as (Ht & Hc & Hl). auto.
Qed.

(** Where a blocking call takes effect: on the queue as the turns of the
    other threads have left it, at the turn at which the call returns. *)
Lemma call_at_env (A : Type)
  (f : ThreadSafeQueue Packet -> outcome Packet A) (ev : A -> event Packet) :
  forall s w r w',
    call_at f ev s w = Done r w' ->
    exists pre sigs,
      s = pre ++ Me :: sched w' /\
      f (env_run pre (queue w)) = Returns r (queue w') sigs.
Proof.
  induction s as [|t s IH]; intros w r w' H; simpl in H.
  - discriminate H.
  - destruct t as [|o|].
    + destruct (f (queue w)) as [c|r1 q' sigs|] eqn:Hf.
      * apply IH in H. destruct H as (pre & sigs & -> & Hq). simpl in Hq.
        exists (Me :: pre), sigs. split; [reflexivity|exact Hq].
      * inversion H; subst. simpl. exists [], sigs. split; [reflexivity|].
        exact Hf.
      * discriminate H.
    + apply IH in H. destruct H as (pre & sigs & -> & Hq). simpl in Hq.
      exists (Env o :: pre), sigs. split; [reflexivity|exact Hq].
    + apply IH in H. destruct H as (pre & sigs & -> & Hq). simpl in Hq.
      exists (Sig :: pre), sigs. split; [reflexivity|exact Hq].
Qed.

Lemma env_apply_closed (q : ThreadSafeQueue Packet) (o : op Packet) :
  shutdown_ q = true -> shutdown_ (env_apply q o) = true.
Proof.
  intro Hs. unfold env_apply.
  destruct (exec q o) as [c|r q' sigs|] eqn:He; try exact Hs.
  apply QueueFacts.exec_effect in He. destruct He as (_ & Hc & _).
  apply (Hc Hs).
Qed.

Lemma env_run_closed s : forall (q : ThreadSafeQueue Packet),
  shutdown_ q = true \/ In (Env Shutdown) s ->
  shutdown_ (env_run s q) = true.
Proof.
  induction s as [|t s IH]; intros q H; simpl.
  - destruct H as [H|[]]. exact H.
  - destruct t as [|o|].
    + apply IH. destruct H as [H|[H|H]]; [left; exact H|discriminate H|].
      right. exact H.
    + apply IH. destruct H as [H|[H|H]].
      * left. apply env_apply_closed. exact H.
      * inversion H; subst. left. reflexivity.
      * right. exact H.
    + apply IH. destruct H as [H|[H|H]]; [left; exact H|discriminate H|].
      right. exact H.
Qed.

(** A push of this thread that returns after the queue has been shut down,
    by whomever and however long the push has been waiting: it returns false
    and the queue is as the other threads have left it. *)
Lemma push_call_after_shutdown (p : Packet) w ok w' :
  q_push p w = Done ok w' ->
  exists pre,
    sched w = pre ++ Me :: sched w' /\
    (shutdown_ (queue w) = true \/ In (Env Shutdown) pre ->
     ok = false /\ queue w' = env_run pre (queue w)).
Proof.
  unfold q_push, call. intro H.
  apply call_at_env in H. destruct H as (pre & sigs & Hs & Hp).
  exists pre. split; [exact Hs|]. intro Hc.
  rewrite (QueueFacts.push_closed _ _ p (env_run_closed pre _ Hc)) in Hp.
  inversion Hp; subst. auto.
Qed.

(** A turn of this thread at which the call can return. *)
Lemma q_pop_turn w s' (x : Packet) rest :
  sched w = Me :: s' -> queue_ (queue w) = x :: rest ->
  q_pop w =
    Done (Some x)
      (mkWorld (mkQueue rest (capacity_ (queue w)) (shutdown_ (queue w)))
               (running w) s' (clock w) (trace w ++ [EPop (Some x)])).
Proof.
  intros Hs Hq. unfold q_pop, call. rewrite Hs. simpl.
  rewrite (QueueFacts.pop_front _ _ x rest Hq). reflexivity.
Qed.

Lemma q_pop_turn_end w s' :
  sched w = Me :: s' -> queue_ (queue w) = [] ->
  shutdown_ (queue w) = true ->
  q_pop w =
    Done None
      (mkWorld (queue w) (running w) s' (clock w) (trace w ++ [EPop None])).
Proof.
  intros Hs Hq Hc. unfold q_pop, call. rewrite Hs. simpl.
  rewrite (QueueFacts.pop_closed_empty _ _ Hc Hq). reflexivity.
Qed.

Lemma q_size_turn w s' :
  sched w = Me :: s' ->
  q_size_call w =
    Done (size (queue w))
      (mkWorld (queue w) (running w) s' (clock w)
               (trace w ++ [ESize (size (queue w))])).
Proof.
  intro Hs. unfold q_size_call, call. rewrite Hs. reflexivity.
Qed.

End Facts.

(** The scenario with a push blocked at shutdown: capacity 1, A queued, the
    push of B finds the queue full and waits; shutdown is called; the push
    returns false, B is not queued; the pops return A and then nullopt. *)
Example shutdown_during_blocked_push :
  q_push "B"%string
    (mkWorld (mkQueue ["A"%string] 1 false) true
             [Me; Env Shutdown; Me; Me; Me] [] []) =
    Done false
      (mkWorld (mkQueue ["A"%string] 1 true) true [Me; Me] []
               [EPush "B"%string false]) /\
  run (mkQueue ["A"%string] 1 true) [Pop; Pop] =
    Some ([RPop (Some "A"%string); RPop None], mkQueue [] 1 true).
Proof. split; reflexivity. Qed.

(** The scenario with backpressure: capacity 1, A queued, the push of B
    waits; another thread pops A; the push of B returns true, and B is what
    the next pop returns. *)
Example backpressure_then_drain :
  q_push "B"%string
    (mkWorld (mkQueue ["A"%string] 1 false) true [Me; Env Pop; Me] [] []) =
    Done true
      (mkWorld (mkQueue ["B"%string] 1 false) true [] []
               [EPush "B"%string true]) /\
  pop (mkQueue ["B"%string] 1 false) =
    Returns (Some "B"%string) (mkQueue [] 1 false) [notify_one not_full_].
Proof. split; reflexivity. Qed.

End RtFacts.

(* ===================================================================== *)
(** ** Properties of the consumer *)
(* ===================================================================== *)

Module NetFacts.

Import Queue Rt Net.

Section Facts.

Variable Packet : Type.
Context {G : Grpc Packet}.

Implicit Types (w : World Packet) (c : NetworkClient Packet).

Lemma events_since_app w (tr evs : list (event Packet)) :
  tr = trace w ++ evs -> skipn (length (trace w)) tr = evs.
Proof.
  intros ->. rewrite skipn_app, skipn_all, Nat.sub_diag. reflexivity.
Qed.

Lemma count_app (f : event Packet -> bool) (a b : list (event Packet)) :
  count f (a ++ b) = (count f a + count f b)%nat.
Proof.
  unfold count. rewrite filter_app, length_app. reflexivity.
Qed.

Lemma u64_succ (a : Z) (n : nat) :
  u64 (u64 (a + 1) + Z.of_nat n) = u64 (a + Z.of_nat (S n)).
Proof.
  unfold u64. rewrite Zplus_mod_idemp_l. f_equal. lia.
Qed.

(** log_progress counts one more packet and prints at most one line. *)
Lemma log_progress_spec c (n : N) w :
  exists evs,
    log_progress c n w =
      Done (mkClient (address_ c) (channel_ c) (stub_ c) (connected_ c)
                     (u64 (sent_ c + 1)))
           (mkWorld (queue w) (running w) (sched w) (clock w)
                    (trace w ++ evs)) /\
    forallb (fun e => negb (is_transport e)) evs = true /\
    count (@is_item_popped Packet) evs = 0%nat /\
    written evs = [] /\
    forallb (fun e => negb (is_push_event e)) evs = true.
Proof.
  unfold log_progress. simpl.
  destruct (u64 (sent_ c + 1) mod 60 =? 0)%Z.
  - eexists. split; [reflexivity|]. repeat split.
  - exists []. rewrite app_nil_r. destruct w. repeat split.
Qed.

Lemma u64_idem (a : Z) : u64 (u64 a) = u64 a.
Proof. unfold u64. apply Zmod_mod. Qed.

Lemma forallb_app_true (A : Type) (f : A -> bool) (a b : list A) :
  forallb f a = true -> forallb f b = true -> forallb f (a ++ b) = true.
Proof. intros Ha Hb. rewrite forallb_app, Ha, Hb. reflexivity. Qed.

(** The loop of simulate: whether it has ended or is still under way, it
    has made no call on the transport; when it has ended, the counter has
    advanced by the number of items popped. *)
Lemma simulate_loop_spec : forall fuel c w,
  u64 (sent_ c) = sent_ c ->
  match simulate_loop fuel c w with
  | Done c' w' =>
      exists evs, trace w' = trace w ++ evs /\
        forallb (fun e => negb (is_transport e)) evs = true /\
        sent_ c' = u64 (sent_ c + Z.of_nat (count (@is_item_popped _) evs))
  | Pending w' =>
      exists evs, trace w' = trace w ++ evs /\
        forallb (fun e => negb (is_transport e)) evs = true /\
        (length (sched w) < fuel -> sched w' = [])
  | Fault _ => False
  end.
Proof.
  induction fuel as [|fuel IH]; intros c w Hc.
  - simpl. exists []. rewrite app_nil_r. repeat split. intro H. inversion H.
  - cbn [simulate_loop]. unfold bind at 1.
    pose proof (RtFacts.q_pop_spec _ w) as Hp.
    destruct (q_pop w) as [[p|] w1|w1|w1].
    + destruct Hp as (Ht1 & _ & Hl1).
      unfold bind at 1. pose proof (RtFacts.q_size_spec _ w1) as Hz.
      destruct (q_size_call w1) as [n w2|w2|w2].
      * destruct Hz as (Ht2 & _ & Hl2).
        unfold bind at 1.
        destruct (log_progress_spec c n w2) as (evs & -> & Hev & Hpop & _).
        match goal with |- context [simulate_loop fuel ?c2 ?w3] =>
          specialize (IH c2 w3); destruct (simulate_loop fuel c2 w3)
            as [c' w'|w'|w'] end; simpl in IH;
          specialize (IH (u64_idem _)).
        -- destruct IH as (evs' & Ht & Hev' & Hs).
           exists ([EPop (Some p); ESize n] ++ evs ++ evs'). split; [|split].
           ++ rewrite Ht, Ht2, Ht1, <- !app_assoc. reflexivity.
           ++ simpl. apply forallb_app_true; assumption.
           ++ rewrite Hs, !count_app, Hpop. simpl. apply u64_succ.
        -- destruct IH as (evs' & Ht & Hev' & Hs).
           exists ([EPop (Some p); ESize n] ++ evs ++ evs'). split; [|split].
           ++ rewrite Ht, Ht2, Ht1, <- !app_assoc. reflexivity.
           ++ simpl. apply forallb_app_true; assumption.
           ++ intro Hlt. apply Hs. lia.
        -- exact IH.
      * destruct Hz as (Ht2 & _ & Hs2).
        exists [EPop (Some p)]. rewrite Ht2, Ht1. repeat split. auto.
      * exact Hz.
    + destruct Hp as (Ht1 & _ & _). simpl.
      exists [EPop None]. repeat split; auto.
      unfold count. simpl. rewrite Z.add_0_r. symmetry. exact Hc.
    + destruct Hp as (Ht1 & _ & Hs1). exists []. rewrite app_nil_r. auto.
    + exact Hp.
Qed.

Lemma u64_small (a : Z) : (0 <= a < 2 ^ 64)%Z -> u64 a = a.
Proof. intro H. unfold u64. apply Z.mod_small. exact H. Qed.

(** simulate, from its first line to its last. *)
Lemma simulate_spec c w :
  u64 (sent_ c) = sent_ c ->
  match simulate c w with
  | Done c' w' =>
      exists evs, trace w' = trace w ++ evs /\
        forallb (fun e => negb (is_transport e)) evs = true /\
        sent_ c' = u64 (sent_ c + Z.of_nat (count (@is_item_popped _) evs))
  | Pending w' =>
      exists evs, trace w' = trace w ++ evs /\
        forallb (fun e => negb (is_transport e)) evs = true /\
        sched w' = []
  | Fault _ => False
  end.
Proof.
  intro Hc. unfold simulate, bind, print, emit, ret.
  match goal with |- context [simulate_loop ?f c ?w0] =>
    pose proof (simulate_loop_spec f c w0 Hc) as H;
    destruct (simulate_loop f c w0) as [c' w'|w'|w'] end; simpl in H.
  - destruct H as (evs & Ht & Hev & Hs). simpl in Ht. simpl.
    exists ([EPrint "[Network] Running in simulation mode"%string] ++ evs ++
            [EPrint ("[Network] Simulation done. Packets: "
                     ++ dec (sent_ c'))%string]).
    split; [rewrite Ht, <- !app_assoc; reflexivity|]. split.
    + apply forallb_app_true; [reflexivity|].
      apply forallb_app_true; [exact Hev|reflexivity].
    + rewrite Hs. do 2 f_equal. rewrite !count_app. unfold count. simpl. lia.
  - destruct H as (evs & Ht & Hev & Hs). simpl in Ht.
    exists ([EPrint "[Network] Running in simulation mode"%string] ++ evs).
    split; [rewrite Ht, <- !app_assoc; reflexivity|]. split.
    + apply forallb_app_true; [reflexivity|exact Hev].
    + apply Hs. simpl. lia.
  - exact H.
Qed.

(** simulate returns: on a closed queue, given as many turns as it has
    calls to make, its loop pops every item that is left and ends. *)
Lemma simulate_loop_drains : forall (items : list Packet) fuel c w n,
  queue_ (queue w) = items -> shutdown_ (queue w) = true ->
  sched w = repeat Me n -> 2 * length items + 1 <= n ->
  length items < fuel ->
  exists c' w' evs,
    simulate_loop fuel c w = Done c' w' /\
    trace w' = trace w ++ evs /\
    count (@is_item_popped _) evs = length items /\
    queue_ (queue w') = [].
Proof.
  induction items as [|x items IH]; intros fuel c w n Hq Hc Hs Hn Hf.
  - destruct fuel as [|fuel]; [inversion Hf|].
    destruct n as [|n]; [inversion Hn|]. simpl in Hs.
    cbn [simulate_loop]. unfold bind at 1.
    rewrite (RtFacts.q_pop_turn_end _ w _ Hs Hq Hc).
    eexists. eexists. exists [EPop None].
    split; [reflexivity|]. simpl. auto.
  - destruct fuel as [|fuel]; [inversion Hf|].
    destruct n as [|[|n]]; [simpl in Hn; lia|simpl in Hn; lia|].
    simpl in Hs, Hn.
    cbn [simulate_loop]. unfold bind at 1.
    rewrite (RtFacts.q_pop_turn _ w _ x items Hs Hq).
    unfold bind at 1.
    match goal with |- context [q_size_call ?w1] =>
      rewrite (RtFacts.q_size_turn _ w1 (repeat Me n) eq_refl) end.
    unfold bind at 1.
    match goal with |- context [log_progress c ?k ?w2] =>
      destruct (log_progress_spec c k w2) as (evs & -> & _ & Hpop & _) end.
    simpl in Hf.
    match goal with |- context [simulate_loop fuel ?c2 ?w3] =>
      destruct (IH fuel c2 w3 n eq_refl Hc eq_refl ltac:(lia) ltac:(lia))
        as (c' & w' & evs' & Hr & Ht & Hcnt & He)
    end.
    exists c', w', ([EPop (Some x); ESize (size
              (mkQueue items (capacity_ (queue w)) (shutdown_ (queue w))))]
              ++ evs ++ evs').
    split; [exact Hr|]. split; [|split; [|exact He]].
    + rewrite Ht. simpl. rewrite <- !app_assoc. reflexivity.
    + rewrite !count_app, Hpop, Hcnt. reflexivity.
Qed.

Lemma simulate_returns c w n :
  shutdown_ (queue w) = true -> sched w = repeat Me n ->
  2 * length (queue_ (queue w)) + 1 <= n ->
  exists c' w',
    simulate c w = Done c' w' /\
    count (@is_item_popped _) (events_since w w') =
      length (queue_ (queue w)) /\
    queue_ (queue w') = [].
Proof.
  intros Hc Hs Hn. unfold simulate, bind, print, emit, ret.
  assert (Hf : length (queue_ (queue w)) < S (length (sched w)))
    by (rewrite Hs, repeat_length; lia).
  match goal with |- context [simulate_loop ?f c ?w0] =>
    destruct (simulate_loop_drains (queue_ (queue w)) f c w0 n
                eq_refl Hc Hs Hn Hf)
      as (c' & w' & evs & Hr & Ht & Hcnt & He) end.
  rewrite Hr. eexists. eexists. split; [reflexivity|].
  split; [|exact He].
  unfold events_since. cbn [trace] in *. rewrite Ht, <- !app_assoc.
  rewrite (events_since_app w _ _ eq_refl).
  rewrite !count_app, Hcnt. unfold count. simpl. lia.
Qed.

Lemma written_app (a b : list (event Packet)) :
  written (a ++ b) = written a ++ written b.
Proof.
  induction a as [|e a IH]; [reflexivity|].
  destruct e; simpl; rewrite IH; reflexivity.
Qed.

(** One pass of the loop of stream in which Write returns false: the pass
    is the last one.  The loop returns with the counter as it was, and the
    world is the one the pop left, with the one Write event added: no second
    Write, and no call on the queue that could put the packet back. *)
Lemma stream_loop_write_fails fuel (wr : Writer) c w (p : Packet) w1 :
  q_pop w = Done (Some p) w1 ->
  fst (Write wr p) = false ->
  stream_loop (S fuel) wr c w =
    Done (snd (Write wr p), c)
         (mkWorld (queue w1) (running w1) (sched w1) (clock w1)
                  (trace w1 ++ [EWrite p false])).
Proof.
  intros Hp Hw. cbn [stream_loop]. unfold bind at 1. rewrite Hp.
  unfold bind at 1, write, bind, emit, ret. rewrite Hw. reflexivity.
Qed.

Lemma written_nil_ok (evs : list (event Packet)) :
  written evs = [] ->
  forallb (fun e => negb (is_failed_write e)) evs = true /\
  count (@is_ok_write _) evs = 0%nat.
Proof.
  unfold count. induction evs as [|e evs IH]; [auto|].
  destruct e; simpl; try discriminate; exact IH.
Qed.

(** The loop of stream.  While it is under way every Write so far has
    succeeded, and it is under way only because no turn is left.  When it
    has ended, either pop returned nullopt and every Write had succeeded, or
    the last two events are a pop and the failed Write of the packet popped,
    the only failed Write there is. *)
Lemma stream_loop_spec : forall fuel (wr : Writer) c w,
  u64 (sent_ c) = sent_ c ->
  match stream_loop fuel wr c w with
  | Done r w' =>
      exists evs, trace w' = trace w ++ evs /\
        fst r = writer_after wr (written evs) /\
        sent_ (snd r) =
          u64 (sent_ c + Z.of_nat (count (@is_ok_write _) evs)) /\
        forallb (fun e => negb (is_push_event e)) evs = true /\
        (forallb (fun e => negb (is_failed_write e)) evs = true \/
         exists pre p,
           evs = pre ++ [EPop (Some p); EWrite p false] /\
           forallb (fun e => negb (is_failed_write e)) pre = true)
  | Pending w' =>
      exists evs, trace w' = trace w ++ evs /\
        forallb (fun e => negb (is_failed_write e)) evs = true /\
        (length (sched w) < fuel -> sched w' = [])
  | Fault _ => False
  end.
Proof.
  induction fuel as [|fuel IH]; intros wr c w Hc.
  - simpl. exists []. rewrite app_nil_r. repeat split. intro H. inversion H.
  - cbn [stream_loop]. unfold bind at 1.
    pose proof (RtFacts.q_pop_spec _ w) as Hp.
    destruct (q_pop w) as [[p|] w1|w1|w1].
    + destruct Hp as (Ht1 & _ & Hl1).
      unfold bind at 1, write, bind at 1, emit, ret.
      destruct (Write wr p) as [ok wr1] eqn:Hw.
      destruct ok; cbn [fst snd negb]; cbv beta.
      * unfold bind at 1.
        match goal with |- context [q_size_call ?w2] =>
          pose proof (RtFacts.q_size_spec _ w2) as Hz;
          destruct (q_size_call w2) as [n w3|w3|w3] end; simpl in Hz.
        -- destruct Hz as (Ht3 & _ & Hl3). unfold bind at 1.
           destruct (log_progress_spec c n w3)
             as (evs & -> & _ & _ & Hwr & Hpu).
           destruct (written_nil_ok evs Hwr) as (Hok0 & Hcnt0).
           match goal with |- context [stream_loop fuel wr1 ?c2 ?w4] =>
             specialize (IH wr1 c2 w4 (u64_idem _));
             destruct (stream_loop fuel wr1 c2 w4) as [r w'|w'|w'] end;
             simpl in IH.
           ++ destruct IH as (evs' & Ht & Hwa & Hs & Hpu' & Hend).
              exists ([EPop (Some p); EWrite p true; ESize n] ++ evs ++ evs').
              split; [rewrite Ht, Ht3, Ht1, <- !app_assoc; reflexivity|].
              split; [|split; [|split]].
              ** rewrite Hwa, !written_app, Hwr. simpl.
                 unfold writer_after at 2. simpl. rewrite Hw. reflexivity.
              ** rewrite Hs, !count_app, Hcnt0.
                 simpl. unfold count at 2. simpl.
                 rewrite u64_succ. reflexivity.
              ** simpl. apply forallb_app_true; assumption.
              ** destruct Hend as [Hok|(pre & p' & -> & Hok)].
                 --- left. simpl. apply forallb_app_true; assumption.
                 --- right.
                     exists ([EPop (Some p); EWrite p true; ESize n] ++ evs
                             ++ pre), p'.
                     split; [rewrite <- !app_assoc; reflexivity|].
                     simpl. apply forallb_app_true; assumption.
           ++ destruct IH as (evs' & Ht & Hok & Hs).
              exists ([EPop (Some p); EWrite p true; ESize n] ++ evs ++ evs').
              split; [rewrite Ht, Ht3, Ht1, <- !app_assoc; reflexivity|].
              split; [simpl; apply forallb_app_true; assumption|].
              intro Hlt. apply Hs. simpl in Hl3. lia.
           ++ exact IH.
        -- destruct Hz as (Ht3 & _ & Hs3). simpl in Ht3.
           exists [EPop (Some p); EWrite p true].
           rewrite Ht3, Ht1, <- app_assoc. auto.
        -- exact Hz.
      * simpl. exists [EPop (Some p); EWrite p false].
        split; [rewrite Ht1, <- app_assoc; reflexivity|].
        split; [unfold writer_after; simpl; rewrite Hw; reflexivity|].
        split; [unfold count; simpl; rewrite Z.add_0_r; symmetry; exact Hc|].
        split; [reflexivity|].
        right. exists [], p. auto.
    + destruct Hp as (Ht1 & _ & _). simpl.
      exists [EPop None]. split; [exact Ht1|].
      split; [reflexivity|].
      split; [unfold count; simpl; rewrite Z.add_0_r; symmetry; exact Hc|].
      auto.
    + destruct Hp as (Ht1 & _ & Hs1). exists []. rewrite app_nil_r. auto.
    + exact Hp.
Qed.

Lemma count_ok_failed (pre : list (event Packet)) (p : Packet) :
  count (@is_ok_write _) (pre ++ [EPop (Some p); EWrite p false]) =
  count (@is_ok_write _) pre.
Proof. rewrite count_app. unfold count at 2. simpl. lia. Qed.

(** stream on a connected client, from the opening of the stream to the
    line printed after Finish. *)
Lemma stream_spec c (stub : Stub) w :
  connected_ c = true -> stub_ c = Some stub ->
  u64 (sent_ c) = sent_ c ->
  match stream c w with
  | Done c' w' =>
      exists evs st,
        trace w' =
          trace w ++ evs ++
          [EWritesDone; EFinish st;
           EPrint ("[Network] Stream closed: " ++ error_message st)%string] /\
        st = fst (Finish (snd (WritesDone
                    (writer_after (StreamTelemetry stub) (written evs))))) /\
        sent_ c' = u64 (sent_ c + Z.of_nat (count (@is_ok_write _) evs)) /\
        forallb (fun e => negb (is_push_event e)) evs = true /\
        (forallb (fun e => negb (is_failed_write e)) evs = true \/
         exists pre p,
           evs = pre ++ [EPop (Some p); EWrite p false] /\
           forallb (fun e => negb (is_failed_write e)) pre = true)
  | Pending w' =>
      exists evs, trace w' = trace w ++ evs /\
        forallb (fun e => negb (is_failed_write e)) evs = true /\
        sched w' = []
  | Fault _ => False
  end.
Proof.
  intros Hconn Hstub Hc.
  unfold stream. rewrite Hconn, Hstub. cbn [negb]. cbv zeta.
  unfold bind at 1. cbv beta.
  pose proof (stream_loop_spec (S (length (sched w))) (StreamTelemetry stub)
                c w Hc) as H.
  destruct (stream_loop _ _ c w) as [[wr' c1] w1|w1|w1]; simpl in H.
  - destruct H as (evs & Ht & Hwr & Hs & Hpu & Hend).
    unfold bind, emit, print, emit, ret. simpl.
    exists evs. eexists. split; [|split; [|split; [|split]]].
    + rewrite Ht, <- !app_assoc. reflexivity.
    + rewrite Hwr. reflexivity.
    + exact Hs.
    + exact Hpu.
    + exact Hend.
  - destruct H as (evs & Ht & Hok & Hs). exists evs. repeat split; auto.
  - exact H.
Qed.

(** C8 (a failed Write ends the stream).  In Live mode, on a connected
    client:
    - a pass of the loop in which Write returns false is the last one: the
      loop returns at once, with the counter as it was and the queue as the
      pop left it;
    - if stream returns and some Write has failed, then what the thread
      did ends with: the pop of a packet, the failed Write of that packet,
      WritesDone, Finish, and the printed line that carries the message of
      the status Finish returned.  No Write before that one failed, the
      thread called push nowhere, and the counter has advanced by the number
      of Writes that succeeded: the packet of the failed Write is not
      counted, not written again and not put back;
    - as long as stream has not returned, no Write has failed, and it has
      not returned only because the thread has had no further turn: after
      a failed Write it does not go back to wait on the queue;
    - stream does not run into undefined behaviour. *)
Theorem write_failure_stops_stream c (stub : Stub) w :
  connected_ c = true -> stub_ c = Some stub ->
  (0 <= sent_ c < 2 ^ 64)%Z ->
  (forall fuel (wr : Writer) c0 w0 (p : Packet) w1,
     q_pop w0 = Done (Some p) w1 -> fst (Write wr p) = false ->
     stream_loop (S fuel) wr c0 w0 =
       Done (snd (Write wr p), c0)
            (mkWorld (queue w1) (running w1) (sched w1) (clock w1)
                     (trace w1 ++ [EWrite p false]))) /\
  (forall c' w',
     stream c w = Done c' w' ->
     forallb (fun e => negb (is_failed_write e)) (events_since w w') = false ->
     exists pre p st,
       events_since w w' =
         pre ++ [EPop (Some p); EWrite p false; EWritesDone; EFinish st;
                 EPrint ("[Network] Stream closed: "
                         ++ error_message st)%string] /\
       forallb (fun e => negb (is_failed_write e)) pre = true /\
       forallb (fun e => negb (is_push_event e)) pre = true /\
       st = fst (Finish (snd (WritesDone
                   (writer_after (StreamTelemetry stub)
                                 (written pre ++ [p]))))) /\
       sent c' = u64 (sent_ c + Z.of_nat (count (@is_ok_write _) pre))) /\
  (forall w',
     stream c w = Pending w' ->
     forallb (fun e => negb (is_failed_write e)) (events_since w w') = true /\
     sched w' = []) /\
  (forall w', stream c w <> Fault w').
Proof.
  intros Hconn Hstub Hrange.
  split; [intros; apply stream_loop_write_fails; assumption|].
  pose proof (stream_spec c stub w Hconn Hstub (u64_small _ Hrange)) as H.
  destruct (stream c w) as [c1 w1|w1|w1].
  - destruct H as (evs & st & Ht & Hst & Hs & Hpu & Hend).
    split; [|split; repeat intro; discriminate].
    intros c' w' Heq Hfail. inversion Heq; subst c' w'. clear Heq.
    unfold events_since in *.
    rewrite (events_since_app w _ _ Ht) in *.
    destruct Hend as [Hok|(pre & p & -> & Hok)].
    + rewrite forallb_app, Hok in Hfail. discriminate Hfail.
    + exists pre, p, st. split; [|split; [exact Hok|split; [|split]]].
      * rewrite <- !app_assoc. reflexivity.
      * rewrite forallb_app in Hpu. apply andb_true_iff in Hpu. tauto.
      * rewrite Hst, written_app. reflexivity.
      * unfold sent. rewrite Hs, count_ok_failed. reflexivity.
  - destruct H as (evs & Ht & Hok & Hs).
    split; [repeat intro; discriminate|].
    split; [|repeat intro; discriminate].
    intros w' Heq. inversion Heq; subst w'.
    unfold events_since. rewrite (events_since_app w _ _ Ht). auto.
  - destruct H.
Qed.

(** C9 (connect reports success).  Whatever the address, whatever the gRPC
    library does with it and whatever the state of the rest of the program,
    connect returns true, having stored the channel made for the address and
    the stub made on it, set [connected_] and printed its line.  It makes no
    call on the stream and none on the queue: nothing that could tell whether
    the server is there. *)
Theorem connect_always_true (address : string) c w :
  connect c w =
    Done (true,
          mkClient (address_ c)
                   (Some (CreateChannel (address_ c)))
                   (Some (NewStub (CreateChannel (address_ c))))
                   true (sent_ c))
         (mkWorld (queue w) (running w) (sched w) (clock w)
                  (trace w ++
                   [EPrint ("[Network] Connected to " ++ address_ c)%string])) /\
  exists c' w',
    connect (new_client address) w = Done (true, c') w' /\
    connected_ c' = true /\
    channel_ c' = Some (CreateChannel address) /\
    stub_ c' = Some (NewStub (CreateChannel address)) /\
    forallb (fun e => negb (is_transport e)) (events_since w w') = true /\
    queue w' = queue w /\ sched w' = sched w.
Proof.
  split; [reflexivity|].
  eexists. eexists. split; [reflexivity|]. simpl. repeat split.
  unfold events_since. simpl.
  rewrite skipn_app, skipn_all, Nat.sub_diag. reflexivity.
Qed.

End Facts.

End NetFacts.

(* ===================================================================== *)
(** ** Properties of the two threads of main.cpp *)
(* ===================================================================== *)

Module MainFacts.

Import Queue Rt Net Sensor Main.

Section Facts.

Variable Packet : Type.
Context {G : Grpc Packet}.

Implicit Types (w : World Packet) (c : NetworkClient Packet).

(** With NetworkClient::connect as it is, Live mode always goes on to
    stream: the last branch of network_thread is never taken. *)
Lemma live_mode_always_streams (server : string) w :
  network_thread server false w =
    bind (stream (mkClient server (Some (CreateChannel server))
                    (Some (NewStub (CreateChannel server))) true 0%Z))
         (fun c => bind (print ("[Network] Sent " ++ dec (sent c)
                                ++ " packets")%string)
                        (fun _ => ret c))
         (mkWorld (queue w) (running w) (sched w) (clock w)
                  (trace w ++
                   [EPrint ("[Network] Connected to " ++ server)%string])).
Proof. reflexivity. Qed.

(** The last branch of network_thread, lines 52-54, for a callee of line 50
    that returns false, having counted nothing as sent: the thread goes on
    exactly as Simulate mode does from there; and when it has returned, it
    has made no call on the transport since (no Write, no WritesDone, no
    Finish), and the count it reports is the number of items it has
    popped. *)
Lemma fallback_branch_is_simulate
  (connect_op : NetworkClient Packet -> M Packet (bool * NetworkClient Packet))
  (server : string) w c1 w1 c' w' :
  connect_op (new_client server) w = Done (false, c1) w1 ->
  sent_ c1 = 0%Z ->
  network_thread_via connect_op server false w = Done c' w' ->
  (Z.of_nat (count (@is_item_popped _) (events_since w1 w')) < 2 ^ 64)%Z ->
  network_thread_via connect_op server false w =
    bind (simulate c1)
         (fun c => bind (print ("[Network] Sent " ++ dec (sent c)
                                ++ " packets")%string)
                        (fun _ => ret c)) w1 /\
  forallb (fun e => negb (is_transport e)) (events_since w1 w') = true /\
  sent c' = Z.of_nat (count (@is_item_popped _) (events_since w1 w')).
Proof.
  intros Hconn Hzero Hdone Hsmall.
  assert (Heq : network_thread_via connect_op server false w =
                bind (simulate c1)
                  (fun c => bind (print ("[Network] Sent " ++ dec (sent c)
                                         ++ " packets")%string)
                                 (fun _ => ret c)) w1).
  { unfold network_thread_via. cbv zeta. unfold bind at 1 2.
    rewrite Hconn. reflexivity. }
  split; [exact Heq|].
  rewrite Heq in Hdone. unfold bind at 1 in Hdone.
  assert (Hu : u64 (sent_ c1) = sent_ c1) by (rewrite Hzero; reflexivity).
  pose proof (NetFacts.simulate_spec _ c1 w1 Hu) as H.
  destruct (simulate c1 w1) as [c2 w2|w2|w2]; try discriminate Hdone.
  destruct H as (evs & Ht & Hev & Hs).
  unfold bind, print, emit, ret in Hdone. inversion Hdone; subst c' w'.
  clear Hdone.
  assert (Hevs : forall line,
             events_since w1
               (mkWorld (queue w2) (running w2) (sched w2) (clock w2)
                        (trace w2 ++ [EPrint line])) =
             evs ++ [EPrint line]).
  { intro line. unfold events_since. cbn [trace].
    apply NetFacts.events_since_app. rewrite Ht, <- app_assoc. reflexivity. }
  rewrite Hevs in *.
  assert (Hn : forall line,
             count (@is_item_popped _) (evs ++ [EPrint line]) =
             count (@is_item_popped _) evs).
  { intro line. rewrite NetFacts.count_app. unfold count at 2. simpl. lia. }
  rewrite Hn in *. split.
  - apply NetFacts.forallb_app_true; [exact Hev|reflexivity].
  - unfold sent. rewrite Hs, Hzero. simpl. apply NetFacts.u64_small. lia.
Qed.

Lemma sleeps_app (a b : list (event Packet)) :
  sleeps (a ++ b) = sleeps a ++ sleeps b.
Proof.
  induction a as [|e a IH]; [reflexivity|].
  destruct e; simpl; rewrite IH; reflexivity.
Qed.

Lemma load_running_quiet w :
  match load_running w with
  | Done _ w' => quiet w w'
  | Pending w' => quiet w w'
  | Fault _ => False
  end.
Proof.
  unfold load_running, quiet.
  pose proof (RtFacts.load_at_spec _ (sched w) w) as H.
  destruct (load_at (sched w) w) as [r w'|w'|w'];
    [destruct H as (-> & -> & _)|destruct H as (-> & -> & _)|exact H]; auto.
Qed.

Lemma q_push_quiet (p : Packet) w :
  match q_push p w with
  | Done _ w' => quiet w w'
  | Pending w' => quiet w w'
  | Fault _ => False
  end.
Proof.
  unfold quiet. pose proof (RtFacts.q_push_spec _ p w) as H.
  destruct (q_push p w) as [r w'|w'|w'];
    [destruct H as (-> & -> & _)|destruct H as (-> & -> & _)|exact H];
    rewrite ?sleeps_app, ?app_nil_r; auto.
Qed.

Lemma q_size_quiet w :
  match q_size_call w with
  | Done _ w' => quiet w w'
  | Pending w' => quiet w w'
  | Fault _ => False
  end.
Proof.
  unfold quiet. pose proof (RtFacts.q_size_spec _ w) as H.
  destruct (q_size_call w) as [r w'|w'|w'];
    [destruct H as (-> & -> & _)|destruct H as (-> & -> & _)|exact H];
    rewrite ?sleeps_app, ?app_nil_r; auto.
Qed.

(** The producer's loop, whether it has ended or not: each pass that
    reaches sleep_for has read the clock twice, and has asked for the frame
    less the difference of the two readings. *)
Lemma physics_loop_spec (make_packet : string -> Z -> Packet) :
  forall fuel sensor w r,
  physics_loop make_packet fuel sensor w = r ->
  exists used,
    clock w = used ++ clock (final r) /\
    sleeps (trace (final r)) = sleeps (trace w) ++ requests used.
Proof.
  induction fuel as [|fuel IH]; intros sensor w r Hr.
  - subst r. exists []. simpl. rewrite app_nil_r. auto.
  - cbn [physics_loop] in Hr. unfold bind at 1 in Hr.
    pose proof (load_running_quiet w) as H1.
    destruct (load_running w) as [b w1|w1|w1]; [|subst r|destruct H1].
    2: { exists []. destruct H1 as (Hc & Ht). simpl.
         rewrite Hc, Ht, app_nil_r. auto. }
    destruct b; cbn [negb] in Hr.
    2: { subst r. exists []. destruct H1 as (Hc & Ht). simpl.
         rewrite Hc, Ht, app_nil_r. auto. }
    unfold bind at 1, now at 1 in Hr.
    destruct (clock w1) as [|start rest] eqn:Hck1.
    { subst r. exists []. destruct H1 as (Hc & Ht). simpl.
      rewrite Hc, Ht, app_nil_r. auto. }
    cbv zeta in Hr. unfold bind at 1 in Hr.
    match type of Hr with context [q_push ?p ?w2] =>
      pose proof (q_push_quiet p w2) as H3;
      destruct (q_push p w2) as [ok w3|w3|w3] end;
      [|subst r|destruct H3].
    2: { exists [start]. destruct H1 as (Hc & Ht).
         destruct H3 as (Hc3 & Ht3). simpl in *.
         rewrite Hc3, Ht3, <- Hc, Ht, Hck1, app_nil_r. auto. }
    assert (Hq13 : clock w3 = rest /\ sleeps (trace w3) = sleeps (trace w)).
    { destruct H1 as (Hc & Ht). destruct H3 as (Hc3 & Ht3). simpl in *.
      rewrite Hc3, Ht3, Ht. auto. }
    assert (Hw : clock w = start :: rest).
    { destruct H1 as (Hc & _). rewrite <- Hc. exact Hck1. }
    clear H1 H3 Hck1. destruct Hq13 as (Hc3 & Ht3).
    destruct ok; cbn [negb] in Hr.
    2: { subst r. exists [start]. simpl.
         rewrite Hc3, Ht3, Hw, app_nil_r. auto. }
    unfold bind at 1 in Hr.
    (* the optional progress line *)
    match type of Hr with
    | context [match ?m w3 with Done _ _ => _ | Pending _ => _
                              | Fault _ => _ end] =>
        assert (H4 : match m w3 with
                     | Done _ w4 => quiet w3 w4
                     | Pending w4 => quiet w3 w4
                     | Fault _ => False
                     end);
        [|destruct (m w3) as [u w4|w4|w4]; [|subst r|destruct H4]]
    end.
    { destruct (tick (snd (generate make_packet sensor)) mod 60 =? 0)%Z.
      - unfold bind. pose proof (q_size_quiet w3) as Hz.
        destruct (q_size_call w3) as [n w4|w4|w4]; try exact Hz.
        unfold print, emit. unfold quiet in *. simpl.
        rewrite sleeps_app, app_nil_r. exact Hz.
      - unfold ret, quiet. auto. }
    2: { exists [start]. destruct H4 as (Hc4 & Ht4). simpl.
         rewrite Hc4, Ht4, Hc3, Ht3, Hw, app_nil_r. auto. }
    destruct H4 as (Hc4 & Ht4). rewrite Hc3 in Hc4. rewrite Ht3 in Ht4.
    unfold bind at 1, now at 1 in Hr. rewrite Hc4 in Hr.
    destruct rest as [|finish rest].
    { subst r. exists [start]. simpl. rewrite Hc4, Ht4, Hw, app_nil_r. auto. }
    unfold bind at 1, sleep_for, emit in Hr.
    apply IH in Hr. destruct Hr as (used & Hu & Hs).
    exists (start :: finish :: used). split.
    + rewrite Hw. simpl in Hu. rewrite Hu at 1. reflexivity.
    + rewrite Hs. simpl. rewrite sleeps_app, Ht4. simpl.
      rewrite <- app_assoc. reflexivity.
Qed.

(** The producer's loop is still under way only when no turn, or no clock
    reading, is left for it; and it does not run into undefined behaviour. *)
Lemma physics_loop_progress (make_packet : string -> Z -> Packet) :
  forall fuel sensor w,
  match physics_loop make_packet fuel sensor w with
  | Done _ _ => True
  | Pending w' => length (sched w) < fuel -> sched w' = [] \/ clock w' = []
  | Fault _ => False
  end.
Proof.
  induction fuel as [|fuel IH]; intros sensor w.
  - simpl. intro H. inversion H.
  - cbn [physics_loop]. unfold bind at 1, load_running.
    pose proof (RtFacts.load_at_spec _ (sched w) w) as H1.
    destruct (load_at (sched w) w) as [b w1|w1|w1];
      [|intros _; left; tauto|exact H1].
    destruct H1 as (_ & _ & Hl1).
    destruct b; cbn [negb]; [|exact I].
    unfold bind at 1, now at 1.
    destruct (clock w1) as [|start rest] eqn:Hck1; [intros _; right; exact Hck1|].
    cbv zeta. unfold bind at 1.
    match goal with |- context [q_push ?p ?w2] =>
      pose proof (RtFacts.q_push_spec _ p w2) as H3;
      destruct (q_push p w2) as [ok w3|w3|w3] end;
      [|intros _; left; tauto|exact H3].
    destruct H3 as (_ & _ & Hl3 & _). simpl in Hl3.
    destruct ok; cbn [negb]; [|exact I].
    unfold bind at 1.
    match goal with
    | |- context [match ?m w3 with Done _ _ => _ | Pending _ => _
                                 | Fault _ => _ end] =>
        assert (H4 : match m w3 with
                     | Done _ w4 =>
                         clock w4 = clock w3 /\
                         length (sched w4) <= length (sched w3)
                     | Pending w4 => sched w4 = []
                     | Fault _ => False
                     end);
        [|destruct (m w3) as [u w4|w4|w4];
          [|intros _; left; exact H4|exact H4]]
    end.
    { destruct (tick (snd (generate make_packet sensor)) mod 60 =? 0)%Z.
      - unfold bind. pose proof (RtFacts.q_size_spec _ w3) as Hz.
        destruct (q_size_call w3) as [n w4|w4|w4]; [|tauto|exact Hz].
        unfold print, emit. simpl. destruct Hz as (_ & Hc & Hl).
        split; [exact Hc|lia].
      - unfold ret. auto. }
    destruct H4 as (Hc4 & Hl4).
    unfold bind at 1, now at 1.
    destruct (clock w4) as [|finish rest'] eqn:Hck4;
      [intros _; right; exact Hck4|].
    unfold bind at 1, sleep_for, emit.
    match goal with |- context [physics_loop make_packet fuel ?s6 ?w6] =>
      specialize (IH s6 w6);
      destruct (physics_loop make_packet fuel s6 w6) as [s7 w7|w7|w7] end;
      [exact I| |exact IH].
    intro Hlt. apply IH. simpl. lia.
Qed.

(** The duration handed to sleep_for fits the 64-bit count of nanoseconds
    in which it is computed, for the readings a steady clock gives. *)
Lemma sleep_request_in_range (start finish : Z) :
  (0 <= start <= finish)%Z -> (finish < 2 ^ 63)%Z ->
  (- 2 ^ 63 <= sleep_request start finish < 2 ^ 63)%Z.
Proof.
  unfold sleep_request, elapsed, frame_ns, frame. lia.
Qed.

(** C6, as the code has it.  In every pass of the producer's loop that
    reaches it, sleep_for is handed the frame less the time the pass has
    taken, as computed, with no clamp: along any run the durations asked
    for are those computed from the clock readings the passes have made, two
    by two.  The value is 16667000 ns less the elapsed time; it is negative
    exactly when the pass has run longer than the frame, and it is the
    clamped value exactly when the pass has not. *)
Theorem sleep_request_unclamped
  (make_packet : string -> Z -> Packet) (vehicle_id : string) w :
  (exists used,
     clock w = used ++ clock (final (physics_thread make_packet vehicle_id w)) /\
     sleeps (trace (final (physics_thread make_packet vehicle_id w))) =
       sleeps (trace w) ++ requests used) /\
  (forall start finish,
     sleep_request start finish = (16667000 - (finish - start))%Z /\
     (sleep_request start finish < 0 <-> frame_ns < elapsed start finish)%Z /\
     (sleep_request start finish =
        Z.max 0 (frame_ns - elapsed start finish) <->
      elapsed start finish <= frame_ns)%Z).
Proof.
  split.
  - unfold physics_thread. cbv zeta. unfold bind at 1 3.
    match goal with |- context [physics_loop make_packet ?f ?s w] =>
      destruct (physics_loop_spec make_packet f s w _ eq_refl)
        as (used & Hu & Hs);
      destruct (physics_loop make_packet f s w) as [s1 w1|w1|w1] end;
      exists used; simpl in *.
    + rewrite sleeps_app, app_nil_r. auto.
    + auto.
    + auto.
  - intros start finish. unfold sleep_request, elapsed, frame_ns, frame.
    repeat split; lia.
Qed.

End Facts.

(** A pass that takes 20 ms: the producer hands sleep_for -3333000 ns, where
    the clamped value is 0. *)
Lemma sleep_request_negative_on_overrun :
  sleeps (trace (final (physics_thread Demo.label "AV-001" Demo.overrun))) =
    [(-3333000)%Z] /\
  (frame_ns < elapsed 0 20000000)%Z /\
  Z.max 0 (frame_ns - elapsed 0 20000000) = 0%Z /\
  sleep_request 0 20000000 = (-3333000)%Z.
Proof.
  repeat split.
Qed.


(** Live mode on a link that carries one write: the second Write fails. *)
Lemma write_failure_stops_stream_run :
  stream (Demo.connected 1) Demo.flowing =
    Done Demo.broken_client Demo.broken_world /\
  exists pre p st,
    events_since Demo.flowing Demo.broken_world =
      pre ++ [EPop (Some p); EWrite p false; EWritesDone; EFinish st;
              EPrint ("[Network] Stream closed: "
                      ++ error_message st)%string] /\
    forallb (fun e => negb (is_failed_write e)) pre = true /\
    forallb (fun e => negb (is_push_event e)) pre = true /\
    st = fst (Finish (snd (WritesDone
                (writer_after (G := Demo.link 1)
                   (StreamTelemetry (Grpc := Demo.link 1)
                      "localhost:50051"%string)
                   (written pre ++ [p]))))) /\
    sent Demo.broken_client =
      u64 (sent_ (Demo.connected 1)
           + Z.of_nat (count (@is_ok_write _) pre)).
Proof.
  assert (Hrun : stream (Demo.connected 1) Demo.flowing =
                 Done Demo.broken_client Demo.broken_world)
    by (vm_compute; reflexivity).
  assert (Hfail : forallb (fun e => negb (is_failed_write e))
                    (events_since Demo.flowing Demo.broken_world) = false)
    by (vm_compute; reflexivity).
  assert (Hrange : (0 <= sent_ (Demo.connected 1) < 2 ^ 64)%Z)
    by (vm_compute; split; [discriminate|reflexivity]).
  split; [exact Hrun|].
  exact (proj1 (proj2
    (@NetFacts.write_failure_stops_stream string (Demo.link 1)
       (Demo.connected 1) "localhost:50051"%string Demo.flowing
       eq_refl eq_refl Hrange)) Demo.broken_client Demo.broken_world
       Hrun Hfail).
Defined.

End MainFacts.

(* ===================================================================== *)
(** ** More on the queue: when calls wait, whom they wake, what is kept *)
(* ===================================================================== *)

Module QueueMore.

Import Queue.

Section Facts.

Variable T : Type.

Implicit Types (q : ThreadSafeQueue T) (h : list (op T)) (rs : list (ret T)).

Lemma lift_waits (A : Type) (f : A -> ret T) (o : outcome T A) c :
  lift f o = Waits c -> o = Waits c.
Proof. destruct o; simpl; intro H; try discriminate H. inversion H. auto. Qed.

Lemma lift_undefined (A : Type) (f : A -> ret T) (o : outcome T A) :
  lift f o = Undefined -> o = Undefined.
Proof. destruct o; simpl; intro H; try discriminate H. reflexivity. Qed.

Lemma lift_returns (A : Type) (f : A -> ret T) (o : outcome T A) r q' sigs :
  lift f o = Returns r q' sigs -> exists a, o = Returns a q' sigs /\ r = f a.
Proof.
  destruct o; simpl; intro H; try discriminate H. inversion H; subst.
  eexists. split; reflexivity.
Qed.

Lemma push_defined q item : push q item <> Undefined.
Proof.
  unfold push.
  destruct ((q_size q <? capacity_ q)%N || shutdown_ q);
    [destruct (shutdown_ q)|]; discriminate.
Qed.

(** X1 (when a call waits).  push waits exactly when the queue is open and
    holds at least as many items as its capacity; pop waits exactly when the
    queue is open and empty.  No other call waits, no call waits on a closed
    queue, and no call reaches front() on an empty queue. *)
Theorem waits_exactly q :
  (forall item,
     push q item = Waits not_full_ <->
     shutdown_ q = false /\ (capacity_ q <= q_size q)%N) /\
  (pop q = Waits not_empty_ <-> shutdown_ q = false /\ queue_ q = []) /\
  (forall o c,
     exec q o = Waits c ->
     shutdown_ q = false /\
     ((exists item, o = Push item) /\ c = not_full_ \/
      o = Pop /\ c = not_empty_)) /\
  (forall o, exec q o <> Undefined).
Proof.
  assert (Hpush : forall item c,
            push q item = Waits c ->
            c = not_full_ /\ shutdown_ q = false /\
            (capacity_ q <= q_size q)%N).
  { intros item c. unfold push.
    destruct (q_size q <? capacity_ q)%N eqn:Hlt;
      destruct (shutdown_ q) eqn:Hs; simpl; try discriminate.
    intro H. inversion H. apply N.ltb_ge in Hlt. auto. }
  assert (Hpop : forall c,
            pop q = Waits c ->
            c = not_empty_ /\ shutdown_ q = false /\ queue_ q = []).
  { intro c. unfold pop, q_empty.
    destruct (queue_ q) as [|x l]; destruct (shutdown_ q); simpl;
      try discriminate.
    intro H. inversion H. auto. }
  split; [|split; [|split]].
  - intro item. split.
    + intro H. apply Hpush in H. tauto.
    + intros (Hs & Hf). rewrite (QueueFacts.push_full _ q item Hf), Hs.
      reflexivity.
  - split.
    + intro H. apply Hpop in H. tauto.
    + intros (Hs & Hq). unfold pop, q_empty. rewrite Hq, Hs. reflexivity.
  - intros o c H. destruct o as [item| | |]; simpl in H.
    + apply lift_waits in H. apply Hpush in H.
      destruct H as (-> & Hs & _). split; [exact Hs|].
      left. split; [exists item; reflexivity|reflexivity].
    + apply lift_waits in H. apply Hpop in H.
      destruct H as (-> & Hs & _). split; [exact Hs|]. right. auto.
    + discriminate H.
    + discriminate H.
  - intros o H. destruct o as [item| | |]; simpl in H; try discriminate H.
    + apply lift_undefined in H. exact (push_defined q item H).
    + apply lift_undefined in H. exact (QueueFacts.pop_defined _ q H).
Qed.

(** X2 (no wake-up is lost).  When a call leaves the queue in a state in
    which a pop that had to wait need not wait any more, it notifies
    not_empty_; when it leaves the queue in a state in which a push that had
    to wait need not wait any more, it notifies not_full_. *)
Theorem wakeups_are_notified q o r q' sigs :
  exec q o = Returns r q' sigs ->
  (pop q = Waits not_empty_ -> pop q' <> Waits not_empty_ ->
   In (notify_one not_empty_) sigs \/ In (notify_all not_empty_) sigs) /\
  (forall item,
     push q item = Waits not_full_ -> push q' item <> Waits not_full_ ->
     In (notify_one not_full_) sigs \/ In (notify_all not_full_) sigs).
Proof.
  intro He. destruct o as [x| | |]; simpl in He.
  - apply lift_returns in He. destruct He as (b & Hp & _).
    apply QueueFacts.push_returns in Hp.
    destruct Hp as [(_ & _ & -> & _)|(Hs & Hlt & _ & -> & ->)].
    + split; [intros H1 H2|intros item H1 H2]; contradiction.
    + split.
      * intros _ _. left. left. reflexivity.
      * intros item H1 _. exfalso.
        unfold push in H1. apply N.ltb_lt in Hlt. rewrite Hlt in H1.
        rewrite Hs in H1. discriminate H1.
  - apply lift_returns in He. destruct He as (b & Hp & _).
    apply QueueFacts.pop_returns in Hp.
    destruct Hp as [(_ & _ & _ & -> & _)|(y & rest & Hq & _ & -> & ->)].
    + split; [intros H1 H2|intros item H1 H2]; contradiction.
    + split.
      * intros H1 _. exfalso. unfold pop, q_empty in H1. rewrite Hq in H1.
        simpl in H1. destruct (shutdown_ q); discriminate H1.
      * intros item _ _. left. left. reflexivity.
  - inversion He; subst. split.
    + intros _ _. right. left. reflexivity.
    + intros item _ _. right. right. left. reflexivity.
  - inversion He; subst.
    split; [intros H1 H2|intros item H1 H2]; contradiction.
Qed.

Lemma run_closed_only_by_shutdown h : forall q rs q',
  run q h = Some (rs, q') -> shutdown_ q = false -> shutdown_ q' = true ->
  In Shutdown h.
Proof.
  induction h as [|o h IH]; intros q rs q' Hr Hs Hs'.
  - simpl in Hr. inversion Hr; subst. congruence.
  - apply QueueFacts.run_cons in Hr.
    destruct Hr as (r & q1 & sigs & rs1 & He & Hr & ->).
    destruct o as [x| | |]; try (left; reflexivity); right;
      apply (IH q1 rs1 q' Hr); try exact Hs';
      apply QueueFacts.exec_effect in He;
      destruct He as (_ & _ & Hk & _); rewrite (Hk eq_refl); exact Hs.
Qed.

(** X3 (nothing lost along any history).  After any calls on a fresh queue,
    shutdown among them or not: the items of the pushes that returned true
    are the items popped followed by the items still queued, in that order;
    the capacity is the one the queue was made with; the queue is closed
    exactly if shutdown was called; and while it is open every push made
    has been accepted. *)
Theorem history_conservation (capacity : N) h rs q :
  run (new_queue capacity) h = Some (rs, q) ->
  accepted h rs = popped rs ++ queue_ q /\
  capacity_ q = capacity /\
  (shutdown_ q = true <-> In Shutdown h) /\
  (shutdown_ q = false -> accepted h rs = pushed h).
Proof.
  intro Hr.
  destruct (QueueFacts.run_conserves _ h _ _ _ Hr) as (Hc & Hq).
  simpl in Hc, Hq. split; [exact Hq|]. split; [exact Hc|]. split.
  - split.
    + apply (run_closed_only_by_shutdown h _ _ _ Hr). reflexivity.
    + apply (QueueFacts.run_after_shutdown _ h _ _ _ Hr).
  - intro Hs.
    assert (Hn : forallb (fun o => negb (is_shutdown o)) h = true).
    { apply forallb_forall. intros o Ho. destruct o; try reflexivity.
      pose proof (QueueFacts.run_after_shutdown _ h _ _ _ Hr Ho). congruence. }
    destruct (QueueFacts.run_open _ h _ _ _ Hr eq_refl Hn) as (_ & _ & Ha).
    exact Ha.
Qed.

End Facts.

(** A pop on a queue of one item frees a place: the push that waited is
    notified. *)
Lemma wakeups_are_notified_at_pop :
  exec (mkQueue ["A"%string] 1 false) Pop =
    Returns (RPop (Some "A"%string)) (mkQueue [] 1 false)
            [notify_one not_full_] /\
  push (mkQueue ["A"%string] 1 false) "B"%string = Waits not_full_ /\
  (In (notify_one not_full_) [notify_one not_full_] \/
   In (notify_all not_full_) [notify_one not_full_]).
Proof.
  split; [reflexivity|]. split; [reflexivity|].
  apply (proj2 (wakeups_are_notified string (mkQueue ["A"%string] 1 false)
                  Pop (RPop (Some "A"%string)) (mkQueue [] 1 false)
                  [notify_one not_full_] eq_refl) "B"%string).
  - reflexivity.
  - discriminate.
Defined.

(** Two pushes, a pop, a shutdown and a refused push. *)
Lemma history_conservation_across_shutdown :
  run (new_queue 2)
      [Push "A"; Push "B"; Pop; Shutdown; Push "C"]%string =
    Some ([RPush true; RPush true; RPop (Some "A"); RShutdown;
           RPush false]%string, mkQueue ["B"%string] 2 true) /\
  ["A"; "B"]%string = ["A"]%string ++ ["B"]%string /\
  capacity_ (mkQueue ["B"%string] 2 true) = 2%N.
Proof.
  split; [reflexivity|].
  destruct (history_conservation string 2
              [Push "A"; Push "B"; Pop; Shutdown; Push "C"]%string
              [RPush true; RPush true; RPop (Some "A"); RShutdown;
               RPush false]%string
              (mkQueue ["B"%string] 2 true) eq_refl) as (H1 & H2 & _).
  split; [exact H1|exact H2].
Defined.

End QueueMore.

(* ===================================================================== *)
(** ** More on the consumer: what it pops, writes, counts and leaves *)
(* ===================================================================== *)

Module ConsumerFacts.

Import Queue Rt Net Obs Main.

Section Facts.

Variable Packet : Type.
Context {G : Grpc Packet}.

Implicit Types (w : World Packet) (c : NetworkClient Packet)
  (s : list (turn Packet)) (q : ThreadSafeQueue Packet).

Lemma subseq_nil_l (A : Type) (b : list A) : subseq [] b.
Proof. induction b; constructor; assumption. Qed.

Lemma subseq_app (A : Type) (l1 l2 : list A) :
  subseq l1 l2 -> forall l3 l4, subseq l3 l4 -> subseq (l1 ++ l3) (l2 ++ l4).
Proof.
  induction 1; intros l3 l4 Hcd; simpl.
  - exact Hcd.
  - apply subseq_skip. apply IHsubseq. exact Hcd.
  - apply subseq_take. apply IHsubseq. exact Hcd.
Qed.

Lemma offered_app s1 s2 : offered (s1 ++ s2) = offered s1 ++ offered s2.
Proof.
  induction s1 as [|t s1 IH]; [reflexivity|].
  destruct t as [|[p| | |]|]; simpl; rewrite IH; reflexivity.
Qed.

Lemma popped_items_app (a b : list (event Packet)) :
  popped_items (a ++ b) = popped_items a ++ popped_items b.
Proof.
  induction a as [|e a IH]; [reflexivity|].
  destruct e as [p ok|[p|]|n|l|p ok| |st|ns]; simpl; rewrite IH; reflexivity.
Qed.

Lemma push_calls_app (a b : list (event Packet)) :
  push_calls (a ++ b) = push_calls a ++ push_calls b.
Proof.
  induction a as [|e a IH]; [reflexivity|].
  destruct e; simpl; rewrite IH; reflexivity.
Qed.

(** What the turns of the other threads do to the queue when none of them
    pops: they append some of the packets they offer. *)
Lemma env_run_feeds s : forall q,
  single_consumer s ->
  exists acc, subseq acc (offered s) /\
              queue_ (env_run s q) = queue_ q ++ acc.
Proof.
  unfold single_consumer.
  induction s as [|t s IH]; intros q Hs.
  - exists []. split; [constructor|]. simpl. rewrite app_nil_r. reflexivity.
  - simpl in Hs. apply andb_true_iff in Hs. destruct Hs as (Ht & Hs).
    destruct t as [|o|]; simpl; try (apply IH; exact Hs).
    destruct o as [p| | |]; simpl in Ht; try discriminate Ht.
    + unfold env_apply. simpl.
      destruct (push q p) as [c1|b q1 s1|] eqn:Hp; simpl.
      * destruct (IH q Hs) as (acc & Ha & Hq). exists acc.
        split; [apply subseq_skip; exact Ha|exact Hq].
      * apply QueueFacts.push_returns in Hp.
        destruct Hp as [(_ & _ & -> & _)|(_ & _ & _ & -> & _)].
        -- destruct (IH q Hs) as (acc & Ha & Hq). exists acc.
           split; [apply subseq_skip; exact Ha|exact Hq].
        -- destruct (IH (mkQueue (queue_ q ++ [p]) (capacity_ q) false) Hs)
             as (acc & Ha & Hq).
           exists (p :: acc). split; [apply subseq_take; exact Ha|].
           rewrite Hq. simpl. rewrite <- app_assoc. reflexivity.
      * destruct (IH q Hs) as (acc & Ha & Hq). exists acc.
        split; [apply subseq_skip; exact Ha|exact Hq].
    + destruct (IH (env_apply q Shutdown) Hs) as (acc & Ha & Hq).
      exists acc. split; [exact Ha|exact Hq].
    + destruct (IH (env_apply q Size) Hs) as (acc & Ha & Hq).
      exists acc. split; [exact Ha|exact Hq].
Qed.

Lemma env_run_app s1 s2 q : env_run (s1 ++ s2) q = env_run s2 (env_run s1 q).
Proof.
  revert q. induction s1 as [|t s1 IH]; intro q; [reflexivity|].
  destruct t; simpl; apply IH.
Qed.

(** A call that has not returned when the turns run out has left the queue
    to the other threads. *)
Lemma call_at_pending (A : Type)
  (f : ThreadSafeQueue Packet -> outcome Packet A) (ev : A -> event Packet) :
  forall s w w',
    call_at f ev s w = Pending w' ->
    sched w' = [] /\ queue w' = env_run s (queue w) /\ trace w' = trace w.
Proof.
  induction s as [|t s IH]; intros w w' H; simpl in H.
  - inversion H; subst. simpl. auto.
  - destruct t as [|o|].
    + destruct (f (queue w)) as [c1|r q' sigs|]; try discriminate H.
      apply IH in H. exact H.
    + apply IH in H. exact H.
    + apply IH in H. exact H.
Qed.

Lemma single_consumer_app s1 s2 :
  single_consumer (s1 ++ s2) -> single_consumer s1 /\ single_consumer s2.
Proof.
  unfold single_consumer. rewrite forallb_app. apply andb_true_iff.
Qed.

(** The accounting relation composes. *)
Lemma fed_refl w : fed w w.
Proof.
  exists [], [], []. simpl. rewrite !app_nil_r.
  repeat split; auto. constructor.
Qed.

Lemma fed_trans w1 w2 w3 : fed w1 w2 -> fed w2 w3 -> fed w1 w3.
Proof.
  intros (u1 & a1 & e1 & Hs1 & Ht1 & Hb1 & Hq1 & Hp1)
         (u2 & a2 & e2 & Hs2 & Ht2 & Hb2 & Hq2 & Hp2).
  exists (u1 ++ u2), (a1 ++ a2), (e1 ++ e2). split; [|split; [|split; [|split]]].
  - rewrite Hs1, Hs2, app_assoc. reflexivity.
  - rewrite Ht2, Ht1, app_assoc. reflexivity.
  - rewrite offered_app. apply subseq_app; assumption.
  - rewrite popped_items_app, app_assoc, Hq1, <- !app_assoc, Hq2. reflexivity.
  - rewrite push_calls_app, Hp1, Hp2. reflexivity.
Qed.

Lemma fed_single w w' :
  fed w w' -> single_consumer (sched w) -> single_consumer (sched w').
Proof.
  intros (u & _ & _ & Hs & _) H. rewrite Hs in H.
  apply single_consumer_app in H. tauto.
Qed.

Lemma fed_emit w (e : event Packet) :
  popped_items [e] = [] -> push_calls [e] = [] -> fed w (final (emit e w)).
Proof.
  intros Hp Hc. exists [], [], [e].
  split; [reflexivity|]. split; [reflexivity|]. split; [constructor|].
  split; [rewrite Hp, app_nil_r; reflexivity|exact Hc].
Qed.

Lemma fed_call (A : Type)
  (f : ThreadSafeQueue Packet -> outcome Packet A) (ev : A -> event Packet) w :
  (forall q1 r q2 sigs,
     f q1 = Returns r q2 sigs ->
     queue_ q1 = popped_items [ev r] ++ queue_ q2 /\ push_calls [ev r] = []) ->
  (forall q1, f q1 <> Undefined) ->
  single_consumer (sched w) ->
  fed w (final (call f ev w)).
Proof.
  intros Hf Hdef Hs. unfold call.
  destruct (call_at f ev (sched w) w) as [r w'|w'|w'] eqn:Hc; simpl.
  - pose proof (RtFacts.call_at_spec _ _ f ev (sched w) w) as Hsp.
    rewrite Hc in Hsp. destruct Hsp as (Ht & _).
    apply RtFacts.call_at_env in Hc. destruct Hc as (pre & sigs & Hsc & Hq).
    rewrite Hsc in Hs. apply single_consumer_app in Hs.
    destruct Hs as (Hpre & _).
    destruct (env_run_feeds pre (queue w) Hpre) as (acc & Ha & He).
    destruct (Hf _ _ _ _ Hq) as (Hq1 & Hq2).
    exists (pre ++ [Me]), acc, [ev r]. split; [|split; [|split; [|split]]].
    + rewrite Hsc, <- app_assoc. reflexivity.
    + exact Ht.
    + rewrite offered_app. simpl. rewrite app_nil_r. exact Ha.
    + rewrite <- He. exact Hq1.
    + exact Hq2.
  - apply call_at_pending in Hc. destruct Hc as (Hs' & Hq & Ht).
    destruct (env_run_feeds (sched w) (queue w) Hs) as (acc & Ha & He).
    exists (sched w), acc, []. rewrite Hs', Ht, Hq, He, !app_nil_r.
    repeat split; auto.
  - pose proof (RtFacts.call_at_spec _ _ f ev (sched w) w) as Hsp.
    rewrite Hc in Hsp. destruct Hsp as (_ & q1 & Hu).
    exfalso. exact (Hdef q1 Hu).
Qed.

Lemma fed_bind (A B : Type) (m : M Packet A) (k : A -> M Packet B) w :
  single_consumer (sched w) ->
  fed w (final (m w)) ->
  (forall a w1, m w = Done a w1 -> single_consumer (sched w1) ->
                fed w1 (final (k a w1))) ->
  fed w (final (bind m k w)).
Proof.
  intros Hs Hm Hk. unfold bind.
  destruct (m w) as [a w1|w1|w1] eqn:Hmw; simpl in *.
  - apply (fed_trans w w1); [exact Hm|].
    apply (Hk a w1 eq_refl). apply (fed_single w w1 Hm Hs).
  - exact Hm.
  - exact Hm.
Qed.

Lemma fed_q_pop w : single_consumer (sched w) -> fed w (final (q_pop w)).
Proof.
  apply fed_call.
  - intros q1 r q2 sigs Hp. apply QueueFacts.pop_returns in Hp.
    destruct Hp as [(_ & _ & -> & -> & _)|(x & rest & Hq & -> & -> & _)].
    + auto.
    + simpl. auto.
  - intros q1. apply QueueFacts.pop_defined.
Qed.

Lemma fed_q_size w : single_consumer (sched w) -> fed w (final (q_size_call w)).
Proof.
  apply fed_call.
  - intros q1 r q2 sigs H. inversion H; subst. simpl. auto.
  - intros q1 H. discriminate H.
Qed.

Lemma fed_print w (line : string) : fed w (final (print line w)).
Proof. apply fed_emit; reflexivity. Qed.

Lemma fed_log_progress c (n : N) w :
  single_consumer (sched w) -> fed w (final (log_progress c n w)).
Proof.
  intro Hs. unfold log_progress.
  match goal with |- context [if ?b then _ else _] => destruct b end.
  - apply fed_bind; [exact Hs|apply fed_print|].
    intros. apply fed_refl.
  - apply fed_refl.
Qed.

Lemma fed_simulate_loop : forall fuel c w,
  single_consumer (sched w) -> fed w (final (simulate_loop fuel c w)).
Proof.
  induction fuel as [|fuel IH]; intros c w Hs.
  - apply fed_refl.
  - cbn [simulate_loop].
    apply fed_bind; [exact Hs|apply fed_q_pop; exact Hs|].
    intros [p|] w1 _ Hs1; [|apply fed_refl].
    apply fed_bind; [exact Hs1|apply fed_q_size; exact Hs1|].
    intros n w2 _ Hs2.
    apply fed_bind; [exact Hs2|apply fed_log_progress; exact Hs2|].
    intros c2 w3 _ Hs3. apply IH. exact Hs3.
Qed.

Lemma fed_simulate c w :
  single_consumer (sched w) -> fed w (final (simulate c w)).
Proof.
  intro Hs. unfold simulate.
  apply fed_bind; [exact Hs|apply fed_print|]. intros _ w1 _ Hs1.
  apply fed_bind; [exact Hs1|apply fed_simulate_loop; exact Hs1|].
  intros c1 w2 _ Hs2.
  apply fed_bind; [exact Hs2|apply fed_print|]. intros. apply fed_refl.
Qed.

Lemma fed_write (wr : Writer) (p : Packet) w :
  single_consumer (sched w) -> fed w (final (write wr p w)).
Proof.
  intro Hs. unfold write.
  apply fed_bind; [exact Hs|apply fed_emit; reflexivity|].
  intros. apply fed_refl.
Qed.

Lemma fed_stream_loop : forall fuel (wr : Writer) c w,
  single_consumer (sched w) -> fed w (final (stream_loop fuel wr c w)).
Proof.
  induction fuel as [|fuel IH]; intros wr c w Hs.
  - apply fed_refl.
  - cbn [stream_loop].
    apply fed_bind; [exact Hs|apply fed_q_pop; exact Hs|].
    intros [p|] w1 _ Hs1; [|apply fed_refl].
    apply fed_bind; [exact Hs1|apply fed_write; exact Hs1|].
    intros r w2 _ Hs2.
    destruct (negb (fst r)); [apply fed_refl|].
    apply fed_bind; [exact Hs2|apply fed_q_size; exact Hs2|].
    intros n w3 _ Hs3.
    apply fed_bind; [exact Hs3|apply fed_log_progress; exact Hs3|].
    intros c2 w4 _ Hs4. apply IH. exact Hs4.
Qed.

Lemma fed_stream c w :
  single_consumer (sched w) -> fed w (final (stream c w)).
Proof.
  intro Hs. unfold stream.
  destruct (negb (connected_ c)); [apply fed_simulate; exact Hs|].
  destruct (stub_ c) as [stub|]; [|apply fed_refl].
  cbv zeta.
  apply fed_bind; [exact Hs|apply fed_stream_loop; exact Hs|].
  intros r w1 _ Hs1.
  apply fed_bind; [exact Hs1|apply fed_emit; reflexivity|].
  intros _ w2 _ Hs2.
  apply fed_bind; [exact Hs2|apply fed_emit; reflexivity|].
  intros _ w3 _ Hs3.
  apply fed_bind; [exact Hs3|apply fed_print|]. intros. apply fed_refl.
Qed.

Lemma fed_network_thread (server : string) (flag : bool) w :
  single_consumer (sched w) ->
  fed w (final (network_thread server flag w)).
Proof.
  intro Hs. unfold network_thread, network_thread_via. cbv zeta.
  apply fed_bind; [exact Hs| |].
  - destruct flag; [apply fed_simulate; exact Hs|].
    apply fed_bind; [exact Hs| |].
    + unfold connect. cbv zeta.
      apply fed_bind; [exact Hs|apply fed_print|]. intros. apply fed_refl.
    + intros r w1 _ Hs1.
      destruct (fst r); [apply fed_stream|apply fed_simulate]; exact Hs1.
  - intros c1 w1 _ Hs1.
    apply fed_bind; [exact Hs1|apply fed_print|]. intros. apply fed_refl.
Qed.

(** X4 (the consumer loses nothing).  While no other thread pops, along any
    run of network_thread, in either mode, returned or not: the packets the
    thread has popped, followed by the packets still queued, are the packets
    that were queued at the start followed by packets the other threads
    pushed meanwhile, in the order in which they pushed them.  The thread
    itself never calls push. *)
Theorem consumer_loses_nothing (server : string) (flag : bool) w :
  single_consumer (sched w) ->
  exists used acc,
    sched w = used ++ sched (final (network_thread server flag w)) /\
    subseq acc (offered used) /\
    queue_ (queue w) ++ acc =
      popped_items (events_since w (final (network_thread server flag w)))
      ++ queue_ (queue (final (network_thread server flag w))) /\
    push_calls (events_since w (final (network_thread server flag w))) = [].
Proof.
  intro Hs.
  destruct (fed_network_thread server flag w Hs)
    as (used & acc & evs & Hsc & Ht & Ha & Hq & Hp).
  exists used, acc. unfold events_since.
  rewrite (NetFacts.events_since_app _ w _ _ Ht). auto.
Qed.

(* --------------------------------------------------------------------- *)

Lemma written_ok_app (a b : list (event Packet)) :
  written_ok (a ++ b) = written_ok a ++ written_ok b.
Proof.
  induction a as [|e a IH]; [reflexivity|].
  destruct e as [p ok|r|n|l|p [|]| |st|ns]; simpl; rewrite IH; reflexivity.
Qed.

Lemma count_popped_length (evs : list (event Packet)) :
  count (@is_item_popped _) evs = length (popped_items evs).
Proof.
  unfold count. induction evs as [|e evs IH]; [reflexivity|].
  destruct e as [p ok|[p|]|n|l|p ok| |st|ns]; simpl; rewrite ?IH; reflexivity.
Qed.

Lemma count_ok_length (evs : list (event Packet)) :
  count (@is_ok_write _) evs = length (written_ok evs).
Proof.
  unfold count. induction evs as [|e evs IH]; [reflexivity|].
  destruct e as [p ok|r|n|l|p [|]| |st|ns]; simpl; rewrite ?IH; reflexivity.
Qed.

(** Printed lines are no other kind of event. *)
Lemma prints_only (lines : list string) :
  written (map (@EPrint Packet) lines) = [] /\
  written_ok (map (@EPrint Packet) lines) = [] /\
  popped_items (map (@EPrint Packet) lines) = [] /\
  forallb (fun e => negb (is_failed_write e)) (map (@EPrint Packet) lines)
    = true /\
  forallb (fun e => negb (is_transport e)) (map (@EPrint Packet) lines)
    = true /\
  count (@is_print Packet) (map (@EPrint Packet) lines) = length lines.
Proof.
  unfold count. induction lines as [|l lines IH]; simpl; [auto 10|].
  destruct IH as (H1 & H2 & H3 & H4 & H5 & H6). rewrite H6. auto 10.
Qed.

(** log_progress, exactly: one more packet counted, and a line when the new
    count is a multiple of 60. *)
Lemma log_progress_lines c (n : N) w :
  exists lines,
    log_progress c n w =
      Done (mkClient (address_ c) (channel_ c) (stub_ c) (connected_ c)
                     (u64 (sent_ c + 1)))
           (mkWorld (queue w) (running w) (sched w) (clock w)
                    (trace w ++ map (@EPrint Packet) lines)) /\
    length lines = if (u64 (sent_ c + 1) mod 60 =? 0)%Z then 1 else 0.
Proof.
  unfold log_progress. simpl.
  destruct (u64 (sent_ c + 1) mod 60 =? 0)%Z.
  - eexists [_]. split; reflexivity.
  - exists []. simpl. rewrite app_nil_r. destruct w. split; reflexivity.
Qed.

(** pop returns nullopt to the thread only on a closed, empty queue, and pop
    leaves that queue as it is. *)
Lemma q_pop_none w w1 :
  q_pop w = Done None w1 ->
  shutdown_ (queue w1) = true /\ queue_ (queue w1) = [].
Proof.
  unfold q_pop, call. intro H. apply RtFacts.call_at_env in H.
  destruct H as (pre & sigs & _ & Hp). apply QueueFacts.pop_returns in Hp.
  destruct Hp as [(Hs & Hq & _ & He & _)|(x & rest & _ & Hx & _)].
  - rewrite He. auto.
  - discriminate Hx.
Qed.

Lemma div60_step (a : Z) :
  (0 <= a)%Z ->
  ((a + 1) / 60 - a / 60 = if (a + 1) mod 60 =? 0 then 1 else 0)%Z.
Proof.
  intro H. destruct (Z.eqb_spec ((a + 1) mod 60) 0) as [E|E];
    Z.to_euclidean_division_equations; lia.
Qed.

(** The loop of simulate, when it has ended. *)
Lemma simulate_loop_flow : forall fuel c w c' w',
  simulate_loop fuel c w = Done c' w' ->
  exists evs,
    trace w' = trace w ++ evs /\
    shutdown_ (queue w') = true /\ queue_ (queue w') = [] /\
    address_ c' = address_ c /\ channel_ c' = channel_ c /\
    stub_ c' = stub_ c /\ connected_ c' = connected_ c /\
    ((0 <= sent_ c)%Z ->
     (sent_ c + Z.of_nat (length (popped_items evs)) < 2 ^ 64)%Z ->
     sent_ c' = (sent_ c + Z.of_nat (length (popped_items evs)))%Z /\
     Z.of_nat (count (@is_print Packet) evs) =
       (sent_ c' / 60 - sent_ c / 60)%Z).
Proof.
  induction fuel as [|fuel IH]; intros c w c' w' H.
  - discriminate H.
  - cbn [simulate_loop] in H. unfold bind at 1 in H.
    pose proof (RtFacts.q_pop_spec _ w) as Hp.
    destruct (q_pop w) as [[p|] w1|w1|w1] eqn:Hpop; try discriminate H.
    + destruct Hp as (Ht1 & _ & _).
      unfold bind at 1 in H. pose proof (RtFacts.q_size_spec _ w1) as Hz.
      destruct (q_size_call w1) as [n w2|w2|w2]; try discriminate H.
      destruct Hz as (Ht2 & _ & _). unfold bind at 1 in H.
      destruct (log_progress_lines c n w2) as (lines & Hl & Hn).
      rewrite Hl in H. apply IH in H.
      destruct H as (evs & Ht & Hs & Hq & Ha & Hc & Hst & Hco & Hcount).
      simpl in Ht, Ha, Hc, Hst, Hco, Hcount.
      destruct (prints_only lines) as (_ & _ & Hpl & _ & _ & Hcl).
      exists ([EPop (Some p); ESize n] ++ map (@EPrint Packet) lines ++ evs).
      split; [rewrite Ht, Ht2, Ht1, <- !app_assoc; reflexivity|].
      repeat (split; [assumption|]).
      assert (Hlen : length (popped_items
                ([EPop (Some p); ESize n] ++ map (@EPrint Packet) lines ++ evs))
              = S (length (popped_items evs))).
      { rewrite !popped_items_app, Hpl. reflexivity. }
      rewrite Hlen. intros H0 Hlt.
      assert (Hu : u64 (sent_ c + 1) = (sent_ c + 1)%Z)
        by (apply NetFacts.u64_small; lia).
      rewrite Hu in Hcount, Hn.
      destruct Hcount as (Hs' & Hpr); [lia|lia|].
      split; [lia|].
      rewrite !NetFacts.count_app, Hcl. unfold count at 1. simpl.
      rewrite !Nat2Z.inj_add, Hpr, Hn. simpl.
      pose proof (div60_step (sent_ c) H0) as Hd. revert Hd.
      destruct ((sent_ c + 1) mod 60 =? 0)%Z; lia.
    + inversion H; subst. destruct Hp as (Ht1 & _ & _).
      destruct (q_pop_none w w' Hpop) as (Hs & Hq).
      exists [EPop None]. split; [exact Ht1|]. split; [exact Hs|].
      split; [exact Hq|]. do 4 (split; [reflexivity|]).
      intros _ _. simpl. rewrite Z.add_0_r, Z.sub_diag.
      split; reflexivity.
Qed.

(** simulate, when it has returned. *)
Lemma simulate_flow c w c' w' :
  simulate c w = Done c' w' ->
  exists evs l1 l2,
    trace w' = trace w ++ [EPrint l1] ++ evs ++ [EPrint l2] /\
    shutdown_ (queue w') = true /\ queue_ (queue w') = [] /\
    address_ c' = address_ c /\ channel_ c' = channel_ c /\
    stub_ c' = stub_ c /\ connected_ c' = connected_ c /\
    ((0 <= sent_ c)%Z ->
     (sent_ c + Z.of_nat (length (popped_items evs)) < 2 ^ 64)%Z ->
     sent_ c' = (sent_ c + Z.of_nat (length (popped_items evs)))%Z /\
     Z.of_nat (count (@is_print Packet) evs) =
       (sent_ c' / 60 - sent_ c / 60)%Z).
Proof.
  unfold simulate. unfold bind at 1, print at 1, emit. unfold bind at 1.
  intro H.
  match type of H with context [simulate_loop ?f c ?w0] =>
    destruct (simulate_loop f c w0) as [c1 w1|w1|w1] eqn:Hl end;
    try discriminate H.
  apply simulate_loop_flow in Hl.
  destruct Hl as (evs & Ht & Hs & Hq & Ha & Hc & Hst & Hco & Hcount).
  unfold bind, print, emit, ret in H. inversion H; subst c' w'. clear H.
  simpl in Ht. simpl.
  exists evs. eexists. eexists.
  split; [rewrite Ht, <- !app_assoc; reflexivity|].
  repeat (split; [assumption || reflexivity|]). exact Hcount.
Qed.

(** X5 (Simulate mode).  When network_thread returns in Simulate mode, the
    queue is closed and empty; the thread has created no channel and no
    stub, and has made no call on the transport; the count it reports is
    the number of packets it has popped (modulo 2^64); and, if no other
    thread pops, the packets it has popped are those that were queued at the
    start followed by packets the other threads pushed meanwhile, in that
    order. *)
Theorem simulate_mode_returns_drained (server : string) w c' w' :
  network_thread server true w = Done c' w' ->
  shutdown_ (queue w') = true /\ queue_ (queue w') = [] /\
  channel_ c' = None /\ stub_ c' = None /\ connected_ c' = false /\
  forallb (fun e => negb (is_transport e)) (events_since w w') = true /\
  sent c' = u64 (Z.of_nat (length (popped_items (events_since w w')))) /\
  (single_consumer (sched w) ->
   exists used acc,
     sched w = used ++ sched w' /\ subseq acc (offered used) /\
     popped_items (events_since w w') = queue_ (queue w) ++ acc).
Proof.
  intro H.
  pose proof (fed_network_thread server true w) as Hfed. rewrite H in Hfed.
  simpl in Hfed.
  pose proof (NetFacts.simulate_spec _ (new_client server) w eq_refl) as Hsp.
  unfold network_thread, network_thread_via in H. cbv zeta in H.
  unfold bind at 1 in H.
  destruct (simulate (new_client server) w) as [c1 w1|w1|w1] eqn:Hsim;
    try discriminate H.
  destruct Hsp as (evs0 & Ht0 & Htr & Hsent).
  apply simulate_flow in Hsim.
  destruct Hsim as (evs & l1 & l2 & Ht & Hs & Hq & _ & Hc & Hst & Hco & _).
  unfold bind, print, emit, ret in H. inversion H; subst c' w'. clear H.
  simpl in *.
  assert (He : forall line,
            events_since w
              (mkWorld (queue w1) (running w1) (sched w1) (clock w1)
                       (trace w1 ++ [EPrint line])) = evs0 ++ [EPrint line]).
  { intro line. unfold events_since. cbn [trace].
    apply NetFacts.events_since_app. rewrite Ht0, <- app_assoc. reflexivity. }
  rewrite He.
  split; [exact Hs|]. split; [exact Hq|]. split; [exact Hc|].
  split; [exact Hst|]. split; [exact Hco|]. split.
  { apply NetFacts.forallb_app_true; [exact Htr|reflexivity]. }
  split.
  { unfold sent. rewrite Hsent, popped_items_app. simpl.
    rewrite app_nil_r, count_popped_length. reflexivity. }
  intro Hsc. destruct (Hfed Hsc) as (used & acc & evs1 & Hu & Ht1 & Ha & Hqq & _).
  exists used, acc. split; [exact Hu|]. split; [exact Ha|].
  simpl in Ht1. rewrite Ht0, <- app_assoc in Ht1.
  apply app_inv_head in Ht1. rewrite Ht1. simpl in Hqq.
  rewrite Hq, app_nil_r in Hqq. symmetry. exact Hqq.
Qed.

(** X6 (a progress line every 60 packets).  When network_thread returns in
    Simulate mode having popped n packets, n below 2^64, it has printed
    n / 60 progress lines, between the two lines of simulate and before
    its own last line. *)
Theorem progress_line_every_sixty (server : string) w c' w' :
  network_thread server true w = Done c' w' ->
  (Z.of_nat (length (popped_items (events_since w w'))) < 2 ^ 64)%Z ->
  Z.of_nat (count (@is_print Packet) (events_since w w')) =
    (3 + Z.of_nat (length (popped_items (events_since w w'))) / 60)%Z.
Proof.
  intros H Hlt.
  unfold network_thread, network_thread_via in H. cbv zeta in H.
  unfold bind at 1 in H.
  destruct (simulate (new_client server) w) as [c1 w1|w1|w1] eqn:Hsim;
    try discriminate H.
  apply simulate_flow in Hsim.
  destruct Hsim as (evs & l1 & l2 & Ht & _ & _ & _ & _ & _ & _ & Hcount).
  unfold bind, print, emit, ret in H. inversion H; subst c' w'. clear H.
  assert (He : forall line,
            events_since w
              (mkWorld (queue w1) (running w1) (sched w1) (clock w1)
                       (trace w1 ++ [EPrint line])) =
            [EPrint l1] ++ evs ++ [EPrint l2] ++ [EPrint line]).
  { intro line. unfold events_since. cbn [trace].
    apply NetFacts.events_since_app. rewrite Ht, <- !app_assoc. reflexivity. }
  rewrite He in *.
  simpl app in Hlt. simpl app.
  assert (Hp' : forall line,
            popped_items (EPrint l1 :: evs ++ [EPrint l2; EPrint line]) =
            popped_items evs).
  { intro line. simpl. rewrite popped_items_app. simpl.
    rewrite app_nil_r. reflexivity. }
  rewrite Hp' in *. simpl in Hcount.
  destruct Hcount as (Hs & Hpr); [lia|lia|].
  assert (Hc : forall line,
            count (@is_print Packet)
              (EPrint l1 :: evs ++ [EPrint l2; EPrint line]) =
            S (count (@is_print Packet) evs + 2)).
  { intro line. unfold count. simpl. rewrite filter_app, length_app.
    reflexivity. }
  rewrite Hc, Nat2Z.inj_succ, Nat2Z.inj_add, Hpr, Hs.
  change (0 / 60)%Z with 0%Z. lia.
Qed.

(* --------------------------------------------------------------------- *)

Lemma neutral_prints (lines : list string) :
  neutral (map (@EPrint Packet) lines).
Proof.
  destruct (prints_only lines) as (H1 & H2 & H3 & H4 & _).
  repeat split; assumption.
Qed.

Lemma neutral_app (l1 l2 : list (event Packet)) : neutral l1 -> neutral l2 -> neutral (l1 ++ l2).
Proof.
  intros (A1 & A2 & A3 & A4) (B1 & B2 & B3 & B4). unfold neutral.
  rewrite NetFacts.written_app, written_ok_app, popped_items_app, forallb_app,
    A1, A2, A3, A4, B1, B2, B3, B4. auto.
Qed.

(** What a stretch of events reads as, between two neutral stretches. *)
Lemma readings_between (l1 evs l2 : list (event Packet)) :
  neutral l1 -> neutral l2 ->
  written (l1 ++ evs ++ l2) = written evs /\
  written_ok (l1 ++ evs ++ l2) = written_ok evs /\
  popped_items (l1 ++ evs ++ l2) = popped_items evs /\
  forallb (fun e => negb (is_failed_write e)) (l1 ++ evs ++ l2) =
    forallb (fun e => negb (is_failed_write e)) evs.
Proof.
  intros (A1 & A2 & A3 & A4) (B1 & B2 & B3 & B4).
  rewrite !NetFacts.written_app, !written_ok_app, !popped_items_app,
    !forallb_app, A1, A2, A3, A4, B1, B2, B3, B4, !app_nil_r, andb_true_r.
  auto.
Qed.

(** The loop of stream: each packet popped is handed to Write at once. *)
Lemma stream_loop_flow : forall fuel (wr : Writer) c w,
  u64 (sent_ c) = sent_ c ->
  match stream_loop fuel wr c w with
  | Done r w' =>
      exists evs, trace w' = trace w ++ evs /\
        written evs = popped_items evs /\
        sent_ (snd r) = u64 (sent_ c + Z.of_nat (length (written_ok evs))) /\
        ((forallb (fun e => negb (is_failed_write e)) evs = true /\
          written_ok evs = popped_items evs /\
          shutdown_ (queue w') = true /\ queue_ (queue w') = []) \/
         (forallb (fun e => negb (is_failed_write e)) evs = false /\
          exists p, popped_items evs = written_ok evs ++ [p]))
  | Pending w' =>
      exists evs, trace w' = trace w ++ evs /\
        written evs = popped_items evs /\
        written_ok evs = popped_items evs /\
        forallb (fun e => negb (is_failed_write e)) evs = true
  | Fault _ => False
  end.
Proof.
  induction fuel as [|fuel IH]; intros wr c w Hc.
  - simpl. exists []. rewrite app_nil_r. auto.
  - cbn [stream_loop]. unfold bind at 1.
    pose proof (RtFacts.q_pop_spec _ w) as Hp.
    destruct (q_pop w) as [[p|] w1|w1|w1] eqn:Hpop.
    + destruct Hp as (Ht1 & _ & _).
      unfold bind at 1, write, bind at 1, emit, ret.
      destruct (Write wr p) as [ok wr1] eqn:Hw.
      destruct ok; cbn [fst snd negb]; cbv beta.
      * unfold bind at 1.
        match goal with |- context [q_size_call ?w2] =>
          pose proof (RtFacts.q_size_spec _ w2) as Hz;
          destruct (q_size_call w2) as [n w3|w3|w3] end; simpl in Hz.
        -- destruct Hz as (Ht3 & _ & _). unfold bind at 1.
           destruct (log_progress_lines c n w3) as (lines & -> & _).
           destruct (neutral_prints lines) as (N1 & N2 & N3 & N4).
           match goal with |- context [stream_loop fuel wr1 ?c2 ?w4] =>
             specialize (IH wr1 c2 w4 (NetFacts.u64_idem _));
             destruct (stream_loop fuel wr1 c2 w4) as [r w'|w'|w'] end;
             simpl in IH.
           ++ destruct IH as (evs' & Ht & Hwp & Hsent & Hend).
              exists ([EPop (Some p); EWrite p true; ESize n]
                      ++ map (@EPrint Packet) lines ++ evs').
              split; [rewrite Ht, Ht3, Ht1, <- !app_assoc; reflexivity|].
              rewrite !NetFacts.written_app, !popped_items_app,
                !written_ok_app, !forallb_app, N1, N2, N3, N4. simpl.
              split; [rewrite Hwp; reflexivity|].
              split; [rewrite Hsent; apply NetFacts.u64_succ|].
              destruct Hend as [(Hok & Hwo & Hs & Hq)|(Hok & p' & Hpp)].
              ** left. rewrite Hok, Hwo. auto.
              ** right. rewrite Hok. split; [reflexivity|].
                 exists p'. rewrite Hpp. reflexivity.
           ++ destruct IH as (evs' & Ht & Hwp & Hwo & Hok).
              exists ([EPop (Some p); EWrite p true; ESize n]
                      ++ map (@EPrint Packet) lines ++ evs').
              split; [rewrite Ht, Ht3, Ht1, <- !app_assoc; reflexivity|].
              rewrite !NetFacts.written_app, !popped_items_app,
                !written_ok_app, !forallb_app, N1, N2, N3, N4. simpl.
              rewrite Hwp, Hwo, Hok. auto.
           ++ exact IH.
        -- destruct Hz as (Ht3 & _ & _). simpl in Ht3.
           exists [EPop (Some p); EWrite p true].
           rewrite Ht3, Ht1, <- app_assoc. auto.
        -- exact Hz.
      * simpl. exists [EPop (Some p); EWrite p false].
        split; [rewrite Ht1, <- app_assoc; reflexivity|].
        split; [reflexivity|].
        split; [simpl; rewrite Z.add_0_r; symmetry; exact Hc|].
        right. split; [reflexivity|].
        exists p. reflexivity.
    + destruct Hp as (Ht1 & _ & _). simpl.
      destruct (q_pop_none w w1 Hpop) as (Hs & Hq).
      exists [EPop None]. split; [exact Ht1|]. split; [reflexivity|].
      split; [simpl; rewrite Z.add_0_r; symmetry; exact Hc|].
      left. auto.
    + destruct Hp as (Ht1 & _ & _). exists []. rewrite app_nil_r. auto.
    + exact Hp.
Qed.

(** stream on a connected client. *)
Lemma stream_flow c (stub : Stub) w :
  connected_ c = true -> stub_ c = Some stub -> u64 (sent_ c) = sent_ c ->
  match stream c w with
  | Done c' w' =>
      exists evs tail,
        trace w' = trace w ++ evs ++ tail /\ neutral tail /\
        written evs = popped_items evs /\
        sent_ c' = u64 (sent_ c + Z.of_nat (length (written_ok evs))) /\
        ((forallb (fun e => negb (is_failed_write e)) evs = true /\
          written_ok evs = popped_items evs /\
          shutdown_ (queue w') = true /\ queue_ (queue w') = []) \/
         (forallb (fun e => negb (is_failed_write e)) evs = false /\
          exists p, popped_items evs = written_ok evs ++ [p]))
  | Pending w' =>
      exists evs, trace w' = trace w ++ evs /\
        written evs = popped_items evs /\
        written_ok evs = popped_items evs /\
        forallb (fun e => negb (is_failed_write e)) evs = true
  | Fault _ => False
  end.
Proof.
  intros Hconn Hstub Hc.
  unfold stream. rewrite Hconn, Hstub. cbn [negb]. cbv zeta.
  unfold bind at 1. cbv beta.
  pose proof (stream_loop_flow (S (length (sched w))) (StreamTelemetry stub)
                c w Hc) as H.
  destruct (stream_loop _ _ c w) as [[wr' c1] w1|w1|w1]; simpl in H.
  - destruct H as (evs & Ht & Hwp & Hsent & Hend).
    unfold bind, emit, print, emit, ret. simpl.
    eexists evs, [_; _; _].
    split; [rewrite Ht, <- !app_assoc; reflexivity|].
    split; [repeat split|]. split; [exact Hwp|].
    split; [exact Hsent|exact Hend].
  - exact H.
  - exact H.
Qed.

(** Live mode, whatever the result: the events since the start, read
    through the line of connect and the lines after the loop. *)
Lemma live_mode_flow (server : string) w :
  match network_thread server false w with
  | Done c' w' =>
      exists evs,
        written (events_since w w') = written evs /\
        written_ok (events_since w w') = written_ok evs /\
        popped_items (events_since w w') = popped_items evs /\
        forallb (fun e => negb (is_failed_write e)) (events_since w w') =
          forallb (fun e => negb (is_failed_write e)) evs /\
        written evs = popped_items evs /\
        sent_ c' = u64 (Z.of_nat (length (written_ok evs))) /\
        ((forallb (fun e => negb (is_failed_write e)) evs = true /\
          written_ok evs = popped_items evs /\
          shutdown_ (queue w') = true /\ queue_ (queue w') = []) \/
         (forallb (fun e => negb (is_failed_write e)) evs = false /\
          exists p, popped_items evs = written_ok evs ++ [p]))
  | Pending w' =>
      written (events_since w w') = popped_items (events_since w w') /\
      written_ok (events_since w w') = popped_items (events_since w w') /\
      forallb (fun e => negb (is_failed_write e)) (events_since w w') = true
  | Fault _ => False
  end.
Proof.
  rewrite MainFacts.live_mode_always_streams. unfold bind at 1.
  match goal with |- context [stream ?c0 ?w0] =>
    pose proof (stream_flow c0 (NewStub (CreateChannel server)) w0
                  eq_refl eq_refl eq_refl) as H;
    destruct (stream c0 w0) as [c1 w1|w1|w1] end; cbn [trace] in H.
  - destruct H as (evs & tail & Ht & Hn & Hwp & Hsent & Hend).
    unfold bind, print, emit, ret. simpl in Hsent.
    exists evs.
    assert (He : forall line,
              events_since w
                (mkWorld (queue w1) (running w1) (sched w1) (clock w1)
                         (trace w1 ++ [EPrint line])) =
              map (@EPrint Packet) ["[Network] Connected to " ++ server]%string
              ++ evs ++ (tail ++ map (@EPrint Packet) [line])).
    { intro line. unfold events_since. cbn [trace].
      apply NetFacts.events_since_app. rewrite Ht, <- !app_assoc.
      reflexivity. }
    rewrite He.
    destruct (readings_between
                (map (@EPrint Packet)
                     ["[Network] Connected to " ++ server]%string)
                evs
                (tail ++ map (@EPrint Packet)
                   [("[Network] Sent " ++ dec (sent c1) ++ " packets")%string])
                (neutral_prints _)
                (neutral_app _ _ Hn (neutral_prints _)))
      as (R1 & R2 & R3 & R4).
    rewrite R1, R2, R3, R4. cbn [queue].
    repeat (split; [reflexivity || assumption|]). exact Hend.
  - destruct H as (evs & Ht & Hwp & Hwo & Hok). cbn [final].
    assert (He : events_since w w1 =
              map (@EPrint Packet) ["[Network] Connected to " ++ server]%string
              ++ evs ++ []).
    { unfold events_since. apply NetFacts.events_since_app.
      rewrite Ht, app_nil_r, <- !app_assoc. reflexivity. }
    rewrite He.
    destruct (readings_between
                (map (@EPrint Packet)
                     ["[Network] Connected to " ++ server]%string)
                evs [] (neutral_prints _) (neutral_prints []))
      as (R1 & R2 & R3 & R4).
    rewrite R1, R2, R3, R4. auto.
  - exact H.
Qed.

(** X7 (Live mode passes the packets on).  In Live mode, at any point of a
    run where the thread is waiting on the queue or has returned: the
    packets handed to Write are the packets popped, each once, in the order
    in which they were popped.  All of them have been delivered as long as
    no Write has failed; after a failed Write all but the last have been,
    and nothing more is popped. *)
Theorem live_mode_passes_packets_on (server : string) w :
  written (events_since w (final (network_thread server false w))) =
    popped_items (events_since w (final (network_thread server false w))) /\
  (forallb (fun e => negb (is_failed_write e))
     (events_since w (final (network_thread server false w))) = true ->
   written_ok (events_since w (final (network_thread server false w))) =
     popped_items (events_since w (final (network_thread server false w)))) /\
  (forallb (fun e => negb (is_failed_write e))
     (events_since w (final (network_thread server false w))) = false ->
   exists p,
     popped_items (events_since w (final (network_thread server false w))) =
       written_ok (events_since w (final (network_thread server false w)))
       ++ [p]).
Proof.
  pose proof (live_mode_flow server w) as H.
  destruct (network_thread server false w) as [c' w'|w'|w']; cbn [final].
  - destruct H as (evs & R1 & R2 & R3 & R4 & Hwp & _ & Hend).
    rewrite R1, R2, R3, R4. split; [exact Hwp|].
    destruct Hend as [(Hok & Hwo & _)|(Hok & p & Hp)]; rewrite Hok.
    + split; [intros _; exact Hwo|discriminate].
    + split; [discriminate|intros _; exists p; exact Hp].
  - destruct H as (H1 & H2 & H3). rewrite H3.
    split; [exact H1|]. split; [intros _; exact H2|discriminate].
  - destruct H.
Qed.

(** X8 (what Live mode reports).  When network_thread returns in Live
    mode, the count it reports is the number of packets whose Write
    succeeded (modulo 2^64).  If no Write failed, the queue is then closed
    and empty and every packet popped was delivered; if one failed, one
    packet was popped and not delivered, the last. *)
Theorem live_mode_report (server : string) w c' w' :
  network_thread server false w = Done c' w' ->
  sent c' = u64 (Z.of_nat (length (written_ok (events_since w w')))) /\
  (forallb (fun e => negb (is_failed_write e)) (events_since w w') = true ->
   shutdown_ (queue w') = true /\ queue_ (queue w') = [] /\
   length (written_ok (events_since w w')) =
     length (popped_items (events_since w w'))) /\
  (forallb (fun e => negb (is_failed_write e)) (events_since w w') = false ->
   length (popped_items (events_since w w')) =
     S (length (written_ok (events_since w w')))).
Proof.
  intro Hr. pose proof (live_mode_flow server w) as H. rewrite Hr in H.
  destruct H as (evs & R1 & R2 & R3 & R4 & Hwp & Hsent & Hend).
  rewrite R2, R3, R4. split; [exact Hsent|].
  destruct Hend as [(Hok & Hwo & Hs & Hq)|(Hok & p & Hp)]; rewrite Hok.
  - split; [intros _|discriminate]. rewrite Hwo. auto.
  - split; [discriminate|intros _].
    rewrite Hp, length_app. simpl. lia.
Qed.

(** X9 (no null stub is dereferenced).  network_thread does not run into
    undefined behaviour, in either mode, whatever the schedule and the
    gRPC library; and stream called on a client that connect has not been
    called on does what simulate does, without touching the stub. *)
Theorem no_null_stub (server : string) (flag : bool) w :
  (forall w', network_thread server flag w <> Fault w') /\
  (forall c, connected_ c = false ->
     stream c w = simulate c w /\ forall w', stream c w <> Fault w').
Proof.
  split.
  - intros w' Hf. destruct flag.
    + unfold network_thread, network_thread_via in Hf. cbv zeta in Hf.
      unfold bind at 1 in Hf.
      pose proof (NetFacts.simulate_spec _ (new_client server) w eq_refl) as H.
      destruct (simulate (new_client server) w) as [c1 w1|w1|w1];
        [discriminate Hf|discriminate Hf|exact H].
    + pose proof (live_mode_flow server w) as H. rewrite Hf in H. exact H.
  - intros c Hc. unfold stream. rewrite Hc. cbn [negb].
    split; [reflexivity|]. intros w' Hf.
    (* simulate keeps clear of the stub whatever the count *)
    assert (Hs : forall fuel c0 w0 w1, simulate_loop fuel c0 w0 <> Fault w1).
    { induction fuel as [|fuel IH]; intros c0 w0 w1; [discriminate|].
      cbn [simulate_loop]. unfold bind at 1.
      pose proof (RtFacts.q_pop_spec _ w0) as Hp.
      destruct (q_pop w0) as [[p|] w2|w2|w2];
        [|discriminate|discriminate|destruct Hp].
      unfold bind at 1. pose proof (RtFacts.q_size_spec _ w2) as Hz.
      destruct (q_size_call w2) as [n w3|w3|w3];
        [|discriminate|destruct Hz].
      unfold bind at 1.
      destruct (log_progress_lines c0 n w3) as (lines & -> & _). apply IH. }
    unfold simulate, bind at 1, print at 1, emit in Hf.
    unfold bind at 1 in Hf.
    match type of Hf with context [simulate_loop ?f c ?w0] =>
      pose proof (Hs f c w0) as Hn;
      destruct (simulate_loop f c w0) as [c1 w1|w1|w1] end.
    + discriminate Hf.
    + discriminate Hf.
    + exact (Hn w1 eq_refl).
Qed.

End Facts.

(** The consumer on [Scenes.busy]: what it popped and what is left are the
    two packets queued and the two pushed meanwhile. *)
Lemma consumer_loses_nothing_busy :
  single_consumer (sched Scenes.busy) /\
  exists used acc,
    sched Scenes.busy =
      used ++ sched (final (network_thread (G := Demo.link 0)
                              "localhost:50051" true Scenes.busy)) /\
    subseq acc (offered used) /\
    queue_ (queue Scenes.busy) ++ acc =
      popped_items
        (events_since Scenes.busy
           (final (network_thread (G := Demo.link 0)
                     "localhost:50051" true Scenes.busy)))
      ++ queue_ (queue (final (network_thread (G := Demo.link 0)
                                 "localhost:50051" true Scenes.busy))) /\
    push_calls
      (events_since Scenes.busy
         (final (network_thread (G := Demo.link 0)
                   "localhost:50051" true Scenes.busy))) = [].
Proof.
  assert (Hs : single_consumer (sched Scenes.busy))
    by (vm_compute; reflexivity).
  split; [exact Hs|].
  exact (@consumer_loses_nothing string (Demo.link 0) "localhost:50051" true
           Scenes.busy Hs).
Defined.

(** Simulate mode on [Scenes.busy]: four packets popped and counted. *)
Lemma simulate_mode_returns_drained_busy :
  network_thread (G := Demo.link 0) "localhost:50051" true Scenes.busy =
    Done Scenes.busy_client Scenes.busy_end /\
  shutdown_ (queue Scenes.busy_end) = true /\
  queue_ (queue Scenes.busy_end) = [] /\
  sent Scenes.busy_client = 4%Z /\
  popped_items (events_since Scenes.busy Scenes.busy_end) =
    ["a"; "b"; "c"; "d"]%string.
Proof.
  assert (Hrun : network_thread (G := Demo.link 0) "localhost:50051" true
                   Scenes.busy = Done Scenes.busy_client Scenes.busy_end)
    by (vm_compute; reflexivity).
  split; [exact Hrun|].
  destruct (@simulate_mode_returns_drained string (Demo.link 0)
              "localhost:50051" Scenes.busy Scenes.busy_client
              Scenes.busy_end Hrun)
    as (Hs & Hq & _ & _ & _ & _ & _ & _).
  split; [exact Hs|]. split; [exact Hq|].
  split; vm_compute; reflexivity.
Defined.

(** Simulate mode on sixty-one packets: one progress line, four lines in
    all. *)
Lemma progress_line_every_sixty_long :
  network_thread (G := Demo.link 0) "localhost:50051" true Scenes.long =
    Done Scenes.long_client Scenes.long_end /\
  Z.of_nat (count (@is_print string)
              (events_since Scenes.long Scenes.long_end)) =
    (3 + Z.of_nat (length (popped_items
                             (events_since Scenes.long Scenes.long_end)))
         / 60)%Z.
Proof.
  assert (Hrun : network_thread (G := Demo.link 0) "localhost:50051" true
                   Scenes.long = Done Scenes.long_client Scenes.long_end)
    by (vm_compute; reflexivity).
  assert (Hlt : (Z.of_nat (length (popped_items
                   (events_since Scenes.long Scenes.long_end)))
                 < 2 ^ 64)%Z)
    by (vm_compute; reflexivity).
  split; [exact Hrun|].
  exact (@progress_line_every_sixty string (Demo.link 0) "localhost:50051"
           Scenes.long Scenes.long_client Scenes.long_end Hrun Hlt).
Defined.

(** Live mode over a link that carries one write: two packets popped, one
    delivered and counted. *)
Lemma live_mode_report_broken_link :
  network_thread (G := Demo.link 1) "localhost:50051" false Demo.flowing =
    Done Demo.broken_client Scenes.live_end /\
  sent Demo.broken_client =
    u64 (Z.of_nat (length (written_ok
                             (events_since Demo.flowing Scenes.live_end)))) /\
  length (popped_items (events_since Demo.flowing Scenes.live_end)) =
    S (length (written_ok (events_since Demo.flowing Scenes.live_end))).
Proof.
  assert (Hrun : network_thread (G := Demo.link 1) "localhost:50051" false
                   Demo.flowing = Done Demo.broken_client Scenes.live_end)
    by (vm_compute; reflexivity).
  assert (Hf : forallb (fun e => negb (is_failed_write e))
                 (events_since Demo.flowing Scenes.live_end) = false)
    by (vm_compute; reflexivity).
  split; [exact Hrun|].
  destruct (@live_mode_report string (Demo.link 1) "localhost:50051"
              Demo.flowing Demo.broken_client Scenes.live_end Hrun)
    as (Hsent & _ & Hlost).
  split; [exact Hsent|exact (Hlost Hf)].
Defined.

End ConsumerFacts.

(* ===================================================================== *)
(** * The consumer after shutdown: it drains and returns *)
(* ===================================================================== *)

Module ConsumerLiveness.

Import Queue Rt Net Obs Main.

Section Facts.

Variable Packet : Type.
Context {G : Grpc Packet}.

Lemma env_apply_shrinks (q : ThreadSafeQueue Packet) (o : op Packet) :
  shutdown_ q = true ->
  length (queue_ (env_apply q o)) <= length (queue_ q).
Proof.
  intro Hs. unfold env_apply.
  destruct (exec q o) as [c|r q' sigs|] eqn:He; try lia.
  apply QueueFacts.exec_effect in He.
  destruct He as (_ & Hc & _ & _ & Hq).
  destruct (Hc Hs) as (_ & Ha). rewrite Ha, app_nil_r in Hq.
  rewrite Hq, length_app. lia.
Qed.

Lemma own_turns_le_length (s : list (turn Packet)) :
  own_turns s <= length s.
Proof. unfold own_turns. apply filter_length_le. Qed.

(** On a closed queue pop returns at this thread's next turn. *)
Lemma pop_at_closed : forall (s : list (turn Packet)) (w : World Packet),
  shutdown_ (queue w) = true -> 1 <= own_turns s ->
  exists r w',
    call_at (@pop Packet) (@EPop Packet) s w = Done r w' /\
    own_turns s = S (own_turns (sched w')) /\
    shutdown_ (queue w') = true /\
    length (queue_ (queue w')) <= length (queue_ (queue w)) /\
    (r <> None -> length (queue_ (queue w')) < length (queue_ (queue w))).
Proof.
  induction s as [|t s IH]; intros w Hc Hn; [inversion Hn|].
  destruct t as [|o|].
  - clear IH. cbn [call_at].
    destruct (queue_ (queue w)) as [|x rest] eqn:Hq.
    + rewrite (QueueFacts.pop_closed_empty _ _ Hc Hq).
      eexists. eexists. split; [reflexivity|]. cbn [sched queue].
      rewrite Hq. repeat split; auto. intro H. exfalso. apply H. reflexivity.
    + rewrite (QueueFacts.pop_front _ _ x rest Hq).
      eexists. eexists. split; [reflexivity|]. cbn [sched queue queue_].
      repeat split; auto; simpl; lia.
  - cbn [call_at].
    destruct (IH (mkWorld (env_apply (queue w) o) (running w) s (clock w)
                          (trace w)))
      as (r & w' & Hr & Ht & Hs & Hl & Hlt).
    + apply RtFacts.env_apply_closed. exact Hc.
    + exact Hn.
    + pose proof (env_apply_shrinks (queue w) o Hc) as Hsh.
      cbn [queue] in Hl, Hlt.
      exists r, w'. split; [exact Hr|]. split; [exact Ht|].
      split; [exact Hs|]. split; [lia|]. intro H. specialize (Hlt H). lia.
  - cbn [call_at].
    destruct (IH (mkWorld (queue w) false s (clock w) (trace w)) Hc Hn)
      as (r & w' & Hr & Ht & Hs & Hl & Hlt).
    exists r, w'. auto.
Qed.

(** So does size, on any queue. *)
Lemma size_at_closed : forall (s : list (turn Packet)) (w : World Packet),
  shutdown_ (queue w) = true -> 1 <= own_turns s ->
  exists r w',
    call_at (fun q : ThreadSafeQueue Packet => Returns (size q) q [])
            (@ESize Packet) s w = Done r w' /\
    own_turns s = S (own_turns (sched w')) /\
    shutdown_ (queue w') = true /\
    length (queue_ (queue w')) <= length (queue_ (queue w)).
Proof.
  induction s as [|t s IH]; intros w Hc Hn; [inversion Hn|].
  destruct t as [|o|].
  - clear IH. cbn [call_at]. eexists. eexists. split; [reflexivity|].
    cbn [sched queue]. auto.
  - cbn [call_at].
    destruct (IH (mkWorld (env_apply (queue w) o) (running w) s (clock w)
                          (trace w)))
      as (r & w' & Hr & Ht & Hs & Hl).
    + apply RtFacts.env_apply_closed. exact Hc.
    + exact Hn.
    + pose proof (env_apply_shrinks (queue w) o Hc) as Hsh.
      cbn [queue] in Hl.
      exists r, w'. split; [exact Hr|]. split; [exact Ht|].
      split; [exact Hs|lia].
  - cbn [call_at].
    destruct (IH (mkWorld (queue w) false s (clock w) (trace w)) Hc Hn)
      as (r & w' & Hr & Ht & Hs & Hl).
    exists r, w'. auto.
Qed.

Lemma env_apply_grows (q : ThreadSafeQueue Packet) (o : op Packet) :
  length (queue_ (env_apply q o)) <=
  length (queue_ q) + length (offered [Env o]).
Proof.
  unfold env_apply.
  destruct (exec q o) as [c|r q' sigs|] eqn:He; try lia.
  destruct o as [p| | |]; cbn [exec] in He; cbn [offered length].
  - apply QueueMore.lift_returns in He. destruct He as (b & Hp & _).
    apply QueueFacts.push_returns in Hp.
    destruct Hp as [(_ & _ & -> & _)|(_ & _ & _ & -> & _)];
      cbn [queue_]; rewrite ?length_app; simpl; lia.
  - apply QueueMore.lift_returns in He. destruct He as (b & Hp & _).
    apply QueueFacts.pop_returns in Hp.
    destruct Hp as [(_ & _ & _ & -> & _)|(x & rest & Hq & _ & -> & _)];
      cbn [queue_]; rewrite ?Hq; simpl; lia.
  - inversion He; subst. simpl. lia.
  - inversion He; subst. lia.
Qed.

Lemma offered_cons_length (t : turn Packet) (s : list (turn Packet)) :
  length (offered (t :: s)) = length (offered [t]) + length (offered s).
Proof. destruct t as [|[p| | |]|]; reflexivity. Qed.

Lemma closes_env (pre : list (turn Packet)) (q : ThreadSafeQueue Packet)
  (o : op Packet) :
  closes (Env o :: pre) q -> closes pre (env_apply q o).
Proof.
  intros [Hs|[He|Hin]].
  - left. apply RtFacts.env_apply_closed. exact Hs.
  - left. inversion He; subst. reflexivity.
  - right. exact Hin.
Qed.

Lemma closes_me (pre : list (turn Packet)) (q : ThreadSafeQueue Packet) :
  closes (Me :: pre) q -> closes pre q.
Proof.
  intros [Hs|[He|Hin]]; [left; exact Hs|discriminate He|right; exact Hin].
Qed.

Lemma closes_sig (pre : list (turn Packet)) (q : ThreadSafeQueue Packet) :
  closes (Sig :: pre) q -> closes pre q.
Proof.
  intros [Hs|[He|Hin]]; [left; exact Hs|discriminate He|right; exact Hin].
Qed.

Lemma closes_nil (q : ThreadSafeQueue Packet) :
  closes [] q -> shutdown_ q = true.
Proof. intros [Hs|[]]. exact Hs. Qed.

Lemma ready_same (d : nat) (w w' : World Packet) :
  queue w' = queue w -> sched w' = sched w -> ready d w -> ready d w'.
Proof. unfold ready. intros -> ->. exact (fun H => H). Qed.

(** pop, from anywhere in the schedule: it returns, and when it has taken a
    packet the thread is one turn further from the end than it need be. *)
Lemma pop_ready (post : list (turn Packet)) :
  forall (pre : list (turn Packet)) (w : World Packet) (d : nat),
  closes pre (queue w) ->
  2 * (length (queue_ (queue w)) + length (offered pre)) + d
    <= own_turns post ->
  1 <= d ->
  exists r w',
    call_at (@pop Packet) (@EPop Packet) (pre ++ post) w = Done r w' /\
    (r <> None -> ready (S d) w').
Proof.
  induction pre as [|t pre IH]; intros w d Hc Hn Hd.
  - apply closes_nil in Hc. cbn [app].
    destruct (pop_at_closed post w Hc ltac:(lia))
      as (r & w' & Hr & Ho & Hc' & _ & Hlt).
    exists r, w'. split; [exact Hr|]. intro Hne. specialize (Hlt Hne).
    exists [], (sched w'). split; [reflexivity|].
    split; [left; exact Hc'|]. cbn [offered length] in *. lia.
  - destruct t as [|o|]; cbn [app call_at].
    + destruct (pop (queue w)) as [c|r q' sigs|] eqn:Hp.
      * apply (IH (mkWorld (queue w) (running w) (pre ++ post) (clock w)
                           (trace w)) d);
          [apply closes_me; exact Hc|exact Hn|exact Hd].
      * eexists. eexists. split; [reflexivity|]. intro Hne.
        apply QueueFacts.pop_returns in Hp.
        destruct Hp as [(_ & _ & -> & _)|(x & rest & Hq & _ & -> & _)];
          [exfalso; apply Hne; reflexivity|].
        exists pre, post. cbn [sched queue queue_]. split; [reflexivity|].
        split.
        -- destruct (closes_me _ _ Hc) as [Hs|Hin];
             [left; exact Hs|right; exact Hin].
        -- rewrite Hq in Hn. cbn [offered length] in Hn. simpl in Hn. lia.
      * exfalso. exact (QueueFacts.pop_defined _ _ Hp).
    + apply (IH (mkWorld (env_apply (queue w) o) (running w) (pre ++ post)
                         (clock w) (trace w)) d);
        [apply closes_env; exact Hc| |exact Hd].
      cbn [queue]. pose proof (env_apply_grows (queue w) o) as Hg.
      rewrite (offered_cons_length (Env o) pre) in Hn. lia.
    + apply (IH (mkWorld (queue w) false (pre ++ post) (clock w) (trace w)) d);
        [apply closes_sig; exact Hc|exact Hn|exact Hd].
Qed.

(** size, from anywhere in the schedule: it returns, at the cost of one
    turn at most. *)
Lemma size_ready (post : list (turn Packet)) :
  forall (pre : list (turn Packet)) (w : World Packet) (d : nat),
  closes pre (queue w) ->
  2 * (length (queue_ (queue w)) + length (offered pre)) + S d
    <= own_turns post ->
  exists n w',
    call_at (fun q : ThreadSafeQueue Packet => Returns (size q) q [])
            (@ESize Packet) (pre ++ post) w = Done n w' /\
    ready d w'.
Proof.
  induction pre as [|t pre IH]; intros w d Hc Hn.
  - apply closes_nil in Hc. cbn [app].
    destruct (size_at_closed post w Hc ltac:(lia))
      as (n & w' & Hr & Ho & Hc' & Hl).
    exists n, w'. split; [exact Hr|].
    exists [], (sched w'). split; [reflexivity|].
    split; [left; exact Hc'|]. cbn [offered length] in *. lia.
  - destruct t as [|o|]; cbn [app call_at].
    + eexists. eexists. split; [reflexivity|].
      exists pre, post. cbn [sched queue]. split; [reflexivity|].
      split; [apply closes_me; exact Hc|].
      cbn [offered] in Hn. lia.
    + apply (IH (mkWorld (env_apply (queue w) o) (running w) (pre ++ post)
                         (clock w) (trace w)) d);
        [apply closes_env; exact Hc|].
      cbn [queue]. pose proof (env_apply_grows (queue w) o) as Hg.
      rewrite (offered_cons_length (Env o) pre) in Hn. lia.
    + apply (IH (mkWorld (queue w) false (pre ++ post) (clock w) (trace w)) d);
        [apply closes_sig; exact Hc|exact Hn].
Qed.

Lemma q_pop_ready (w : World Packet) :
  ready 1 w ->
  exists r w',
    q_pop w = Done r w' /\ length (sched w') < length (sched w) /\
    (r <> None -> ready 2 w').
Proof.
  intros (pre & post & Hs & Hc & Hn).
  destruct (pop_ready post pre w 1 Hc Hn ltac:(lia)) as (r & w' & Hr & Hrd).
  pose proof (RtFacts.q_pop_spec _ w) as Hsp.
  unfold q_pop, call in *. rewrite Hs in *. rewrite Hr in Hsp.
  exists r, w'. split; [exact Hr|]. split; [tauto|exact Hrd].
Qed.

Lemma q_size_ready (w : World Packet) :
  ready 2 w ->
  exists n w',
    q_size_call w = Done n w' /\ length (sched w') < length (sched w) /\
    ready 1 w'.
Proof.
  intros (pre & post & Hs & Hc & Hn).
  destruct (size_ready post pre w 1 Hc Hn) as (n & w' & Hr & Hrd).
  pose proof (RtFacts.q_size_spec _ w) as Hsp.
  unfold q_size_call, call in *. rewrite Hs in *. rewrite Hr in Hsp.
  exists n, w'. split; [exact Hr|]. split; [tauto|exact Hrd].
Qed.

Lemma simulate_loop_returns : forall fuel (c : NetworkClient Packet) w,
  ready 1 w -> length (sched w) < fuel ->
  exists c' w', simulate_loop fuel c w = Done c' w'.
Proof.
  induction fuel as [|fuel IH]; intros c w Hrd Hf; [inversion Hf|].
  cbn [simulate_loop]. unfold bind at 1.
  destruct (q_pop_ready w Hrd) as (r & w1 & Hr & Hl1 & Hrd1).
  rewrite Hr. destruct r as [p|]; [|eexists; eexists; reflexivity].
  assert (Hrd2 : ready 2 w1) by (apply Hrd1; discriminate).
  unfold bind at 1.
  destruct (q_size_ready w1 Hrd2) as (n & w2 & Hr2 & Hl2 & Hrd3).
  rewrite Hr2. unfold bind at 1.
  destruct (ConsumerFacts.log_progress_lines Packet c n w2)
    as (lines & -> & _).
  apply IH; [|cbn [sched]; lia].
  apply (ready_same 1 w2); [reflexivity|reflexivity|exact Hrd3].
Qed.

Lemma stream_loop_returns : forall fuel (wr : Writer)
    (c : NetworkClient Packet) w,
  ready 1 w -> length (sched w) < fuel ->
  exists r w', stream_loop fuel wr c w = Done r w'.
Proof.
  induction fuel as [|fuel IH]; intros wr c w Hrd Hf; [inversion Hf|].
  cbn [stream_loop]. unfold bind at 1.
  destruct (q_pop_ready w Hrd) as (r & w1 & Hr & Hl1 & Hrd1).
  rewrite Hr. destruct r as [p|]; [|eexists; eexists; reflexivity].
  assert (Hrd2 : ready 2 w1) by (apply Hrd1; discriminate).
  unfold bind at 1, write, bind at 1, emit, ret.
  destruct (negb (fst (Write wr p))); [eexists; eexists; reflexivity|].
  unfold bind at 1.
  match goal with |- context [q_size_call ?w0] =>
    destruct (q_size_ready w0) as (n & w2 & Hr2 & Hl2 & Hrd3);
      [apply (ready_same 2 w1); [reflexivity|reflexivity|exact Hrd2]|] end.
  rewrite Hr2. cbn [sched] in Hl2. unfold bind at 1.
  destruct (ConsumerFacts.log_progress_lines Packet c n w2)
    as (lines & -> & _).
  apply IH; [|cbn [sched]; lia].
  apply (ready_same 1 w2); [reflexivity|reflexivity|exact Hrd3].
Qed.

(** X10 (the consumer returns once the queue is closed).  Let the queue
    be closed when network_thread starts, or let another thread call
    shutdown at some point of the run.  Then network_thread returns, in
    either mode, whatever the other threads do and whatever the gRPC
    library answers, provided that from that point on it is given 2 n + 1
    turns, where n is the number of packets queued at the start plus the
    number of packets that other threads push up to that point. *)
Theorem consumer_returns_after_shutdown (server : string) (flag : bool) w
  (pre post : list (turn Packet)) :
  sched w = pre ++ post ->
  shutdown_ (queue w) = true \/ In (Env (@Shutdown Packet)) pre ->
  2 * (length (queue_ (queue w)) + length (offered pre)) + 1
    <= own_turns post ->
  exists c' w', network_thread server flag w = Done c' w'.
Proof.
  intros Hs Hc Ho.
  assert (Hrd : forall tr,
            ready 1 (mkWorld (queue w) (running w) (sched w) (clock w) tr)).
  { intro tr. exists pre, post. cbn [sched queue]. auto. }
  assert (Hsim : forall (c : NetworkClient Packet) tr,
            exists c' w',
              simulate c (mkWorld (queue w) (running w) (sched w) (clock w) tr)
              = Done c' w').
  { intros c tr. unfold simulate, bind at 1, print at 1, emit.
    cbn [queue running sched clock trace]. unfold bind at 1.
    match goal with |- context [simulate_loop ?f c ?w0] =>
      assert (Hx : exists c1 w1, simulate_loop f c w0 = Done c1 w1)
        by (apply simulate_loop_returns; [apply Hrd|cbn [sched]; lia]) end.
    destruct Hx as (c1 & w1 & Hr). rewrite Hr. eexists. eexists. reflexivity. }
  destruct flag.
  - unfold network_thread, network_thread_via. cbv zeta. unfold bind at 1.
    destruct (Hsim (new_client server) (trace w)) as (c1 & w1 & Hr).
    destruct w as [q rn s ck tr]. cbn [queue running sched clock trace] in Hr.
    rewrite Hr. eexists. eexists. reflexivity.
  - rewrite MainFacts.live_mode_always_streams. unfold bind at 1.
    unfold stream. cbn [connected_ negb stub_]. cbv zeta. unfold bind at 1.
    match goal with |- context [stream_loop ?f ?wr ?c ?w0] =>
      assert (Hx : exists r1 w1, stream_loop f wr c w0 = Done r1 w1)
        by (apply stream_loop_returns; [apply Hrd|cbn [sched]; lia]) end.
    destruct Hx as (r1 & w1 & Hr). rewrite Hr. eexists. eexists. reflexivity.
Qed.

End Facts.

(** On [Scenes.late_close]: one packet queued, the queue closed by another
    thread after the consumer's first turn, and three turns from there. *)
Lemma consumer_returns_after_shutdown_late :
  sched Scenes.late_close =
    [Me; Env (@Shutdown string)] ++ [Me; Me; Me] /\
  In (Env (@Shutdown string)) [Me; Env (@Shutdown string)] /\
  exists c' w',
    network_thread (G := Demo.link 1) "localhost:50051" false
      Scenes.late_close = Done c' w'.
Proof.
  assert (Hs : sched Scenes.late_close =
               [Me; Env (@Shutdown string)] ++ [Me; Me; Me]) by reflexivity.
  assert (Hin : In (Env (@Shutdown string)) [Me; Env (@Shutdown string)])
    by (right; left; reflexivity).
  assert (Ho : 2 * (length (queue_ (queue Scenes.late_close)) +
                    length (offered [Me; Env (@Shutdown string)])) + 1
               <= own_turns [@Me string; Me; Me])
    by (vm_compute; lia).
  split; [exact Hs|]. split; [exact Hin|].
  exact (@consumer_returns_after_shutdown string (Demo.link 1)
           "localhost:50051" false Scenes.late_close
           [Me; Env (@Shutdown string)] [Me; Me; Me] Hs (or_intror Hin) Ho).
Defined.

End ConsumerLiveness.

(* ===================================================================== *)
(** * The producer: physics_thread *)
(* ===================================================================== *)

Module ProducerFacts.

Import Queue Rt Net Sensor Obs Main.

Section Facts.

Variable Packet : Type.
Variable make_packet : string -> Z -> Packet.

Implicit Types (w : World Packet) (l : list (event Packet)).

Lemma pushed_ok_app (a b : list (event Packet)) :
  pushed_ok (a ++ b) = pushed_ok a ++ pushed_ok b.
Proof.
  induction a as [|e a IH]; [reflexivity|].
  destruct e as [p [|]|r|n|line|p ok| |st|ns]; simpl; rewrite IH; reflexivity.
Qed.

Lemma idle_nil : idle (@nil (event Packet)).
Proof. repeat split. Qed.

Lemma idle_app (a b : list (event Packet)) :
  idle a -> idle b -> idle (a ++ b).
Proof.
  intros (A1 & A2 & A3 & A4 & A5) (B1 & B2 & B3 & B4 & B5). unfold idle.
  rewrite (ConsumerFacts.push_calls_app Packet), pushed_ok_app,
    (ConsumerFacts.popped_items_app Packet), NetFacts.written_app,
    MainFacts.sleeps_app, A1, A2, A3, A4, A5, B1, B2, B3, B4, B5.
  auto.
Qed.

(** What a stretch of events reads as, after one event and an idle stretch. *)
Lemma readings_after (e : event Packet) (a b : list (event Packet)) :
  idle a ->
  push_calls ([e] ++ a ++ b) = push_calls [e] ++ push_calls b /\
  pushed_ok ([e] ++ a ++ b) = pushed_ok [e] ++ pushed_ok b /\
  popped_items ([e] ++ a ++ b) = popped_items [e] ++ popped_items b /\
  written ([e] ++ a ++ b) = written [e] ++ written b /\
  sleeps ([e] ++ a ++ b) = sleeps [e] ++ sleeps b.
Proof.
  intros (A1 & A2 & A3 & A4 & A5).
  rewrite !(ConsumerFacts.push_calls_app Packet), !pushed_ok_app,
    !(ConsumerFacts.popped_items_app Packet), !NetFacts.written_app,
    !MainFacts.sleeps_app, A1, A2, A3, A4, A5.
  auto.
Qed.

(** The flag as load_running returns it is the flag as it is then. *)
Lemma load_at_running : forall (s : list (turn Packet)) w b w',
  load_at s w = Done b w' ->
  running w' = b /\ trace w' = trace w.
Proof.
  induction s as [|t s IH]; intros w b w' H; [discriminate H|].
  destruct t as [|o|]; cbn [load_at] in H.
  - inversion H; subst. simpl. auto.
  - apply IH in H. exact H.
  - apply IH in H. exact H.
Qed.

(** push returns false only on a closed queue, and then leaves it as it
    is. *)
Lemma q_push_refused (p : Packet) w w' :
  q_push p w = Done false w' -> shutdown_ (queue w') = true.
Proof.
  unfold q_push, call. intro H.
  apply RtFacts.call_at_env in H. destruct H as (pre & sigs & _ & Hp).
  apply QueueFacts.push_returns in Hp.
  destruct Hp as [(Hs & _ & Hq & _)|(_ & _ & Hb & _)]; [|discriminate Hb].
  rewrite Hq. exact Hs.
Qed.

(** Lines 32-35: the progress line of the producer. *)
Lemma report_flow (b : bool) (line : N -> string) w :
  match (if b then bind q_size_call (fun n => print (line n))
         else ret tt) w with
  | Done _ w' => exists evs, trace w' = trace w ++ evs /\ idle evs
  | Pending w' => trace w' = trace w
  | Fault _ => False
  end.
Proof.
  destruct b.
  - unfold bind. pose proof (RtFacts.q_size_spec _ w) as H.
    destruct (q_size_call w) as [n w1|w1|w1].
    + destruct H as (Ht & _). unfold print, emit. cbn [trace].
      exists [ESize n; EPrint (line n)]. rewrite Ht, <- app_assoc.
      split; [reflexivity|]. repeat split.
    + tauto.
    + exact H.
  - exists []. rewrite app_nil_r. split; [reflexivity|apply idle_nil].
Qed.

Lemma stamped_cons (id : string) (t : Z) (n : nat) :
  u64 t = t ->
  make_packet id t :: stamped make_packet id (u64 (t + 1)) n =
    stamped make_packet id t (S n).
Proof.
  intro Ht. unfold stamped. cbn [seq map].
  rewrite Z.add_0_r, Ht. f_equal.
  rewrite <- seq_shift, map_map. apply map_ext. intro k.
  rewrite NetFacts.u64_succ. reflexivity.
Qed.

(** The producer's loop, whatever its result. *)
Lemma physics_loop_flow : forall fuel (sensor : SensorGenerator) w r,
  u64 (tick_ sensor) = tick_ sensor ->
  physics_loop make_packet fuel sensor w = r ->
  exists evs,
    trace (final r) = trace w ++ evs /\
    push_calls evs =
      stamped make_packet (vehicle_id_ sensor) (tick_ sensor)
              (length (push_calls evs)) /\
    popped_items evs = [] /\ written evs = [] /\
    match r with
    | Done s w' =>
        vehicle_id_ s = vehicle_id_ sensor /\
        tick_ s = u64 (tick_ sensor + Z.of_nat (length (push_calls evs))) /\
        length (sleeps evs) = length (pushed_ok evs) /\
        ((pushed_ok evs = push_calls evs /\ running w' = false) \/
         (exists p, push_calls evs = pushed_ok evs ++ [p] /\
                    shutdown_ (queue w') = true))
    | Pending w' =>
        pushed_ok evs = push_calls evs /\
        length (sleeps evs) <= length (pushed_ok evs) <= S (length (sleeps evs))
    | Fault _ => False
    end.
Proof.
  induction fuel as [|fuel IH]; intros sensor w r Hu Hr.
  { subst r. exists []. cbn [physics_loop final]. rewrite app_nil_r.
    repeat split; simpl; auto. }
  cbn [physics_loop] in Hr. unfold bind at 1, load_running in Hr.
  destruct (load_at (sched w) w) as [b w1|w1|w1] eqn:Hload.
  2: { pose proof (RtFacts.load_at_spec _ (sched w) w) as H.
       rewrite Hload in H. destruct H as (Ht & _).
       subst r. exists []. cbn [final]. rewrite app_nil_r.
       repeat split; simpl; auto. }
  2: { pose proof (RtFacts.load_at_spec _ (sched w) w) as H.
       rewrite Hload in H. destruct H. }
  apply load_at_running in Hload. destruct Hload as (Hrun & Ht1).
  destruct b; cbn [negb] in Hr.
  2: { subst r. exists []. unfold ret. cbn [final]. rewrite app_nil_r.
       split; [exact Ht1|]. split; [reflexivity|].
       split; [reflexivity|]. split; [reflexivity|].
       split; [reflexivity|]. simpl. rewrite Z.add_0_r.
       split; [symmetry; exact Hu|]. split; [reflexivity|].
       left. split; [reflexivity|exact Hrun]. }
  unfold bind at 1, now at 1 in Hr.
  destruct (clock w1) as [|start rest] eqn:Hck1.
  { subst r. exists []. cbn [final]. rewrite app_nil_r.
    split; [exact Ht1|]. repeat split; simpl; auto. }
  cbv zeta in Hr. unfold bind at 1 in Hr.
  match type of Hr with context [q_push ?p ?w2] =>
    pose proof (RtFacts.q_push_spec _ p w2) as H3;
    destruct (q_push p w2) as [ok w3|w3|w3] eqn:Hpush end.
  2: { destruct H3 as (Ht3 & _). cbn [trace] in Ht3.
       subst r. exists []. cbn [final]. rewrite app_nil_r.
       split; [congruence|]. repeat split; simpl; auto. }
  2: { destruct H3. }
  destruct H3 as (Ht3 & _). cbn [trace] in Ht3.
  destruct ok; cbn [negb] in Hr.
  2: { apply q_push_refused in Hpush.
       subst r. exists [EPush (fst (generate make_packet sensor)) false].
       unfold ret. cbn [final].
       split; [congruence|]. cbn [generate fst snd push_calls length].
       split; [rewrite <- (stamped_cons _ _ 0 Hu); reflexivity|].
       split; [reflexivity|]. split; [reflexivity|].
       split; [reflexivity|]. split; [reflexivity|].
       split; [reflexivity|]. right.
       exists (make_packet (vehicle_id_ sensor) (tick_ sensor)).
       split; [reflexivity|exact Hpush]. }
  clear Hpush.
  unfold bind at 1 in Hr.
  match type of Hr with context [(if ?b then ?m1 else ?m2) w3] =>
    pose proof (report_flow b
      (fun n => ("[Physics] Tick "
                 ++ dec (tick (snd (generate make_packet sensor)))
                 ++ " | Queue: " ++ dec (Z.of_N n))%string) w3) as H4;
    change ((if b then bind q_size_call
               (fun n => print ("[Physics] Tick "
                 ++ dec (tick (snd (generate make_packet sensor)))
                 ++ " | Queue: " ++ dec (Z.of_N n))%string)
             else ret tt) w3)
      with ((if b then m1 else m2) w3) in H4;
    destruct ((if b then m1 else m2) w3) as [u w4|w4|w4] end.
  2: { subst r. exists [EPush (fst (generate make_packet sensor)) true].
       cbn [final]. split; [congruence|].
       cbn [generate fst snd push_calls pushed_ok length sleeps].
       split; [rewrite <- (stamped_cons _ _ 0 Hu); reflexivity|].
       repeat split; simpl; auto. }
  2: { destruct H4. }
  destruct H4 as (evs4 & Ht4 & Hidle).
  unfold bind at 1, now at 1 in Hr.
  destruct (clock w4) as [|finish rest'] eqn:Hck4.
  { subst r.
    exists ([EPush (fst (generate make_packet sensor)) true] ++ evs4 ++ []).
    cbn [final]. rewrite app_nil_r at 1.
    split; [rewrite Ht4, Ht3, Ht1, <- app_assoc; reflexivity|].
    destruct (readings_after
                (EPush (fst (generate make_packet sensor)) true) evs4 []
                Hidle) as (R1 & R2 & R3 & R4 & R5).
    rewrite R1, R2, R3, R4, R5.
    cbn [generate fst snd push_calls pushed_ok length sleeps app
         popped_items written].
    split; [rewrite <- (stamped_cons _ _ 0 Hu); reflexivity|].
    repeat split; simpl; auto. }
  unfold bind at 1, sleep_for, emit in Hr.
  match type of Hr with physics_loop make_packet fuel ?s5 ?w5 = _ =>
    destruct (IH s5 w5 r) as (evs & Ht & Hpc & Hpop & Hwr & Hres) end.
  { cbn [generate snd tick_]. apply NetFacts.u64_idem. }
  { exact Hr. }
  clear Hr. cbn [trace] in Ht.
  exists ([EPush (fst (generate make_packet sensor)) true] ++ evs4
          ++ ([ESleep (sleep_request start finish)] ++ evs)).
  split; [rewrite Ht, Ht4, Ht3, Ht1, <- !app_assoc; reflexivity|].
  destruct (readings_after
              (EPush (fst (generate make_packet sensor)) true) evs4
              ([ESleep (sleep_request start finish)] ++ evs)
              Hidle) as (R1 & R2 & R3 & R4 & R5).
  rewrite R1, R2, R3, R4, R5.
  cbn [generate fst snd push_calls pushed_ok length sleeps app
       popped_items written vehicle_id_ tick_] in *.
  split; [rewrite Hpc at 1; apply stamped_cons; exact Hu|].
  split; [exact Hpop|]. split; [exact Hwr|].
  destruct r as [s6 w6|w6|w6].
  - destruct Hres as (Hid & Htk & Hsl & Hend).
    split; [exact Hid|].
    split; [rewrite Htk; apply NetFacts.u64_succ|].
    split; [rewrite Hsl; reflexivity|].
    destruct Hend as [(Hok & Hr)|(p & Hp & Hs)].
    + left. split; [rewrite Hok; reflexivity|exact Hr].
    + right. exists p. split; [rewrite Hp; reflexivity|exact Hs].
  - destruct Hres as (Hok & Hsl). split; [rewrite Hok; reflexivity|lia].
  - exact Hres.
Qed.

(** physics_thread, whatever its result: its events are those of its loop
    and, once the loop has ended, one more line. *)
Lemma physics_thread_flow (vehicle_id : string) w r :
  physics_thread make_packet vehicle_id w = r ->
  exists evs tail,
    events_since w (final r) = evs ++ tail /\ idle tail /\
    push_calls evs =
      stamped make_packet vehicle_id 0 (length (push_calls evs)) /\
    popped_items evs = [] /\ written evs = [] /\
    match r with
    | Done s w' =>
        tail = [EPrint ("[Physics] Stopped at tick " ++ dec (tick s))%string]
        /\ vehicle_id_ s = vehicle_id /\
        tick s = u64 (Z.of_nat (length (push_calls evs))) /\
        length (sleeps evs) = length (pushed_ok evs) /\
        ((pushed_ok evs = push_calls evs /\ running w' = false) \/
         (exists p, push_calls evs = pushed_ok evs ++ [p] /\
                    shutdown_ (queue w') = true))
    | Pending w' =>
        pushed_ok evs = push_calls evs /\
        length (sleeps evs) <= length (pushed_ok evs) <= S (length (sleeps evs))
    | Fault _ => False
    end.
Proof.
  unfold physics_thread. cbv zeta. unfold bind at 1. intro Hr.
  match type of Hr with context [physics_loop make_packet ?f ?s0 w] =>
    destruct (physics_loop_flow f s0 w _ eq_refl eq_refl)
      as (evs & Ht & Hpc & Hpop & Hwr & Hres);
    destruct (physics_loop make_packet f s0 w) as [s1 w1|w1|w1] end;
    cbn [new_sensor vehicle_id_ tick_ final] in *.
  - unfold bind, print, emit, ret in Hr. subst r. cbn [final].
    exists evs. eexists. unfold events_since. cbn [trace].
    split; [apply NetFacts.events_since_app; rewrite Ht, <- app_assoc;
            reflexivity|].
    split; [repeat split|]. split; [exact Hpc|]. split; [exact Hpop|].
    split; [exact Hwr|]. split; [reflexivity|].
    destruct Hres as (Hid & Htk & Hsl & Hend). cbn [queue running].
    rewrite Z.add_0_l in Htk. auto.
  - subst r. exists evs, []. unfold events_since. cbn [final].
    split; [apply NetFacts.events_since_app; rewrite Ht, app_nil_r;
            reflexivity|].
    split; [apply idle_nil|]. auto.
  - destruct Hres.
Qed.

(** X11 (what the producer pushes).  At any point of a run of
    physics_thread, the packets it has handed to push are the packets of
    its vehicle for the ticks 0, 1, 2, ... (modulo 2^64), one each, in that
    order; every push it has made was accepted, except possibly the last;
    it has not popped and has not written to the transport; and it does not
    run into undefined behaviour. *)
Theorem producer_pushes_consecutive_ticks (vehicle_id : string) w :
  push_calls (events_since w (final (physics_thread make_packet vehicle_id w)))
    = stamped make_packet vehicle_id 0
        (length (push_calls
           (events_since w
              (final (physics_thread make_packet vehicle_id w))))) /\
  (pushed_ok (events_since w (final (physics_thread make_packet vehicle_id w)))
     = push_calls
         (events_since w (final (physics_thread make_packet vehicle_id w))) \/
   exists p,
     push_calls (events_since w
                   (final (physics_thread make_packet vehicle_id w)))
     = pushed_ok (events_since w
                    (final (physics_thread make_packet vehicle_id w)))
       ++ [p]) /\
  popped_items
    (events_since w (final (physics_thread make_packet vehicle_id w))) = [] /\
  written
    (events_since w (final (physics_thread make_packet vehicle_id w))) = [] /\
  forall w', physics_thread make_packet vehicle_id w <> Fault w'.
Proof.
  destruct (physics_thread_flow vehicle_id w _ eq_refl)
    as (evs & tail & He & (T1 & T2 & T3 & T4 & T5) & Hpc & Hpop & Hwr & Hres).
  rewrite He.
  rewrite (ConsumerFacts.push_calls_app Packet), pushed_ok_app,
    (ConsumerFacts.popped_items_app Packet), NetFacts.written_app,
    T1, T2, T3, T4, Hpop, Hwr, !app_nil_r.
  split; [exact Hpc|].
  destruct (physics_thread make_packet vehicle_id w) as [s w1|w1|w1].
  - destruct Hres as (_ & _ & _ & _ & [(Hok & _)|(p & Hp & _)]).
    + split; [left; exact Hok|]. repeat split; discriminate.
    + split; [right; exists p; exact Hp|]. repeat split; discriminate.
  - destruct Hres as (Hok & _). split; [left; exact Hok|].
    repeat split; discriminate.
  - destruct Hres.
Qed.

(** X12 (when and how the producer stops).  When physics_thread returns,
    either it has seen the flag running false and every push it made was
    accepted, or its last push was refused by the closed queue.  The tick
    it reports in its last line is the number of packets it generated
    (modulo 2^64), the refused one included; and it has called sleep_for
    once for each push that was accepted. *)
Theorem producer_stops (vehicle_id : string) w s w' :
  physics_thread make_packet vehicle_id w = Done s w' ->
  ((running w' = false /\
    pushed_ok (events_since w w') = push_calls (events_since w w')) \/
   (shutdown_ (queue w') = true /\
    exists p, push_calls (events_since w w') =
              pushed_ok (events_since w w') ++ [p])) /\
  tick s = u64 (Z.of_nat (length (push_calls (events_since w w')))) /\
  vehicle_id_ s = vehicle_id /\
  length (sleeps (events_since w w')) =
    length (pushed_ok (events_since w w')) /\
  exists evs,
    events_since w w' =
      evs ++ [EPrint ("[Physics] Stopped at tick " ++ dec (tick s))%string].
Proof.
  intro Hr.
  destruct (physics_thread_flow vehicle_id w _ Hr)
    as (evs & tail & He & (T1 & T2 & T3 & T4 & T5) & Hpc & Hpop & Hwr & Hres).
  cbn [final] in He. rewrite He.
  rewrite (ConsumerFacts.push_calls_app Packet), pushed_ok_app,
    MainFacts.sleeps_app, T1, T2, T5, !app_nil_r.
  destruct Hres as (Htail & Hid & Htk & Hsl & Hend).
  split; [destruct Hend as [(Hok & Hrun)|(p & Hp & Hs)];
          [left; auto|right; split; [exact Hs|exists p; exact Hp]]|].
  split; [exact Htk|]. split; [exact Hid|]. split; [exact Hsl|].
  exists evs. rewrite Htail. reflexivity.
Qed.

(** load_running returns at this thread's next turn. *)
Lemma load_at_turn : forall (s : list (turn Packet)) w,
  1 <= own_turns s ->
  exists b w',
    load_at s w = Done b w' /\
    own_turns s = S (own_turns (sched w')) /\
    (shutdown_ (queue w) = true -> shutdown_ (queue w') = true) /\
    clock w' = clock w /\ trace w' = trace w.
Proof.
  induction s as [|t s IH]; intros w Hn; [inversion Hn|].
  destruct t as [|o|]; cbn [load_at].
  - eexists. eexists. split; [reflexivity|]. cbn [sched queue clock trace].
    auto.
  - destruct (IH (mkWorld (env_apply (queue w) o) (running w) s (clock w)
                          (trace w)) Hn)
      as (b & w' & Hr & Ht & Hs & Hc & Htr).
    exists b, w'. split; [exact Hr|]. split; [exact Ht|].
    split; [|auto]. intro Hq. apply Hs. cbn [queue].
    apply RtFacts.env_apply_closed. exact Hq.
  - destruct (IH (mkWorld (queue w) false s (clock w) (trace w)) Hn)
      as (b & w' & Hr & Ht & Hs & Hc & Htr).
    exists b, w'. auto.
Qed.

(** On a closed queue push returns false at this thread's next turn. *)
Lemma push_at_closed (p : Packet) : forall (s : list (turn Packet)) w,
  shutdown_ (queue w) = true -> 1 <= own_turns s ->
  exists w',
    call_at (fun q => push q p) (EPush p) s w = Done false w' /\
    trace w' = trace w ++ [EPush p false].
Proof.
  induction s as [|t s IH]; intros w Hc Hn; [inversion Hn|].
  destruct t as [|o|]; cbn [call_at].
  - rewrite (QueueFacts.push_closed _ _ p Hc).
    eexists. split; reflexivity.
  - apply (IH (mkWorld (env_apply (queue w) o) (running w) s (clock w)
                       (trace w))); [|exact Hn].
    apply RtFacts.env_apply_closed. exact Hc.
  - apply (IH (mkWorld (queue w) false s (clock w) (trace w)) Hc Hn).
Qed.

Lemma own_turns_me (s : list (turn Packet)) :
  own_turns (Me :: s) = S (own_turns s).
Proof. reflexivity. Qed.

Lemma own_turns_env (o : op Packet) (s : list (turn Packet)) :
  own_turns (Env o :: s) = own_turns s.
Proof. reflexivity. Qed.

Lemma own_turns_sig (s : list (turn Packet)) :
  own_turns (@Sig Packet :: s) = own_turns s.
Proof. reflexivity. Qed.

Lemma lands_later (t : turn Packet) (pre post : list (turn Packet)) w' :
  lands pre post w' -> lands (t :: pre) post w'.
Proof.
  intros [(pre' & Hs & Hc & Ho)|H]; [left|right; exact H].
  exists pre'. split; [exact Hs|]. split; [exact Hc|].
  destruct t; rewrite ?own_turns_me, ?own_turns_env, ?own_turns_sig; lia.
Qed.

Lemma load_at_closing (post : list (turn Packet)) :
  forall (pre : list (turn Packet)) w,
  closes pre (queue w) -> 1 <= own_turns post ->
  exists b w', load_at (pre ++ post) w = Done b w' /\ lands pre post w'.
Proof.
  induction pre as [|t pre IH]; intros w Hc Hn.
  - apply (ConsumerLiveness.closes_nil Packet) in Hc. cbn [app].
    destruct (load_at_turn post w Hn) as (b & w' & Hr & Ho & Hs & _).
    exists b, w'. split; [exact Hr|]. right. auto.
  - destruct t as [|o|]; cbn [app load_at].
    + eexists. eexists. split; [reflexivity|]. left.
      exists pre. cbn [sched queue]. split; [reflexivity|].
      split; [apply (ConsumerLiveness.closes_me Packet); exact Hc|].
      rewrite own_turns_me. lia.
    + destruct (IH (mkWorld (env_apply (queue w) o) (running w) (pre ++ post)
                            (clock w) (trace w)))
        as (b & w' & Hr & Hl);
        [apply (ConsumerLiveness.closes_env Packet); exact Hc|exact Hn|].
      exists b, w'. split; [exact Hr|apply lands_later; exact Hl].
    + destruct (IH (mkWorld (queue w) false (pre ++ post) (clock w) (trace w)))
        as (b & w' & Hr & Hl);
        [apply (ConsumerLiveness.closes_sig Packet); exact Hc|exact Hn|].
      exists b, w'. split; [exact Hr|apply lands_later; exact Hl].
Qed.

Lemma size_closing (post : list (turn Packet)) :
  forall (pre : list (turn Packet)) w,
  closes pre (queue w) -> 1 <= own_turns post ->
  exists n w',
    call_at (fun q : ThreadSafeQueue Packet => Returns (size q) q [])
            (@ESize Packet) (pre ++ post) w = Done n w' /\
    lands pre post w'.
Proof.
  induction pre as [|t pre IH]; intros w Hc Hn.
  - apply (ConsumerLiveness.closes_nil Packet) in Hc. cbn [app].
    destruct (ConsumerLiveness.size_at_closed Packet post w Hc Hn)
      as (n & w' & Hr & Ho & Hs & _).
    exists n, w'. split; [exact Hr|]. right. auto.
  - destruct t as [|o|]; cbn [app call_at].
    + eexists. eexists. split; [reflexivity|]. left.
      exists pre. cbn [sched queue]. split; [reflexivity|].
      split; [apply (ConsumerLiveness.closes_me Packet); exact Hc|].
      rewrite own_turns_me. lia.
    + destruct (IH (mkWorld (env_apply (queue w) o) (running w) (pre ++ post)
                            (clock w) (trace w)))
        as (b & w' & Hr & Hl);
        [apply (ConsumerLiveness.closes_env Packet); exact Hc|exact Hn|].
      exists b, w'. split; [exact Hr|apply lands_later; exact Hl].
    + destruct (IH (mkWorld (queue w) false (pre ++ post) (clock w) (trace w)))
        as (b & w' & Hr & Hl);
        [apply (ConsumerLiveness.closes_sig Packet); exact Hc|exact Hn|].
      exists b, w'. split; [exact Hr|apply lands_later; exact Hl].
Qed.

(** push: when it is accepted, it has ended before the queue was closed. *)
Lemma push_closing (p : Packet) (post : list (turn Packet)) :
  forall (pre : list (turn Packet)) w,
  closes pre (queue w) -> 1 <= own_turns post ->
  exists ok w',
    call_at (fun q => push q p) (EPush p) (pre ++ post) w = Done ok w' /\
    (ok = true ->
     exists pre', sched w' = pre' ++ post /\ closes pre' (queue w') /\
                  own_turns pre' < own_turns pre).
Proof.
  induction pre as [|t pre IH]; intros w Hc Hn.
  - apply (ConsumerLiveness.closes_nil Packet) in Hc. cbn [app].
    destruct (push_at_closed p post w Hc Hn) as (w' & Hr & _).
    exists false, w'. split; [exact Hr|discriminate].
  - destruct t as [|o|]; cbn [app call_at].
    + destruct (push (queue w) p) as [c|b q' sigs|] eqn:Hp.
      * destruct (IH (mkWorld (queue w) (running w) (pre ++ post) (clock w)
                              (trace w)))
          as (ok & w' & Hr & Hl);
          [apply (ConsumerLiveness.closes_me Packet); exact Hc|exact Hn|].
        exists ok, w'. split; [exact Hr|]. intro Hok.
        destruct (Hl Hok) as (pre' & H1 & H2 & H3).
        exists pre'. rewrite own_turns_me. repeat split; auto.
      * eexists. eexists. split; [reflexivity|]. intros ->.
        apply QueueFacts.push_returns in Hp.
        destruct Hp as [(_ & Hb & _)|(Hs & _ & _ & -> & _)];
          [discriminate Hb|].
        exists pre. cbn [sched queue]. split; [reflexivity|].
        split; [|rewrite own_turns_me; lia].
        destruct (ConsumerLiveness.closes_me Packet _ _ Hc) as [Hs'|Hin];
          [congruence|right; exact Hin].
      * exfalso. exact (QueueMore.push_defined _ _ _ Hp).
    + destruct (IH (mkWorld (env_apply (queue w) o) (running w) (pre ++ post)
                            (clock w) (trace w)))
        as (ok & w' & Hr & Hl);
        [apply (ConsumerLiveness.closes_env Packet); exact Hc|exact Hn|].
      exists ok, w'. split; [exact Hr|]. intro Hok.
      destruct (Hl Hok) as (pre' & H1 & H2 & H3).
      exists pre'. rewrite own_turns_env. repeat split; auto.
    + destruct (IH (mkWorld (queue w) false (pre ++ post) (clock w) (trace w)))
        as (ok & w' & Hr & Hl);
        [apply (ConsumerLiveness.closes_sig Packet); exact Hc|exact Hn|].
      exists ok, w'. split; [exact Hr|]. intro Hok.
      destruct (Hl Hok) as (pre' & H1 & H2 & H3).
      exists pre'. rewrite own_turns_sig. repeat split; auto.
Qed.

Lemma load_running_closing w (pre post : list (turn Packet)) :
  sched w = pre ++ post -> closes pre (queue w) -> 1 <= own_turns post ->
  exists b w1,
    load_running w = Done b w1 /\ clock w1 = clock w /\
    length (sched w1) < length (sched w) /\ lands pre post w1.
Proof.
  intros Hs Hc Hn. unfold load_running.
  pose proof (RtFacts.load_at_spec _ (sched w) w) as Hsp. rewrite Hs in *.
  destruct (load_at_closing post pre w Hc Hn) as (b & w1 & Hr & Hl).
  rewrite Hr in Hsp. exists b, w1. tauto.
Qed.

Lemma q_size_closing w (pre post : list (turn Packet)) :
  sched w = pre ++ post -> closes pre (queue w) -> 1 <= own_turns post ->
  exists n w1,
    q_size_call w = Done n w1 /\ clock w1 = clock w /\
    length (sched w1) < length (sched w) /\ lands pre post w1.
Proof.
  intros Hs Hc Hn.
  pose proof (RtFacts.q_size_spec _ w) as Hsp.
  unfold q_size_call, call in *. rewrite Hs in *.
  destruct (size_closing post pre w Hc Hn) as (n & w1 & Hr & Hl).
  rewrite Hr in Hsp. exists n, w1. tauto.
Qed.

Lemma q_push_closing (p : Packet) w (pre post : list (turn Packet)) :
  sched w = pre ++ post -> closes pre (queue w) -> 1 <= own_turns post ->
  exists ok w1,
    q_push p w = Done ok w1 /\ clock w1 = clock w /\
    length (sched w1) < length (sched w) /\
    (ok = true ->
     exists pre', sched w1 = pre' ++ post /\ closes pre' (queue w1) /\
                  own_turns pre' < own_turns pre).
Proof.
  intros Hs Hc Hn.
  pose proof (RtFacts.q_push_spec _ p w) as Hsp.
  unfold q_push, call in *. rewrite Hs in *.
  destruct (push_closing p post pre w Hc Hn) as (ok & w1 & Hr & Hl).
  rewrite Hr in Hsp. exists ok, w1. tauto.
Qed.

(** A pass on the closed queue ends the loop. *)
Lemma pass_on_closed_queue fuel (sensor : SensorGenerator) w b w1 :
  load_running w = Done b w1 ->
  shutdown_ (queue w1) = true -> 1 <= own_turns (sched w1) ->
  1 <= length (clock w1) ->
  exists s w', physics_loop make_packet (S fuel) sensor w = Done s w'.
Proof.
  intros Hr Hc Ho Hk. cbn [physics_loop]. unfold bind at 1. rewrite Hr.
  destruct b; cbn [negb]; [|eexists; eexists; reflexivity].
  unfold bind at 1, now at 1.
  destruct (clock w1) as [|start rest]; [simpl in Hk; lia|].
  cbv zeta. unfold bind at 1, q_push, call. cbn [sched].
  match goal with |- context [call_at ?f ?ev (sched w1) ?w2] =>
    destruct (push_at_closed (fst (generate make_packet sensor))
                (sched w1) w2 Hc Ho) as (w3 & Hp & _) end.
  rewrite Hp. cbn [negb]. eexists. eexists. reflexivity.
Qed.

Lemma physics_loop_closed fuel (sensor : SensorGenerator) w :
  shutdown_ (queue w) = true -> 2 <= own_turns (sched w) ->
  1 <= length (clock w) ->
  exists s w', physics_loop make_packet (S fuel) sensor w = Done s w'.
Proof.
  intros Hc Ho Hk.
  destruct (load_at_turn (sched w) w ltac:(lia))
    as (b & w1 & Hr & Ht1 & Hs1 & Hc1 & _).
  apply (pass_on_closed_queue fuel sensor w b w1 Hr (Hs1 Hc)); [lia|].
  rewrite Hc1. exact Hk.
Qed.

(** Lines 32-35 in such a schedule. *)
Lemma report_closing (b : bool) (line : N -> string) w
  (pre post : list (turn Packet)) :
  sched w = pre ++ post -> closes pre (queue w) -> 1 <= own_turns post ->
  exists u w1,
    (if b then bind q_size_call (fun n => print (line n)) else ret tt) w
      = Done u w1 /\
    clock w1 = clock w /\ length (sched w1) <= length (sched w) /\
    ((exists pre', sched w1 = pre' ++ post /\ closes pre' (queue w1) /\
                   own_turns pre' <= own_turns pre) \/
     (shutdown_ (queue w1) = true /\ own_turns post = S (own_turns (sched w1)))).
Proof.
  intros Hs Hc Hn. destruct b.
  - unfold bind.
    destruct (q_size_closing w pre post Hs Hc Hn)
      as (n & w1 & Hr & Hck & Hl & Hla).
    rewrite Hr. unfold print, emit. eexists. eexists.
    split; [reflexivity|]. cbn [clock sched queue].
    split; [exact Hck|]. split; [lia|].
    destruct Hla as [(pre' & H1 & H2 & H3)|H]; [left|right; exact H].
    exists pre'. split; [exact H1|]. split; [exact H2|lia].
  - exists tt, w. split; [reflexivity|]. split; [reflexivity|].
    split; [lia|]. left. exists pre. auto.
Qed.

(** The loop in a schedule in which the queue is closed at some point. *)
Lemma physics_loop_closing : forall fuel (sensor : SensorGenerator) w
    (pre post : list (turn Packet)),
  sched w = pre ++ post -> closes pre (queue w) ->
  3 <= own_turns post -> own_turns pre + 1 <= length (clock w) ->
  length (sched w) < fuel ->
  exists s w', physics_loop make_packet fuel sensor w = Done s w'.
Proof.
  induction fuel as [|fuel IH]; intros sensor w pre post Hs Hc Hp Hk Hf;
    [inversion Hf|].
  destruct (load_running_closing w pre post Hs Hc ltac:(lia))
    as (b & w1 & Hr & Hck1 & Hl1 & Hla1).
  destruct Hla1 as [(pre1 & Hs1 & Hc1 & Ho1)|(Hcl & Hown)].
  2: { apply (pass_on_closed_queue fuel sensor w b w1 Hr Hcl);
       [lia|rewrite Hck1; lia]. }
  cbn [physics_loop]. unfold bind at 1. rewrite Hr.
  destruct b; cbn [negb]; [|eexists; eexists; reflexivity].
  unfold bind at 1, now at 1. rewrite Hck1.
  destruct (clock w) as [|start rest] eqn:Hclk; [simpl in Hk; lia|].
  cbn [length] in Hk. cbv zeta. unfold bind at 1.
  match goal with |- context [q_push ?p ?w2] =>
    destruct (q_push_closing p w2 pre1 post Hs1 Hc1 ltac:(lia))
      as (ok & w3 & Hr3 & Hck3 & Hl3 & Hok) end.
  cbn [clock sched] in Hck3, Hl3.
  rewrite Hr3. destruct ok; cbn [negb]; [|eexists; eexists; reflexivity].
  destruct (Hok eq_refl) as (pre2 & Hs2 & Hc2 & Ho2). clear Hok.
  unfold bind at 1.
  match goal with |- context [(if ?b then ?m1 else ?m2) w3] =>
    destruct (report_closing b
      (fun n => ("[Physics] Tick "
                 ++ dec (tick (snd (generate make_packet sensor)))
                 ++ " | Queue: " ++ dec (Z.of_N n))%string)
      w3 pre2 post Hs2 Hc2 ltac:(lia))
      as (u & w4 & Hr4 & Hck4 & Hl4 & Hla4);
    change ((if b then bind q_size_call
               (fun n => print ("[Physics] Tick "
                 ++ dec (tick (snd (generate make_packet sensor)))
                 ++ " | Queue: " ++ dec (Z.of_N n))%string)
             else ret tt) w3)
      with ((if b then m1 else m2) w3) in Hr4 end.
  rewrite Hr4.
  unfold bind at 1, now at 1. rewrite Hck4, Hck3.
  destruct rest as [|finish rest']; [simpl in Hk; lia|].
  cbn [length] in Hk.
  unfold bind at 1, sleep_for, emit.
  destruct Hla4 as [(pre3 & Hs3 & Hc3 & Ho3)|(Hcl & Hown)].
  - apply (IH _ _ pre3 post); cbn [sched queue clock];
      [exact Hs3|exact Hc3|exact Hp|lia|lia].
  - destruct fuel as [|fuel']; [lia|].
    apply physics_loop_closed; cbn [sched queue clock length];
      [exact Hcl|lia|lia].
Qed.

(** X20 (the producer returns once the queue is closed).  Let the queue
    be closed when physics_thread starts, or let another thread call
    shutdown at some point of the run.  Then physics_thread returns,
    whatever the other threads do, provided that from that point on it is
    given three turns, and that the clock can be read once more than the
    thread has turns before that point. *)
Theorem producer_returns_after_shutdown (vehicle_id : string) w
  (pre post : list (turn Packet)) :
  sched w = pre ++ post ->
  shutdown_ (queue w) = true \/ In (Env (@Shutdown Packet)) pre ->
  3 <= own_turns post ->
  own_turns pre + 1 <= length (clock w) ->
  exists s w', physics_thread make_packet vehicle_id w = Done s w'.
Proof.
  intros Hs Hc Hp Hk.
  unfold physics_thread. cbv zeta. unfold bind at 1.
  destruct (physics_loop_closing (S (length (sched w)))
              (new_sensor vehicle_id) w pre post Hs Hc Hp Hk ltac:(lia))
    as (s & w1 & Hr).
  rewrite Hr. eexists. eexists. reflexivity.
Qed.

End Facts.

(** On [Scenes.shut_mid]: the queue is closed by another thread after the
    producer's first pass; the push of the second pass is refused. *)
Lemma producer_returns_after_shutdown_mid_run :
  sched Scenes.shut_mid =
    [Me; Me; Env (@Shutdown string)] ++ [Me; Me; Me] /\
  In (Env (@Shutdown string)) [Me; Me; Env (@Shutdown string)] /\
  exists s w',
    physics_thread Demo.label "AV-001" Scenes.shut_mid = Done s w'.
Proof.
  assert (Hs : sched Scenes.shut_mid =
               [Me; Me; Env (@Shutdown string)] ++ [Me; Me; Me])
    by reflexivity.
  assert (Hin : In (Env (@Shutdown string)) [Me; Me; Env (@Shutdown string)])
    by (right; right; left; reflexivity).
  assert (Hp : 3 <= own_turns [@Me string; Me; Me]) by (vm_compute; lia).
  assert (Hk : own_turns [Me; Me; Env (@Shutdown string)] + 1
               <= length (clock Scenes.shut_mid)) by (vm_compute; lia).
  split; [exact Hs|]. split; [exact Hin|].
  exact (@producer_returns_after_shutdown string Demo.label "AV-001"
           Scenes.shut_mid [Me; Me; Env (@Shutdown string)] [Me; Me; Me]
           Hs (or_intror Hin) Hp Hk).
Defined.

(** The producer on a queue that is closed during its second pass: the
    second packet is refused, and the tick reported is 2. *)
Lemma producer_stops_on_closed_queue :
  physics_thread Demo.label "AV-001" Scenes.closing =
    Done Scenes.closing_sensor Scenes.closing_end /\
  shutdown_ (queue Scenes.closing_end) = true /\
  tick Scenes.closing_sensor = 2%Z /\
  length (pushed_ok (events_since Scenes.closing Scenes.closing_end)) = 1 /\
  length (sleeps (events_since Scenes.closing Scenes.closing_end)) = 1.
Proof.
  assert (Hrun : physics_thread Demo.label "AV-001" Scenes.closing =
                 Done Scenes.closing_sensor Scenes.closing_end)
    by (vm_compute; reflexivity).
  split; [exact Hrun|].
  destruct (@producer_stops string Demo.label "AV-001" Scenes.closing
              Scenes.closing_sensor Scenes.closing_end Hrun)
    as (_ & _ & _ & Hsl & _).
  split; [reflexivity|]. split; [reflexivity|].
  split; [vm_compute; reflexivity|].
  rewrite Hsl. vm_compute. reflexivity.
Defined.

End ProducerFacts.

(* ===================================================================== *)
(** * What holds step by step along the two threads *)
(* ===================================================================== *)

Module ThreadSteps.

Import Queue Rt Net Sensor Obs Main.

(** A relation between worlds that holds across each primitive step holds
    across a run of physics_thread and of network_thread. *)
Section Steps.

Variable Packet : Type.
Variable make_packet : string -> Z -> Packet.
Context {G : Grpc Packet}.

Variable R : World Packet -> World Packet -> Prop.
Variable I : World Packet -> Prop.

Hypothesis R_refl : forall w, R w w.
Hypothesis R_trans : forall w1 w2 w3, R w1 w2 -> R w2 w3 -> R w1 w3.
Hypothesis R_keeps : forall w w', R w w' -> I w -> I w'.

Lemma steps_bind (A B : Type) (m : M Packet A) (k : A -> M Packet B) w :
  I w -> R w (final (m w)) ->
  (forall a w1, m w = Done a w1 -> I w1 -> R w1 (final (k a w1))) ->
  R w (final (bind m k w)).
Proof.
  intros Hi Hm Hk. unfold bind.
  destruct (m w) as [a w1|w1|w1] eqn:Hmw; simpl in *.
  - apply (R_trans w w1); [exact Hm|].
    apply (Hk a w1 eq_refl). apply (R_keeps w w1 Hm Hi).
  - exact Hm.
  - exact Hm.
Qed.

Hypothesis R_emit : forall (e : event Packet) w,
  is_push_event e = false -> R w (final (emit e w)).
Hypothesis R_size : forall w, I w -> R w (final (q_size_call w)).

Section Producer.

Hypothesis R_now : forall w, R w (final (now w)).
Hypothesis R_load : forall w, I w -> R w (final (load_running w)).
Hypothesis R_push : forall (p : Packet) w, I w -> R w (final (q_push p w)).

Lemma physics_loop_steps : forall fuel (sensor : SensorGenerator) w,
  I w -> R w (final (physics_loop make_packet fuel sensor w)).
Proof.
  induction fuel as [|fuel IH]; intros sensor w Hi; [apply R_refl|].
  cbn [physics_loop].
  apply steps_bind; [exact Hi|apply R_load; exact Hi|].
  intros [|] w1 _ Hi1; cbn [negb]; [|apply R_refl].
  apply steps_bind; [exact Hi1|apply R_now|].
  intros start w2 _ Hi2. cbv zeta.
  apply steps_bind; [exact Hi2|apply R_push; exact Hi2|].
  intros [|] w3 _ Hi3; cbn [negb]; [|apply R_refl].
  apply steps_bind; [exact Hi3| |].
  - match goal with |- context [if ?b then _ else _] => destruct b end;
      [|apply R_refl].
    apply steps_bind; [exact Hi3|apply R_size; exact Hi3|].
    intros n w4 _ Hi4. apply R_emit. reflexivity.
  - intros _ w4 _ Hi4.
    apply steps_bind; [exact Hi4|apply R_now|].
    intros finish w5 _ Hi5.
    apply steps_bind; [exact Hi5|apply R_emit; reflexivity|].
    intros _ w6 _ Hi6. apply IH. exact Hi6.
Qed.

Lemma physics_thread_steps (vehicle_id : string) w :
  I w -> R w (final (physics_thread make_packet vehicle_id w)).
Proof.
  intro Hi. unfold physics_thread. cbv zeta.
  apply steps_bind; [exact Hi|apply physics_loop_steps; exact Hi|].
  intros s w1 _ Hi1.
  apply steps_bind; [exact Hi1|apply R_emit; reflexivity|].
  intros. apply R_refl.
Qed.

End Producer.

Section Consumer.

Hypothesis R_pop : forall w, I w -> R w (final (q_pop w)).

Lemma log_progress_steps (c : NetworkClient Packet) (n : N) w :
  I w -> R w (final (log_progress c n w)).
Proof.
  intro Hi. unfold log_progress.
  match goal with |- context [if ?b then _ else _] => destruct b end;
    [|apply R_refl].
  apply steps_bind; [exact Hi|apply R_emit; reflexivity|].
  intros. apply R_refl.
Qed.

Lemma simulate_loop_steps : forall fuel (c : NetworkClient Packet) w,
  I w -> R w (final (simulate_loop fuel c w)).
Proof.
  induction fuel as [|fuel IH]; intros c w Hi; [apply R_refl|].
  cbn [simulate_loop].
  apply steps_bind; [exact Hi|apply R_pop; exact Hi|].
  intros [p|] w1 _ Hi1; [|apply R_refl].
  apply steps_bind; [exact Hi1|apply R_size; exact Hi1|].
  intros n w2 _ Hi2.
  apply steps_bind; [exact Hi2|apply log_progress_steps; exact Hi2|].
  intros c2 w3 _ Hi3. apply IH. exact Hi3.
Qed.

Lemma simulate_steps (c : NetworkClient Packet) w :
  I w -> R w (final (simulate c w)).
Proof.
  intro Hi. unfold simulate.
  apply steps_bind; [exact Hi|apply R_emit; reflexivity|].
  intros _ w1 _ Hi1.
  apply steps_bind; [exact Hi1|apply simulate_loop_steps; exact Hi1|].
  intros c1 w2 _ Hi2.
  apply steps_bind; [exact Hi2|apply R_emit; reflexivity|].
  intros. apply R_refl.
Qed.

Lemma stream_loop_steps : forall fuel (wr : Writer)
    (c : NetworkClient Packet) w,
  I w -> R w (final (stream_loop fuel wr c w)).
Proof.
  induction fuel as [|fuel IH]; intros wr c w Hi; [apply R_refl|].
  cbn [stream_loop].
  apply steps_bind; [exact Hi|apply R_pop; exact Hi|].
  intros [p|] w1 _ Hi1; [|apply R_refl].
  apply steps_bind; [exact Hi1| |].
  - unfold write. cbv zeta.
    apply steps_bind; [exact Hi1|apply R_emit; reflexivity|].
    intros. apply R_refl.
  - intros r w2 _ Hi2.
    destruct (negb (fst r)); [apply R_refl|].
    apply steps_bind; [exact Hi2|apply R_size; exact Hi2|].
    intros n w3 _ Hi3.
    apply steps_bind; [exact Hi3|apply log_progress_steps; exact Hi3|].
    intros c2 w4 _ Hi4. apply IH. exact Hi4.
Qed.

Lemma stream_steps (c : NetworkClient Packet) w :
  I w -> R w (final (stream c w)).
Proof.
  intro Hi. unfold stream.
  destruct (negb (connected_ c)); [apply simulate_steps; exact Hi|].
  destruct (stub_ c) as [stub|]; [|apply R_refl].
  cbv zeta.
  apply steps_bind; [exact Hi|apply stream_loop_steps; exact Hi|].
  intros r w1 _ Hi1.
  apply steps_bind; [exact Hi1|apply R_emit; reflexivity|].
  intros _ w2 _ Hi2.
  apply steps_bind; [exact Hi2|apply R_emit; reflexivity|].
  intros _ w3 _ Hi3.
  apply steps_bind; [exact Hi3|apply R_emit; reflexivity|].
  intros. apply R_refl.
Qed.

Lemma network_thread_steps (server : string) (flag : bool) w :
  I w -> R w (final (network_thread server flag w)).
Proof.
  intro Hi. unfold network_thread, network_thread_via. cbv zeta.
  apply steps_bind; [exact Hi| |].
  - destruct flag; [apply simulate_steps; exact Hi|].
    apply steps_bind; [exact Hi| |].
    + unfold connect. cbv zeta.
      apply steps_bind; [exact Hi|apply R_emit; reflexivity|].
      intros. apply R_refl.
    + intros r w1 _ Hi1.
      destruct (fst r); [apply stream_steps|apply simulate_steps]; exact Hi1.
  - intros c w1 _ Hi1.
    apply steps_bind; [exact Hi1|apply R_emit; reflexivity|].
    intros. apply R_refl.
Qed.

End Consumer.

End Steps.

Section Invariants.

Variable Packet : Type.
Variable make_packet : string -> Z -> Packet.
Context {G : Grpc Packet}.

Implicit Types (w : World Packet) (q : ThreadSafeQueue Packet).

(* --------------------------------------------------------------------- *)
(** ** Nothing is undone *)

Lemma settled_refl q : settled q q.
Proof. repeat split; auto. Qed.

Lemma settled_trans q1 q2 q3 : settled q1 q2 -> settled q2 q3 -> settled q1 q3.
Proof.
  intros (A1 & A2 & A3) (B1 & B2 & B3). repeat split; auto. congruence.
Qed.

Lemma settled_exec q (o : op Packet) r q' sigs :
  exec q o = Returns r q' sigs -> settled q q'.
Proof.
  intro He. split; [|split].
  - apply QueueFacts.exec_effect in He. tauto.
  - intro Hb. apply (QueueFacts.bounded_exec _ _ _ _ _ _ Hb He).
  - intro Hs. apply QueueFacts.exec_effect in He.
    destruct He as (_ & Hc & _). apply (Hc Hs).
Qed.

Lemma settled_env_apply q (o : op Packet) : settled q (env_apply q o).
Proof.
  unfold env_apply. destruct (exec q o) as [c|r q' sigs|] eqn:He;
    try apply settled_refl.
  apply (settled_exec _ _ _ _ _ He).
Qed.

Lemma settled_push q (p : Packet) b q' sigs :
  push q p = Returns b q' sigs -> settled q q'.
Proof.
  intro H. apply (settled_exec q (Push p) (RPush b) q' sigs).
  simpl. rewrite H. reflexivity.
Qed.

Lemma settled_pop q r q' sigs :
  pop q = Returns r q' sigs -> settled q q'.
Proof.
  intro H. apply (settled_exec q (@Pop Packet) (RPop r) q' sigs).
  simpl. rewrite H. reflexivity.
Qed.

Lemma within_refl w : within w w.
Proof. split; [apply settled_refl|auto]. Qed.

Lemma within_same w w' :
  queue w' = queue w -> running w' = running w -> within w w'.
Proof.
  intros Hq Hr. unfold within. rewrite Hq, Hr.
  split; [apply settled_refl|auto].
Qed.

Lemma within_trans w1 w2 w3 : within w1 w2 -> within w2 w3 -> within w1 w3.
Proof.
  intros (A1 & A2) (B1 & B2).
  split; [apply (settled_trans _ _ _ A1 B1)|auto].
Qed.

Lemma within_call_at (A : Type)
  (f : ThreadSafeQueue Packet -> outcome Packet A) (ev : A -> event Packet) :
  (forall q1 r q2 sigs, f q1 = Returns r q2 sigs -> settled q1 q2) ->
  forall s w, within w (final (call_at f ev s w)).
Proof.
  intro Hf. induction s as [|t s IH]; intro w; cbn [call_at].
  - apply within_same; reflexivity.
  - destruct t as [|o|].
    + destruct (f (queue w)) as [c|r q' sigs|] eqn:He.
      * exact (IH (mkWorld (queue w) (running w) s (clock w) (trace w))).
      * split; [exact (Hf _ _ _ _ He)|auto].
      * apply within_same; reflexivity.
    + apply (within_trans w
               (mkWorld (env_apply (queue w) o) (running w) s (clock w)
                        (trace w))); [|apply IH].
      split; [apply settled_env_apply|auto].
    + apply (within_trans w (mkWorld (queue w) false s (clock w) (trace w)));
        [|apply IH].
      split; [apply settled_refl|auto].
Qed.

Lemma within_load_at : forall (s : list (turn Packet)) w,
  within w (final (load_at s w)).
Proof.
  induction s as [|t s IH]; intro w; cbn [load_at].
  - apply within_same; reflexivity.
  - destruct t as [|o|].
    + apply within_same; reflexivity.
    + apply (within_trans w
               (mkWorld (env_apply (queue w) o) (running w) s (clock w)
                        (trace w))); [|apply IH].
      split; [apply settled_env_apply|auto].
    + apply (within_trans w (mkWorld (queue w) false s (clock w) (trace w)));
        [|apply IH].
      split; [apply settled_refl|auto].
Qed.

Lemma within_now w : within w (final (now w)).
Proof. unfold now. destruct (clock w); apply within_same; reflexivity. Qed.

Lemma within_emit (e : event Packet) w : within w (final (emit e w)).
Proof. apply within_same; reflexivity. Qed.

(** X13 (nothing is undone).  Along a run of physics_thread and along a
    run of network_thread, whatever the other threads do meanwhile: the
    capacity of the queue stays what it was, a queue that holds no more
    than its capacity still does, a closed queue is still closed, and the
    flag running, once false, is still false. *)
Theorem threads_undo_nothing (vehicle_id server : string) (flag : bool) w :
  within w (final (physics_thread make_packet vehicle_id w)) /\
  within w (final (network_thread server flag w)).
Proof.
  split.
  - apply (ThreadSteps.physics_thread_steps Packet make_packet
             (@within Packet) (fun _ => True)).
    + apply within_refl.
    + apply within_trans.
    + auto.
    + intros e w0 _. apply within_emit.
    + intros w0 _. apply within_call_at.
      intros q1 r q2 sigs H. inversion H; subst. apply settled_refl.
    + apply within_now.
    + intros w0 _. apply within_load_at.
    + intros p w0 _. apply within_call_at.
      intros q1 r q2 sigs H. apply (settled_push _ _ _ _ _ H).
    + exact I.
  - apply (ThreadSteps.network_thread_steps Packet
             (@within Packet) (fun _ => True)).
    + apply within_refl.
    + apply within_trans.
    + auto.
    + intros e w0 _. apply within_emit.
    + intros w0 _. apply within_call_at.
      intros q1 r q2 sigs H. inversion H; subst. apply settled_refl.
    + intros w0 _. apply within_call_at.
      intros q1 r q2 sigs H. apply (settled_pop _ _ _ _ H).
    + exact I.
Qed.

(* --------------------------------------------------------------------- *)
(** ** What becomes of the packets pushed *)

Lemma single_producer_app (s1 s2 : list (turn Packet)) :
  single_producer (s1 ++ s2) -> single_producer s1 /\ single_producer s2.
Proof.
  unfold single_producer. rewrite forallb_app. apply andb_true_iff.
Qed.

Lemma drawn_refl w : drawn w w.
Proof.
  exists [], [], []. simpl. rewrite !app_nil_r. repeat split; auto.
Qed.

Lemma drawn_trans w1 w2 w3 : drawn w1 w2 -> drawn w2 w3 -> drawn w1 w3.
Proof.
  intros (u1 & t1 & e1 & Hs1 & Ht1 & Hq1 & Hl1)
         (u2 & t2 & e2 & Hs2 & Ht2 & Hq2 & Hl2).
  exists (u1 ++ u2), (t1 ++ t2), (e1 ++ e2). split; [|split; [|split]].
  - rewrite Hs1, Hs2, app_assoc. reflexivity.
  - rewrite Ht2, Ht1, app_assoc. reflexivity.
  - rewrite (ProducerFacts.pushed_ok_app Packet), app_assoc, Hq1,
      <- !app_assoc, Hq2. reflexivity.
  - rewrite filter_app, !length_app. lia.
Qed.

Lemma drawn_keeps w w' :
  drawn w w' -> single_producer (sched w) -> single_producer (sched w').
Proof.
  intros (u & _ & _ & Hs & _) H. rewrite Hs in H.
  apply single_producer_app in H. tauto.
Qed.

(** What the turns of the other threads do to the queue when none of them
    pushes: they take packets from its front, at most one for each pop. *)
Lemma env_run_draws (s : list (turn Packet)) : forall q,
  single_producer s ->
  exists taken,
    queue_ q = taken ++ queue_ (env_run s q) /\
    length taken <= length (filter (@is_env_pop Packet) s).
Proof.
  unfold single_producer.
  induction s as [|t s IH]; intros q Hs.
  - exists []. split; [reflexivity|]. simpl. lia.
  - simpl in Hs. apply andb_true_iff in Hs. destruct Hs as (Ht & Hs).
    destruct t as [|o|]; cbn [env_run]; try (apply IH; exact Hs).
    destruct o as [p| | |]; simpl in Ht; try discriminate Ht.
    + unfold env_apply. cbn [exec filter is_env_pop length].
      destruct (pop q) as [c1|r q1 s1|] eqn:Hp; cbn [lift].
      * destruct (IH q Hs) as (taken & Hq & Hl). exists taken.
        split; [exact Hq|lia].
      * apply QueueFacts.pop_returns in Hp.
        destruct Hp as [(_ & _ & _ & -> & _)|(x & rest & Hq & _ & -> & _)].
        -- destruct (IH q Hs) as (taken & Hq & Hl). exists taken.
           split; [exact Hq|lia].
        -- destruct (IH (mkQueue rest (capacity_ q) (shutdown_ q)) Hs)
             as (taken & Hq' & Hl).
           exists (x :: taken). cbn [queue_] in Hq'.
           split; [rewrite Hq; simpl; f_equal; exact Hq'|simpl; lia].
      * destruct (IH q Hs) as (taken & Hq & Hl). exists taken.
        split; [exact Hq|lia].
    + destruct (IH (env_apply q Shutdown) Hs) as (taken & Hq & Hl).
      exists taken. split; [exact Hq|exact Hl].
    + destruct (IH (env_apply q Size) Hs) as (taken & Hq & Hl).
      exists taken. split; [exact Hq|exact Hl].
Qed.

Lemma filter_env_pop_me (pre : list (turn Packet)) :
  length (filter (@is_env_pop Packet) (pre ++ [Me])) =
  length (filter (@is_env_pop Packet) pre).
Proof. rewrite filter_app, length_app. simpl. lia. Qed.

(** Where load_running reads the flag. *)
Lemma load_at_env : forall (s : list (turn Packet)) w,
  match load_at s w with
  | Done _ w' =>
      exists pre, s = pre ++ Me :: sched w' /\
                  queue w' = env_run pre (queue w) /\ trace w' = trace w
  | Pending w' =>
      sched w' = [] /\ queue w' = env_run s (queue w) /\ trace w' = trace w
  | Fault _ => False
  end.
Proof.
  induction s as [|t s IH]; intro w; cbn [load_at].
  - auto.
  - destruct t as [|o|].
    + exists []. auto.
    + specialize (IH (mkWorld (env_apply (queue w) o) (running w) s (clock w)
                              (trace w))).
      destruct (load_at s _) as [b w'|w'|w']; [|exact IH|exact IH].
      destruct IH as (pre & Hs & Hq & Ht). exists (Env o :: pre).
      rewrite Hs at 1. auto.
    + specialize (IH (mkWorld (queue w) false s (clock w) (trace w))).
      destruct (load_at s _) as [b w'|w'|w']; [|exact IH|exact IH].
      destruct IH as (pre & Hs & Hq & Ht). exists (Sig :: pre).
      rewrite Hs at 1. auto.
Qed.

Lemma drawn_load w :
  single_producer (sched w) -> drawn w (final (load_running w)).
Proof.
  intro Hs. unfold load_running.
  pose proof (load_at_env (sched w) w) as H.
  destruct (load_at (sched w) w) as [b w'|w'|w']; cbn [final].
  - destruct H as (pre & Hsc & Hq & Ht).
    rewrite Hsc in Hs. apply single_producer_app in Hs.
    destruct Hs as (Hpre & _).
    destruct (env_run_draws pre (queue w) Hpre) as (taken & Hd & Hl).
    exists (pre ++ [Me]), taken, []. split; [|split; [|split]].
    + rewrite Hsc, <- app_assoc. reflexivity.
    + rewrite Ht, app_nil_r. reflexivity.
    + rewrite Hq, app_nil_r. exact Hd.
    + rewrite filter_env_pop_me. exact Hl.
  - destruct H as (Hsc & Hq & Ht).
    destruct (env_run_draws (sched w) (queue w) Hs) as (taken & Hd & Hl).
    exists (sched w), taken, []. rewrite Hsc, Ht, Hq, !app_nil_r.
    repeat split; auto.
  - destruct H.
Qed.

Lemma drawn_call (A : Type)
  (f : ThreadSafeQueue Packet -> outcome Packet A) (ev : A -> event Packet) w :
  (forall q1 r q2 sigs,
     f q1 = Returns r q2 sigs -> queue_ q1 ++ pushed_ok [ev r] = queue_ q2) ->
  (forall q1, f q1 <> Undefined) ->
  single_producer (sched w) ->
  drawn w (final (call f ev w)).
Proof.
  intros Hf Hdef Hs. unfold call.
  destruct (call_at f ev (sched w) w) as [r w'|w'|w'] eqn:Hc; cbn [final].
  - pose proof (RtFacts.call_at_spec _ _ f ev (sched w) w) as Hsp.
    rewrite Hc in Hsp. destruct Hsp as (Ht & _).
    apply RtFacts.call_at_env in Hc. destruct Hc as (pre & sigs & Hsc & Hq).
    rewrite Hsc in Hs. apply single_producer_app in Hs.
    destruct Hs as (Hpre & _).
    destruct (env_run_draws pre (queue w) Hpre) as (taken & Hd & Hl).
    exists (pre ++ [Me]), taken, [ev r]. split; [|split; [|split]].
    + rewrite Hsc, <- app_assoc. reflexivity.
    + exact Ht.
    + rewrite Hd, <- app_assoc, (Hf _ _ _ _ Hq). reflexivity.
    + rewrite filter_env_pop_me. exact Hl.
  - apply ConsumerFacts.call_at_pending in Hc. destruct Hc as (Hs' & Hq & Ht).
    destruct (env_run_draws (sched w) (queue w) Hs) as (taken & Hd & Hl).
    exists (sched w), taken, []. rewrite Hs', Ht, Hq, !app_nil_r.
    repeat split; auto.
  - pose proof (RtFacts.call_at_spec _ _ f ev (sched w) w) as Hsp.
    rewrite Hc in Hsp. destruct Hsp as (_ & q1 & Hu).
    exfalso. exact (Hdef q1 Hu).
Qed.

Lemma drawn_emit (e : event Packet) w :
  is_push_event e = false -> drawn w (final (emit e w)).
Proof.
  intro He. exists [], [], [e].
  split; [reflexivity|]. split; [reflexivity|].
  split; [|simpl; lia].
  destruct e; try discriminate He; simpl; rewrite app_nil_r; reflexivity.
Qed.

Lemma drawn_now w : drawn w (final (now w)).
Proof.
  unfold now. destruct (clock w); cbn [final]; [apply drawn_refl|].
  exists [], [], []. simpl. rewrite !app_nil_r. repeat split; auto.
Qed.

(** X14 (the producer's packets are queued in order).  While no other
    thread pushes, along any run of physics_thread, returned or not: the
    packets that were queued at the start, followed by the packets whose
    push was accepted, in the order of the pushes, are the packets the
    other threads have popped meanwhile followed by the packets queued at
    the end.  So the queue holds, behind what is left of its old content,
    the accepted packets that have not been popped, each once and in the
    order in which they were generated. *)
Theorem producer_queues_in_order (vehicle_id : string) w :
  single_producer (sched w) ->
  exists used taken,
    sched w = used ++ sched (final (physics_thread make_packet vehicle_id w))
    /\
    queue_ (queue w) ++
    pushed_ok (events_since w
                 (final (physics_thread make_packet vehicle_id w))) =
      taken ++
      queue_ (queue (final (physics_thread make_packet vehicle_id w))) /\
    length taken <= length (filter (@is_env_pop Packet) used).
Proof.
  intro Hs.
  assert (Hd : drawn w (final (physics_thread make_packet vehicle_id w))).
  { apply (ThreadSteps.physics_thread_steps Packet make_packet
             (@drawn Packet) (fun w0 => single_producer (sched w0))).
    - apply drawn_refl.
    - apply drawn_trans.
    - apply drawn_keeps.
    - apply drawn_emit.
    - intros w0 Hs0. apply drawn_call; [| |exact Hs0].
      + intros q1 r q2 sigs H. inversion H; subst. simpl.
        apply app_nil_r.
      + intros q1 H. discriminate H.
    - apply drawn_now.
    - apply drawn_load.
    - intros p w0 Hs0. apply drawn_call; [| |exact Hs0].
      + intros q1 r q2 sigs H. apply QueueFacts.push_returns in H.
        destruct H as [(_ & -> & -> & _)|(_ & _ & -> & -> & _)]; simpl;
          [apply app_nil_r|reflexivity].
      + intros q1. apply QueueMore.push_defined.
    - exact Hs. }
  destruct Hd as (used & taken & evs & Hsc & Ht & Hq & Hl).
  exists used, taken. unfold events_since.
  rewrite (NetFacts.events_since_app _ w _ _ Ht). auto.
Qed.

End Invariants.

(** The producer on [Scenes.shared], where another thread pops twice. *)
Lemma producer_queues_in_order_shared :
  single_producer (sched Scenes.shared) /\
  exists used taken,
    sched Scenes.shared =
      used ++ sched (final (physics_thread Demo.label "AV-001"
                              Scenes.shared)) /\
    queue_ (queue Scenes.shared) ++
    pushed_ok (events_since Scenes.shared
                 (final (physics_thread Demo.label "AV-001" Scenes.shared))) =
      taken ++
      queue_ (queue (final (physics_thread Demo.label "AV-001"
                              Scenes.shared))) /\
    length taken <= length (filter (@is_env_pop string) used).
Proof.
  assert (Hs : single_producer (sched Scenes.shared))
    by (vm_compute; reflexivity).
  split; [exact Hs|].
  exact (@producer_queues_in_order string Demo.label "AV-001"
           Scenes.shared Hs).
Defined.

End ThreadSteps.

(* ===================================================================== *)
(** * The command line of main *)
(* ===================================================================== *)

Module CliFacts.

Import Cli.
Local Open Scope string_scope.

Lemma nth_next (pre : list string) (a v : string) (rest : list string) :
  nth (length pre + 1) (pre ++ a :: v :: rest)%list "" = v.
Proof.
  replace (pre ++ a :: v :: rest)%list with ((pre ++ [a]) ++ v :: rest)%list
    by (rewrite <- app_assoc; reflexivity).
  replace (length pre + 1)%nat with (length (pre ++ [a])%list)
    by (rewrite length_app; reflexivity).
  apply nth_middle.
Qed.

Lemma here (pre : list string) (a : string) (rest : list string) :
  (length pre <? length (pre ++ a :: rest)%list)%nat = true.
Proof. apply Nat.ltb_lt. rewrite length_app. simpl. lia. Qed.

Lemma next_there (pre : list string) (a : string) (rest : list string) :
  (length pre + 1 <? length (pre ++ a :: rest)%list)%nat =
  match rest with [] => false | _ :: _ => true end.
Proof.
  rewrite length_app. destruct rest as [|v rest]; simpl.
  - apply Nat.ltb_ge. lia.
  - apply Nat.ltb_lt. lia.
Qed.

Lemma step_one (pre : list string) (a : string) (rest : list string) :
  (pre ++ a :: rest)%list = ((pre ++ [a]) ++ rest)%list /\
  (length pre + 1)%nat = length (pre ++ [a])%list.
Proof. rewrite <- app_assoc, length_app. auto. Qed.

Lemma step_two (pre : list string) (a v : string) (rest : list string) :
  (pre ++ a :: v :: rest)%list = ((pre ++ [a; v]) ++ rest)%list /\
  (length pre + 1 + 1)%nat = length (pre ++ [a; v])%list.
Proof. rewrite <- app_assoc, length_app. simpl. split; [reflexivity|lia]. Qed.

(** The loop over the index, from any index on: it reads the arguments from
    there on as [scan] does. *)
Lemma parse_loop_scan : forall fuel (args pre : list string) (o : Options),
  (length args <= fuel)%nat ->
  parse_loop fuel (pre ++ args) (length pre) o = scan o args.
Proof.
  induction fuel as [|fuel IH]; intros args pre o Hf.
  - destruct args; [reflexivity|simpl in Hf; lia].
  - destruct args as [|a rest].
    + cbn [parse_loop scan]. rewrite app_nil_r, Nat.ltb_irrefl. reflexivity.
    + cbn [parse_loop scan]. rewrite here. cbv zeta.
      rewrite nth_middle, next_there.
      simpl in Hf.
      destruct (a =? "--vehicle") eqn:Ev; cbn [andb].
      { destruct rest as [|v rest'].
        - apply String.eqb_eq in Ev. subst a. cbn [andb].
          change ("--vehicle" =? "--server") with false.
          change ("--vehicle" =? "--real") with false.
          change ("--vehicle" =? "--help") with false.
          cbn [andb].
          destruct (step_one pre "--vehicle" []) as (E1 & E2).
          rewrite E1, E2. apply (IH [] _ o). simpl. lia.
        - rewrite nth_next.
          destruct (step_two pre a v rest') as (E1 & E2).
          rewrite E1, E2. apply IH. simpl in Hf. lia. }
      destruct (a =? "--server") eqn:Es; cbn [andb].
      { destruct rest as [|v rest'].
        - apply String.eqb_eq in Es. subst a.
          change ("--server" =? "--real") with false.
          change ("--server" =? "--help") with false.
          cbn [andb].
          destruct (step_one pre "--server" []) as (E1 & E2).
          rewrite E1, E2. apply (IH [] _ o). simpl. lia.
        - rewrite nth_next.
          destruct (step_two pre a v rest') as (E1 & E2).
          rewrite E1, E2. apply IH. simpl in Hf. lia. }
      destruct (step_one pre a rest) as (E1 & E2).
      destruct (a =? "--real"); [rewrite E1, E2; apply IH; lia|].
      destruct (a =? "--help"); [reflexivity|].
      rewrite E1, E2. apply IH. lia.
Qed.

(** The loop as main enters it, behind argv[0]. *)
Lemma parse_from_one (prog : string) (args : list string) :
  parse_loop (S (length args)) (prog :: args) 1 defaults = scan defaults args.
Proof.
  apply (parse_loop_scan (S (length args)) args [prog] defaults). lia.
Qed.

Lemma parse_args_tl (argv : list string) (P : parsed -> Prop) :
  P (scan defaults (tl argv)) -> P (parse_args argv).
Proof.
  destruct argv as [|prog args]; [exact (fun H => H)|].
  unfold parse_args. cbn [tl length]. rewrite parse_from_one.
  exact (fun H => H).
Qed.

(** Induction on the arguments as [scan] takes them: one at a time, or an
    option and its value. *)
Lemma scan_ind2 (P : list string -> Prop) :
  P [] ->
  (forall a rest, P rest -> (forall v rest', rest = v :: rest' -> P rest') ->
                  P (a :: rest)) ->
  forall args, P args.
Proof.
  intros H0 Hs.
  assert (H : forall n args, (length args <= n)%nat -> P args).
  { induction n as [|n IH]; intros args Hl.
    - destruct args; [exact H0|simpl in Hl; lia].
    - destruct args as [|a rest]; [exact H0|]. simpl in Hl.
      apply Hs; [apply IH; lia|].
      intros v rest' ->. apply IH. simpl in Hl. lia. }
  intro args. apply (H (length args)). lia.
Qed.

(** Where the options that [scan] returns come from. *)
Lemma scan_sound : forall (args : list string) (o o' : Options),
  scan o args = Start o' ->
  (vehicle o' = vehicle o \/
   exists pre rest, args = (pre ++ "--vehicle" :: vehicle o' :: rest)%list) /\
  (server o' = server o \/
   exists pre rest, args = (pre ++ "--server" :: server o' :: rest)%list) /\
  (simulate o' = simulate o \/
   (simulate o' = false /\ In "--real" args)).
Proof.
  intro args. pattern args. apply scan_ind2; clear args.
  - intros o o' H. inversion H; subst. auto.
  - intros a rest IH1 IH2 o o' H. cbn [scan] in H.
    assert (Hlater : forall o1,
              scan o1 rest = Start o' ->
              (vehicle o' = vehicle o1 \/
               exists pre rest0,
                 (a :: rest) = (pre ++ "--vehicle" :: vehicle o' :: rest0)%list)
              /\
              (server o' = server o1 \/
               exists pre rest0,
                 (a :: rest) = (pre ++ "--server" :: server o' :: rest0)%list)
              /\
              (simulate o' = simulate o1 \/
               (simulate o' = false /\ In "--real" (a :: rest)))).
    { intros o1 H1. destruct (IH1 o1 o' H1) as (A & B & C).
      split; [|split].
      - destruct A as [A|(pre & r0 & ->)]; [left; exact A|].
        right. exists (a :: pre), r0. reflexivity.
      - destruct B as [B|(pre & r0 & ->)]; [left; exact B|].
        right. exists (a :: pre), r0. reflexivity.
      - destruct C as [C|(C1 & C2)]; [left; exact C|].
        right. split; [exact C1|right; exact C2]. }
    assert (Hskip : forall o1 v rest',
              rest = v :: rest' -> scan o1 rest' = Start o' ->
              (vehicle o' = vehicle o1 \/
               exists pre rest0,
                 (a :: rest) = (pre ++ "--vehicle" :: vehicle o' :: rest0)%list)
              /\
              (server o' = server o1 \/
               exists pre rest0,
                 (a :: rest) = (pre ++ "--server" :: server o' :: rest0)%list)
              /\
              (simulate o' = simulate o1 \/
               (simulate o' = false /\ In "--real" (a :: rest)))).
    { intros o1 v rest' Hr H1. destruct (IH2 v rest' Hr o1 o' H1) as (A & B & C).
      subst rest. split; [|split].
      - destruct A as [A|(pre & r0 & ->)]; [left; exact A|].
        right. exists (a :: v :: pre), r0. reflexivity.
      - destruct B as [B|(pre & r0 & ->)]; [left; exact B|].
        right. exists (a :: v :: pre), r0. reflexivity.
      - destruct C as [C|(C1 & C2)]; [left; exact C|].
        right. split; [exact C1|right; right; exact C2]. }
    destruct (a =? "--vehicle") eqn:Ev.
    { apply String.eqb_eq in Ev. subst a.
      destruct rest as [|v rest']; [inversion H; subst; auto|].
      destruct (Hskip _ v rest' eq_refl H) as (A & B & C).
      cbn [vehicle server simulate] in A, B, C.
      split; [|split; [exact B|exact C]].
      destruct A as [A|A]; [|right; exact A].
      right. exists [], rest'. rewrite A. reflexivity. }
    destruct (a =? "--server") eqn:Es.
    { apply String.eqb_eq in Es. subst a.
      destruct rest as [|v rest']; [inversion H; subst; auto|].
      destruct (Hskip _ v rest' eq_refl H) as (A & B & C).
      cbn [vehicle server simulate] in A, B, C.
      split; [exact A|split; [|exact C]].
      destruct B as [B|B]; [|right; exact B].
      right. exists [], rest'. rewrite B. reflexivity. }
    destruct (a =? "--real") eqn:Er.
    { apply String.eqb_eq in Er. subst a.
      destruct (Hlater _ H) as (A & B & C).
      cbn [vehicle server simulate] in A, B, C.
      split; [exact A|split; [exact B|]].
      right. split; [|left; reflexivity].
      destruct C as [C|(C & _)]; exact C. }
    destruct (a =? "--help"); [discriminate H|].
    apply (Hlater _ H).
Qed.

(** When [scan] ends with the usage line. *)
Lemma scan_usage : forall (args : list string) (o : Options),
  (scan o args = Usage -> In "--help" args) /\
  (~ In "--help" args -> exists o', scan o args = Start o').
Proof.
  intro args. pattern args. apply scan_ind2; clear args.
  - intro o. split; [discriminate|]. intros _. exists o. reflexivity.
  - intros a rest IH1 IH2 o. cbn [scan].
    destruct (a =? "--vehicle") eqn:Ev.
    { destruct rest as [|v rest'].
      - split; [discriminate|]. intros _. exists o. reflexivity.
      - destruct (IH2 v rest' eq_refl
                    (mkOptions v (server o) (simulate o))) as (A & B).
        split.
        + intro H. right. right. exact (A H).
        + intro H. apply B. intro Hin. apply H. right. right. exact Hin. }
    destruct (a =? "--server") eqn:Es.
    { destruct rest as [|v rest'].
      - split; [discriminate|]. intros _. exists o. reflexivity.
      - destruct (IH2 v rest' eq_refl
                    (mkOptions (vehicle o) v (simulate o))) as (A & B).
        split.
        + intro H. right. right. exact (A H).
        + intro H. apply B. intro Hin. apply H. right. right. exact Hin. }
    destruct (a =? "--real") eqn:Er.
    { destruct (IH1 (mkOptions (vehicle o) (server o) false)) as (A & B).
      split.
      - intro H. right. exact (A H).
      - intro H. apply B. intro Hin. apply H. right. exact Hin. }
    destruct (a =? "--help") eqn:Eh.
    { apply String.eqb_eq in Eh. subst a. split.
      - intros _. left. reflexivity.
      - intro H. exfalso. apply H. left. reflexivity. }
    destruct (IH1 o) as (A & B). split.
    + intro H. right. exact (A H).
    + intro H. apply B. intro Hin. apply H. right. exact Hin.
Qed.

(** X15 (the loop over argv).  The loop of main over the index i reads
    argv[1], argv[2], ... from left to right, each once: an option that
    takes a value and has one takes the next argument as its value,
    whatever that argument is, and the loop goes on behind it; --vehicle
    or --server as the last argument is passed over; --real clears
    simulate; --help ends the loop; any other word is passed over.  That
    is the recursion [scan] on the arguments behind argv[0]. *)
Theorem parse_args_reads_left_to_right (argv : list string) :
  parse_args argv = scan defaults (tl argv).
Proof.
  destruct argv as [|prog args].
  - (* argc = 0: the loop is not entered *)
    reflexivity.
  - unfold parse_args. cbn [tl length].
    apply (parse_loop_scan (S (length args)) args [prog] defaults). lia.
Qed.

(** X16 (where the options come from).  When main goes on to start its
    threads, the vehicle id is the default AV-001 or the argument that
    follows a --vehicle on the command line, the server address is the
    default localhost:50051 or the argument that follows a --server, and
    the mode is Simulate unless --real is among the arguments. *)
Theorem options_come_from_argv (argv : list string) (o : Options) :
  parse_args argv = Start o ->
  (vehicle o = "AV-001" \/
   exists pre rest,
     tl argv = (pre ++ "--vehicle" :: vehicle o :: rest)%list) /\
  (server o = "localhost:50051" \/
   exists pre rest,
     tl argv = (pre ++ "--server" :: server o :: rest)%list) /\
  (simulate o = true \/ In "--real" (tl argv)).
Proof.
  pattern (parse_args argv). apply parse_args_tl. intro H.
  destruct (scan_sound _ _ _ H) as (A & B & C).
  split; [exact A|]. split; [exact B|].
  destruct C as [C|(_ & C)]; [left; exact C|right; exact C].
Qed.

(** X17 (the usage line).  main prints the usage line and returns without
    starting a thread only if --help is among the arguments; and it does
    start its threads whenever --help is not among them. *)
Theorem usage_only_on_help (argv : list string) :
  (parse_args argv = Usage -> In "--help" (tl argv)) /\
  (~ In "--help" (tl argv) -> exists o, parse_args argv = Start o) /\
  (fst (prologue argv) = (banner ++ [usage])%list <->
   parse_args argv = Usage).
Proof.
  unfold prologue. pattern (parse_args argv). apply parse_args_tl.
  destruct (scan_usage (tl argv) defaults) as (A & B).
  split; [exact A|]. split; [exact B|].
  destruct (scan defaults (tl argv)) as [|o]; cbn [fst].
  - split; reflexivity.
  - split; [|discriminate].
    intro H. apply app_inv_head in H. discriminate H.
Qed.

(** A command line with both options and --real. *)
Lemma options_come_from_argv_example :
  parse_args ["omnistream"; "--vehicle"; "AV-007"; "--real"; "--server";
              "10.0.0.1:50051"] =
    Start (mkOptions "AV-007" "10.0.0.1:50051" false) /\
  In "--real" (tl ["omnistream"; "--vehicle"; "AV-007"; "--real"; "--server";
                   "10.0.0.1:50051"]).
Proof.
  assert (Hrun : parse_args ["omnistream"; "--vehicle"; "AV-007"; "--real";
                             "--server"; "10.0.0.1:50051"] =
                 Start (mkOptions "AV-007" "10.0.0.1:50051" false))
    by (vm_compute; reflexivity).
  split; [exact Hrun|].
  destruct (options_come_from_argv _ _ Hrun) as (_ & _ & [C|C]);
    [discriminate C|exact C].
Defined.

End CliFacts.

(* ===================================================================== *)
(** * The packets of SensorGenerator *)
(* ===================================================================== *)

Module GenFacts.

Import Rt Gen.

Section Facts.

Variable F : Type.
Variable lidar_point : Z -> N -> N -> F.
Variable imu_reading : Z -> F * F * F.
Variable drain : F -> F.
Variable full : F.
Variable zero : F.

(** The scan of one tick: the points 0, 1, ..., n - 1. *)
Lemma lidar_loop_points (s : SensorGenerator F) :
  forall fuel (i : N) (buffer : list F),
  N.to_nat i + fuel = N.to_nat (lidar_points_ s) ->
  lidar_loop lidar_point fuel s i buffer =
    buffer ++ map (fun k => lidar_point (tick_ s) (N.of_nat k)
                                        (lidar_points_ s))
                  (seq (N.to_nat i) fuel).
Proof.
  induction fuel as [|fuel IH]; intros i buffer Hn.
  - simpl. rewrite app_nil_r. reflexivity.
  - cbn [lidar_loop].
    assert (Hlt : (i <? lidar_points_ s)%N = true) by (apply N.ltb_lt; lia).
    rewrite Hlt, IH by lia.
    cbn [seq map]. rewrite N2Nat.id, <- app_assoc.
    replace (N.to_nat (i + 1)) with (S (N.to_nat i)) by lia.
    reflexivity.
Qed.

Lemma generate_fields (s : SensorGenerator F) (now : Z) :
  fst (generate lidar_point imu_reading drain zero s now) =
    mkPacket (vehicle_id_ s) now
      (map (fun k => lidar_point (tick_ s) (N.of_nat k) (lidar_points_ s))
           (seq 0 (N.to_nat (lidar_points_ s))))
      (Some (imu_reading (tick_ s)))
      (drain (battery_ s)) /\
  snd (generate lidar_point imu_reading drain zero s now) =
    mkGenerator (vehicle_id_ s) (lidar_points_ s) (u64 (tick_ s + 1))
      (drain (battery_ s))
      (map (fun k => lidar_point (tick_ s) (N.of_nat k) (lidar_points_ s))
           (seq 0 (N.to_nat (lidar_points_ s)))).
Proof.
  unfold generate, fill_imu, fill_lidar, empty_packet. cbv zeta.
  cbn [fst snd vehicle_id timestamp lidar_scan imu battery_level
       vehicle_id_ lidar_points_ tick_ battery_ lidar_buffer_].
  rewrite (lidar_loop_points s (N.to_nat (lidar_points_ s)) 0 [])
    by reflexivity.
  cbn [app N.to_nat]. auto.
Qed.

(** X18 (the scan of a packet).  The lidar scan of the packet generate
    returns holds lidar_points_ values: the distances of the points 0 to
    lidar_points_ - 1 at the current tick, in that order.  Nothing of the
    buffer's previous content is in it, and the buffer is left holding the
    same values. *)
Theorem lidar_scan_is_rebuilt (s : SensorGenerator F) (now : Z) :
  lidar_scan (fst (generate lidar_point imu_reading drain zero s now)) =
    map (fun k => lidar_point (tick_ s) (N.of_nat k) (lidar_points_ s))
        (seq 0 (N.to_nat (lidar_points_ s))) /\
  length (lidar_scan
            (fst (generate lidar_point imu_reading drain zero s now))) =
    N.to_nat (lidar_points_ s) /\
  lidar_buffer_ (snd (generate lidar_point imu_reading drain zero s now)) =
    lidar_scan (fst (generate lidar_point imu_reading drain zero s now)).
Proof.
  destruct (generate_fields s now) as (-> & ->).
  cbn [lidar_scan lidar_buffer_].
  rewrite length_map, length_seq. auto.
Qed.

(** X19 (the packets of successive calls).  After generate has been
    called once for each of a list of clock readings, from a tick within
    the range of uint64_t: there is one packet for each reading; the
    packet of call k (from 0) carries the vehicle id of the generator, the
    k-th reading as timestamp, an imu reading and a scan computed from the
    tick the generator started at plus k (modulo 2^64), and the battery
    level drained k + 1 times; and the generator's tick has advanced by
    the number of calls, its vehicle id and number of points unchanged. *)
Theorem generate_all_packets (s : SensorGenerator F) :
  forall (nows : list Z),
  u64 (tick_ s) = tick_ s ->
  length (fst (generate_all lidar_point imu_reading drain zero s nows)) =
    length nows /\
  tick (snd (generate_all lidar_point imu_reading drain zero s nows)) =
    u64 (tick_ s + Z.of_nat (length nows)) /\
  vehicle_id_ (snd (generate_all lidar_point imu_reading drain zero s nows))
    = vehicle_id_ s /\
  lidar_points_ (snd (generate_all lidar_point imu_reading drain zero s nows))
    = lidar_points_ s /\
  battery_ (snd (generate_all lidar_point imu_reading drain zero s nows)) =
    Nat.iter (length nows) drain (battery_ s) /\
  forall k now,
    nth_error nows k = Some now ->
    nth_error (fst (generate_all lidar_point imu_reading drain zero s nows)) k
    = Some (mkPacket (vehicle_id_ s) now
              (map (fun i => lidar_point (u64 (tick_ s + Z.of_nat k))
                                         (N.of_nat i) (lidar_points_ s))
                   (seq 0 (N.to_nat (lidar_points_ s))))
              (Some (imu_reading (u64 (tick_ s + Z.of_nat k))))
              (Nat.iter (S k) drain (battery_ s))).
Proof.
  intro nows. revert s.
  induction nows as [|now nows IH]; intros s Hu.
  - cbn [generate_all fst snd length tick Nat.iter nat_rect].
    rewrite Z.add_0_r, Hu. repeat split; auto.
    intros k now H. destruct k; discriminate H.
  - cbn [generate_all fst snd length]. cbv zeta.
    destruct (generate_fields s now) as (Hp & Hs).
    rewrite Hp, Hs.
    match goal with |- context [generate_all _ _ _ _ ?s1 nows] =>
      destruct (IH s1) as (A & B & C & D & E & K) end.
    { cbn [tick_]. apply NetFacts.u64_idem. }
    cbn [tick_ vehicle_id_ lidar_points_ battery_] in B, C, D, E, K.
    split; [rewrite A; reflexivity|].
    split; [rewrite B; apply NetFacts.u64_succ|].
    split; [exact C|]. split; [exact D|].
    split; [rewrite E; symmetry; apply Nat.iter_succ_r|].
    intros [|k] now' H; cbn [nth_error] in *.
    + inversion H; subst. cbn [Nat.iter nat_rect Z.of_nat].
      rewrite Z.add_0_r, Hu. reflexivity.
    + rewrite (K k now' H), NetFacts.u64_succ.
      rewrite <- (Nat.iter_succ_r (S k)). reflexivity.
Qed.

End Facts.

(** Three calls on a new generator of four points, with the point, the imu
    reading and the battery as integers. *)
Lemma generate_all_packets_from_new :
  u64 (tick_ (new_generator 100%Z "AV-001" 4)) =
    tick_ (new_generator 100%Z "AV-001" 4) /\
  tick (snd (generate_all (fun t i n => (t + Z.of_N i)%Z)
                          (fun t => (t, t, t)) Z.pred 0%Z
                          (new_generator 100%Z "AV-001" 4) [10; 20; 30]%Z))
    = 3%Z /\
  battery_ (snd (generate_all (fun t i n => (t + Z.of_N i)%Z)
                              (fun t => (t, t, t)) Z.pred 0%Z
                              (new_generator 100%Z "AV-001" 4)
                              [10; 20; 30]%Z))
    = 97%Z.
Proof.
  assert (Hu : u64 (tick_ (new_generator 100%Z "AV-001" 4)) =
               tick_ (new_generator 100%Z "AV-001" 4)) by reflexivity.
  split; [exact Hu|].
  destruct (@generate_all_packets Z (fun t i n => (t + Z.of_N i)%Z)
              (fun t => (t, t, t)) Z.pred 0%Z
              (new_generator 100%Z "AV-001" 4) [10; 20; 30]%Z Hu)
    as (_ & Ht & _ & _ & Hb & _).
  split; [exact Ht|exact Hb].
Defined.

End GenFacts.
